(** * Budget planner: categorization and bill-detection pipeline

    A shallow embedding of [src/lib/categorizer.ts], [src/lib/pipeline.ts]
    and [src/lib/planner.ts], followed by the properties established about
    them.

    Modelling conventions.
    - A JavaScript [number] holding money, a confidence or a ratio is an
      exact rational ([Q]); counters, lengths and days of the month are
      integers.  Comparisons of results of arithmetic are stated with
      [==] on [Q].  [NaN] and the infinities have no counterpart.  Sums
      and quotients are exact where the code rounds to a double, so the
      properties relate amounts that the code computes by the same
      operations, or an amount to the elements it is chosen from; none
      orders a mean against other amounts.
    - A JavaScript string is a [string] of 8-bit characters.  Case
      mapping and white space are the ASCII ones: a character outside
      ASCII is left as it is, where [toLowerCase] maps it.
    - A [Map] or [Set] that the code only looks up is a [gmap] or [gset];
      a [Map] whose iteration order is observed is an association list in
      insertion order.  A lookup in the object literal
      [FALLBACK_CATEGORY_MAP] finds its own keys and, for any other key
      that names one, the properties it inherits from [Object.prototype].
    - [Array.prototype.sort] with a comparator is the stable insertion
      sort; the default sort of distinct strings and the numeric sort of
      integers, whose results do not depend on the algorithm, are
      [merge_sort].
    - The loops that mutate every row of the batch in place become maps
      over the list of rows; the output row at an index is the input row
      at that index after the update.
    - [throw new Error(msg)] is the [Err msg] result, and so is the
      [TypeError] of destructuring a value that is not iterable.
    - What the code reads from outside is an argument: the rules of
      [config/category_rules.json], the exclusion rules of
      [config/exclusion_rules.json], the records csv-parse makes of a
      file, the text of a generated identifier.  A [Date] is its time
      value, local time being UTC. *)

From Stdlib Require Import QArith Qabs Qround Qminmax ZArith Ascii String List.
From stdpp Require Import base list gmap strings sorting pretty.

(** ** JavaScript primitives used by the sources *)

Module JS.

Definition Qltb (x y : Q) : bool := negb (Qle_bool y x).

(** [Math.round]: the nearest integer, halves towards plus infinity. *)
Definition Math_round (x : Q) : Z := Qfloor (x + (1 # 2))%Q.

(** [Math.round(x * 100) / 100]. *)
Definition round2 (x : Q) : Q := (inject_Z (Math_round (x * 100)) / 100)%Q.

Definition Math_abs (x : Q) : Q := Qabs x.

(** Truthiness of a string: the empty string is falsy. *)
Definition truthy (s : string) : bool :=
  match s with EmptyString => false | String _ _ => true end.

(** [o || d] for an optional string field. *)
Definition orElse (o : option string) (d : string) : string :=
  match o with
  | Some s => if truthy s then s else d
  | None => d
  end.

Definition isWhiteSpace (c : ascii) : bool :=
  let n := nat_of_ascii c in
  Nat.eqb n 32 || (Nat.leb 9 n && Nat.leb n 13).

Definition lowerChar (c : ascii) : ascii :=
  let n := nat_of_ascii c in
  if Nat.leb 65 n && Nat.leb n 90 then ascii_of_nat (n + 32) else c.

Fixpoint toLowerCase (s : string) : string :=
  match s with
  | EmptyString => EmptyString
  | String c s' => String (lowerChar c) (toLowerCase s')
  end.

Fixpoint trimStart (s : string) : string :=
  match s with
  | EmptyString => EmptyString
  | String c s' => if isWhiteSpace c then trimStart s' else s
  end.

Definition trimEnd (s : string) : string :=
  String.rev (trimStart (String.rev s)).

Definition trim (s : string) : string := trimEnd (trimStart s).

(** [s.replace(/[^C]+/g, " ")] for a character class [C]: every maximal
    run of characters outside the class becomes one space.  [inRun]
    tells that the previous character was outside the class. *)
Fixpoint replaceRuns (inClass : ascii → bool) (inRun : bool) (s : string)
  : string :=
  match s with
  | EmptyString => EmptyString
  | String c s' =>
      if inClass c then String c (replaceRuns inClass false s')
      else if inRun then replaceRuns inClass true s'
      else String " " (replaceRuns inClass true s')
  end.

(** [s.includes(pat)]. *)
Fixpoint includes (s pat : string) : bool :=
  String.prefix pat s ||
  match s with
  | EmptyString => false
  | String _ s' => includes s' pat
  end.

(** [s.split(sep)] for a one-character separator. *)
Fixpoint split (sep : ascii) (s : string) : list string :=
  match s with
  | EmptyString => [EmptyString]
  | String c s' =>
      if Ascii.eqb c sep then EmptyString :: split sep s'
      else match split sep s' with
           | [] => [String c EmptyString]
           | p :: ps => String c p :: ps
           end
  end.

Definition digitValue (radix : nat) (c : ascii) : option Z :=
  let n := nat_of_ascii c in
  let v :=
    if Nat.leb 48 n && Nat.leb n 57 then Some (n - 48)%nat
    else if Nat.leb 97 n && Nat.leb n 122 then Some (n - 87)%nat
    else if Nat.leb 65 n && Nat.leb n 90 then Some (n - 55)%nat
    else None in
  match v with
  | Some d => if Nat.ltb d radix then Some (Z.of_nat d) else None
  | None => None
  end.

(** The longest prefix of digits in the radix: its value, how many
    digits it has, and the rest of the string. *)
Fixpoint readDigits (radix : nat) (acc : Z) (count : nat) (s : string)
  : Z * nat * string :=
  match s with
  | EmptyString => (acc, count, s)
  | String c s' =>
      match digitValue radix c with
      | Some d => readDigits radix (acc * Z.of_nat radix + d) (S count) s'
      | None => (acc, count, s)
      end
  end.

Definition readSign (s : string) : bool * string :=
  match s with
  | String "-" s' => (true, s')
  | String "+" s' => (false, s')
  | _ => (false, s)
  end.

(** [parseInt(s)] without a radix; [None] is [NaN]. *)
Definition parseInt (s : string) : option Z :=
  let '(neg, s1) := readSign (trimStart s) in
  let '(radix, s2) :=
    match s1 with
    | String "0" (String "x" s') => (16%nat, s')
    | String "0" (String "X" s') => (16%nat, s')
    | _ => (10%nat, s1)
    end in
  let '(v, count, _) := readDigits radix 0 0 s2 in
  match count with
  | O => None
  | S _ => Some (if neg then - v else v)%Z
  end.

Definition pow10 (e : Z) : Q :=
  match e with
  | Z0 => 1%Q
  | Zpos p => inject_Z (10 ^ Zpos p)
  | Zneg p => (/ inject_Z (10 ^ Zpos p))%Q
  end.

(** [parseFloat(s)] on decimal literals; [None] is [NaN].  The literal
    [Infinity] is read as not a number, the rationals having no such
    value. *)
Definition parseFloat (s : string) : option Q :=
  let '(neg, s1) := readSign (trimStart s) in
  let '(ip, ni, s2) := readDigits 10 0 0 s1 in
  let '(fp, nf, s3) :=
    match s2 with
    | String "." s' => readDigits 10 0 0 s'
    | _ => (0%Z, O, s2)
    end in
  match ni, nf with
  | O, O => None
  | _, _ =>
      let e :=
        match s3 with
        | String c s' =>
            if Ascii.eqb c "e" || Ascii.eqb c "E" then
              let '(eneg, s4) := readSign s' in
              let '(ev, ne, _) := readDigits 10 0 0 s4 in
              match ne with
              | O => 0%Z
              | S _ => if eneg then (- ev)%Z else ev
              end
            else 0%Z
        | EmptyString => 0%Z
        end in
      let mant :=
        (inject_Z ip + inject_Z fp * pow10 (- Z.of_nat nf))%Q in
      let v := (mant * pow10 e)%Q in
      Some (if neg then (- v)%Q else v)
  end.

(** *** Dates

    A [Date] is its time value in milliseconds; local time is taken to
    be UTC.  [daysFromCivil] and [civilFromDays] convert between a
    proleptic Gregorian date and the day number since 1970-01-01. *)

Definition msPerDay : Z := 86400000.

Definition daysFromCivil (y m d : Z) : Z :=
  let y' := if (m <=? 2)%Z then (y - 1)%Z else y in
  let era := (y' / 400)%Z in
  let yoe := (y' - era * 400)%Z in
  let mp := if (2 <? m)%Z then (m - 3)%Z else (m + 9)%Z in
  let doy := ((153 * mp + 2) / 5 + d - 1)%Z in
  let doe := (yoe * 365 + yoe / 4 - yoe / 100 + doy)%Z in
  (era * 146097 + doe - 719468)%Z.

Definition civilFromDays (z : Z) : Z * Z * Z :=
  let z := (z + 719468)%Z in
  let era := (z / 146097)%Z in
  let doe := (z - era * 146097)%Z in
  let yoe := ((doe - doe / 1460 + doe / 36524 - doe / 146096) / 365)%Z in
  let y := (yoe + era * 400)%Z in
  let doy := (doe - (365 * yoe + yoe / 4 - yoe / 100))%Z in
  let mp := ((5 * doy + 2) / 153)%Z in
  let d := (doy - (153 * mp + 2) / 5 + 1)%Z in
  let m := if (mp <? 10)%Z then (mp + 3)%Z else (mp - 9)%Z in
  (if (m <=? 2)%Z then (y + 1)%Z else y, m, d).

(** [new Date(year, monthIndex, day)]: a year in 0..99 means 19xx, the
    month index and the day overflow into the neighbouring months, and a
    [NaN] argument or a time value beyond 8.64e15 ms gives an invalid
    date ([None]). *)
Definition newDate (year monthIndex day : option Z) : option Z :=
  match year, monthIndex, day with
  | Some y, Some m, Some d =>
      let y := if (0 <=? y)%Z && (y <=? 99)%Z then (1900 + y)%Z else y in
      let ym := (y + m / 12)%Z in
      let mn := (m mod 12)%Z in
      let t := ((daysFromCivil ym (mn + 1) 1 + d - 1) * msPerDay)%Z in
      if (Z.abs t <=? 8640000000000000)%Z then Some t else None
  | _, _, _ => None
  end.

Definition getFullYear (t : Z) : Z := (civilFromDays (t / msPerDay)).1.1.
(** Zero-based, as in JavaScript. *)
Definition getMonth (t : Z) : Z := ((civilFromDays (t / msPerDay)).1.2 - 1)%Z.
Definition getDate (t : Z) : Z := (civilFromDays (t / msPerDay)).2.

(** [s.padStart(2, "0")]. *)
Definition padStart2 (s : string) : string :=
  match s with
  | EmptyString => "00"
  | String c EmptyString => String "0" s
  | _ => s
  end.

(** ** Exceptions *)

(** The outcome of a call: the value it returns, or the message of the
    error it throws. *)
Inductive Result (A : Type) : Type :=
| Ok (a : A)
| Err (msg : string).
Arguments Ok {A} a.
Arguments Err {A} msg.

(** ** Objects *)

(** What [object[key]] reads from an object literal: an own property, a
    property inherited from [Object.prototype], or [undefined]. *)
Inductive Property (A : Type) : Type :=
| Own (a : A)
| Inherited
| Undefined.
Arguments Own {A} a.
Arguments Inherited {A}.
Arguments Undefined {A}.

(** The names of the properties of [Object.prototype].  Each holds a
    function, except [__proto__], which reads as the prototype itself:
    in both cases a value that is truthy and not iterable. *)
Definition OBJECT_PROTOTYPE_KEYS : list string :=
  [ "constructor"; "__defineGetter__"; "__defineSetter__"; "hasOwnProperty";
    "__lookupGetter__"; "__lookupSetter__"; "isPrototypeOf";
    "propertyIsEnumerable"; "toString"; "valueOf"; "__proto__";
    "toLocaleString" ].

(** ** Arrays *)

(** [Array.prototype.sort(compare)] is stable, and with a consistent
    comparator its result is the one of insertion sort.  [before a b]
    stands for [compare(a, b) < 0]. *)
Fixpoint insertSorted {A} (before : A → A → bool) (x : A) (l : list A)
  : list A :=
  match l with
  | [] => [x]
  | y :: rest =>
      if before y x then y :: insertSorted before x rest else x :: y :: rest
  end.

Definition sortStable {A} (before : A → A → bool) (l : list A) : list A :=
  foldr (insertSorted before) [] l.

(** ** Maps *)

(** A [Map] with string keys whose order of insertion is observed:
    [get], and [set], which keeps the place of a key that is there and
    appends a new one. *)
Fixpoint mapGet {V} (m : list (string * V)) (key : string) : option V :=
  match m with
  | [] => None
  | (k, v) :: rest => if String.eqb k key then Some v else mapGet rest key
  end.

Fixpoint mapSet {V} (m : list (string * V)) (key : string) (v : V)
  : list (string * V) :=
  match m with
  | [] => [(key, v)]
  | (k, v') :: rest =>
      if String.eqb k key then (k, v) :: rest
      else (k, v') :: mapSet rest key v
  end.

End JS.

(** ** [categorizer.ts] *)

Module Categorizer.
Import JS.

(** A rule after [loadRules]: the compiled case-insensitive [RegExp] is
    its [test] function. *)
Record Rule := {
  rule_id : string;
  rule_pattern : string → bool;
  rule_category : string;
  rule_group : string;
  rule_isBill : bool;
  rule_confidence : Q;
}.

(** [TransactionRow], with the fields the pipeline stores under its
    index signature; [ProcessedTransaction] is the same record. *)
Record TransactionRow := {
  id : string;
  name : string;
  monzoCategory : string;
  payeeNormalized : string;
  categoryFinal : string;
  categoryGroup : string;
  isBillRule : bool;
  confidenceScore : Q;
  confidenceReason : string;
  ruleIdApplied : string;
  date : Z;
  monthKey : string;
  day : Z;
  type : string;
  amount : Q;
  amountAbs : Q;
  direction : string;
  notes : string;
  accountLabel : string;
  sourceFile : string;
  isSpend : bool;
  isInternalTransfer : bool;
  isBillCandidate : bool;
  billStatus : string;
  requiredAmountExact : Q;
  typicalDay : option Z;
}.

Definition set_payeeNormalized (v : string) (r : TransactionRow) :=
  {| id := id r; name := name r; monzoCategory := monzoCategory r;
     payeeNormalized := v;
     categoryFinal := categoryFinal r; categoryGroup := categoryGroup r;
     isBillRule := isBillRule r; confidenceScore := confidenceScore r;
     confidenceReason := confidenceReason r;
     ruleIdApplied := ruleIdApplied r;
     date := date r; monthKey := monthKey r; day := day r; type := type r;
     amount := amount r; amountAbs := amountAbs r;
     direction := direction r; notes := notes r;
     accountLabel := accountLabel r; sourceFile := sourceFile r;
     isSpend := isSpend r; isInternalTransfer := isInternalTransfer r;
     isBillCandidate := isBillCandidate r; billStatus := billStatus r;
     requiredAmountExact := requiredAmountExact r;
     typicalDay := typicalDay r |}.

(** The six assignments that a rule, a fallback entry or a fuzzy match
    make together. *)
Definition set_classification (cat grp : string) (bill : bool) (conf : Q)
    (reason rid : string) (r : TransactionRow) :=
  {| id := id r; name := name r; monzoCategory := monzoCategory r;
     payeeNormalized := payeeNormalized r;
     categoryFinal := cat; categoryGroup := grp;
     isBillRule := bill; confidenceScore := conf;
     confidenceReason := reason;
     ruleIdApplied := rid;
     date := date r; monthKey := monthKey r; day := day r; type := type r;
     amount := amount r; amountAbs := amountAbs r;
     direction := direction r; notes := notes r;
     accountLabel := accountLabel r; sourceFile := sourceFile r;
     isSpend := isSpend r; isInternalTransfer := isInternalTransfer r;
     isBillCandidate := isBillCandidate r; billStatus := billStatus r;
     requiredAmountExact := requiredAmountExact r;
     typicalDay := typicalDay r |}.

(** [FALLBACK_CATEGORY_MAP[key]].  The table is an object literal, so a
    key that is not one of its six reads a property of [Object.prototype]
    when it names one. *)
Definition FALLBACK_CATEGORY_MAP (key : string)
  : Property (string * string * bool * Q) :=
  if String.eqb key "Groceries" then
    Own ("Groceries (non-Spar)", "variable", false, 0.55%Q)
  else if String.eqb key "Entertainment" then
    Own ("Entertainment & Activities", "variable", false, 0.55%Q)
  else if String.eqb key "Transport" then
    Own ("Transport", "variable", false, 0.55%Q)
  else if String.eqb key "Shopping" then
    Own ("Shopping (general)", "variable", false, 0.55%Q)
  else if String.eqb key "Finances" then
    Own ("Debt Repayments / Finance Plans", "required_bill", true, 0.5%Q)
  else if String.eqb key "General" then
    Own ("Other - General", "variable", false, 0.45%Q)
  else if existsb (String.eqb key) OBJECT_PROTOTYPE_KEYS then Inherited
  else Undefined.

(** The [TypeError] of [const [category, group, isBill, confidence] =
    fallback] on a value that is not iterable; the wording is V8's. *)
Definition NOT_ITERABLE : string := "TypeError: fallback is not iterable".

Definition payeeClass (c : ascii) : bool :=
  let n := nat_of_ascii c in
  (Nat.leb 97 n && Nat.leb n 122) || (Nat.leb 48 n && Nat.leb n 57)
  || Nat.eqb n 43 || Nat.eqb n 38 || Nat.eqb n 32.

Definition normalizePayee (value : string) : string :=
  let text := toLowerCase (trim value) in
  let text := replaceRuns payeeClass false text in
  let text := trim (replaceRuns (λ c, negb (isWhiteSpace c)) false text) in
  text.

(** The rules are those of [loadRules], in the order of the
    configuration file. *)
Fixpoint matchRule (rules : list Rule) (payeeNorm : string) : option Rule :=
  match rules with
  | [] => None
  | rule :: rest =>
      if rule_pattern rule payeeNorm then Some rule
      else matchRule rest payeeNorm
  end.

(** *** [sequenceMatcherRatio] *)

(** [dp[i][j]]; a cell that does not exist reads as 0 (none is read). *)
Definition dpGet (dp : list (list nat)) (i j : nat) : nat :=
  match dp !! i with
  | Some row => default 0%nat (row !! j)
  | None => 0%nat
  end.

(** [dp[i][j] = v]. *)
Definition dpSet (dp : list (list nat)) (i j v : nat) : list (list nat) :=
  match dp !! i with
  | Some row => <[i := <[j := v]> row]> dp
  | None => dp
  end.

Definition charAt (s : string) (i : nat) : option ascii := String.get i s.

Definition lcsCell (shorter longer : string) (i : nat)
    (dp : list (list nat)) (j : nat) : list (list nat) :=
  if decide (charAt shorter (i - 1) = charAt longer (j - 1)) then
    dpSet dp i j (dpGet dp (i - 1) (j - 1) + 1)
  else
    dpSet dp i j (Nat.max (dpGet dp (i - 1) j) (dpGet dp i (j - 1))).

Definition lcsTable (shorter longer : string) : list (list nat) :=
  let m := String.length shorter in
  let n := String.length longer in
  let dp := replicate (m + 1) (replicate (n + 1) 0%nat) in
  foldl (λ dp i, foldl (lcsCell shorter longer i) dp (seq 1 n))
        dp (seq 1 m).

Definition sequenceMatcherRatio (a b : string) : Q :=
  if String.eqb a b then 1%Q
  else if negb (truthy a) || negb (truthy b) then 0%Q
  else
    let longer :=
      if Nat.ltb (String.length b) (String.length a) then a else b in
    let shorter :=
      if Nat.ltb (String.length b) (String.length a) then b else a in
    if Nat.eqb (String.length longer) 0 then 1%Q
    else
      let m := String.length shorter in
      let n := String.length longer in
      let lcsLength := dpGet (lcsTable shorter longer) m n in
      (2 * inject_Z (Z.of_nat lcsLength)
         / inject_Z (Z.of_nat (m + n)))%Q.

(** *** [categorize] *)

(** Pass 1, the body of the first loop.  A fallback that is inherited is
    truthy, and destructuring it throws. *)
Definition categorizeRow (rules : list Rule) (row : TransactionRow)
  : Result TransactionRow :=
  let row := set_payeeNormalized (normalizePayee (name row)) row in
  let row :=
    set_classification "Unmapped - Needs Review" "variable" false 0%Q
      "none" "" row in
  match matchRule rules (payeeNormalized row) with
  | Some rule =>
      Ok (set_classification (rule_category rule) (rule_group rule)
            (rule_isBill rule) (rule_confidence rule) "rule" (rule_id rule)
            row)
  | None =>
      match FALLBACK_CATEGORY_MAP (monzoCategory row) with
      | Own (category, group, isBill, confidence) =>
          Ok (set_classification category group isBill confidence
                "monzo_fallback" "fallback" row)
      | Inherited => Err NOT_ITERABLE
      | Undefined => Ok row
      end
  end.

(** Pass 1: the loop ends at the first row that throws. *)
Fixpoint pass1 (rules : list Rule) (rows : list TransactionRow)
  : Result (list TransactionRow) :=
  match rows with
  | [] => Ok []
  | row :: rest =>
      match categorizeRow rules row with
      | Err msg => Err msg
      | Ok row =>
          match pass1 rules rest with
          | Err msg => Err msg
          | Ok rest => Ok (row :: rest)
          end
      end
  end.

Record Known := {
  known_category : string;
  known_group : string;
  known_isBill : bool;
}.

(** [knownMap], in insertion order. *)
Definition KnownMap := list (string * Known).

Fixpoint knownGet (m : KnownMap) (key : string) : option Known :=
  match m with
  | [] => None
  | (k, v) :: rest => if String.eqb k key then Some v else knownGet rest key
  end.

Definition knownHas (m : KnownMap) (key : string) : bool :=
  match knownGet m key with Some _ => true | None => false end.

Definition knownKeys (m : KnownMap) : list string := map fst m.

(** The loop that fills [knownMap]: a key is inserted once, at the end. *)
Definition addKnown (m : KnownMap) (row : TransactionRow) : KnownMap :=
  if Qle_bool 0.9 (confidenceScore row) && truthy (payeeNormalized row) then
    if knownHas m (payeeNormalized row) then m
    else m ++ [(payeeNormalized row,
                {| known_category := categoryFinal row;
                   known_group := categoryGroup row;
                   known_isBill := isBillRule row |})]
  else m.

Definition buildKnownMap (rows : list TransactionRow) : KnownMap :=
  foldl addKnown [] rows.

(** The search for the best candidate: [(bestKey, bestScore)]. *)
Definition bestStep (payee : string) (best : option string * Q)
    (candidate : string) : option string * Q :=
  let score := sequenceMatcherRatio payee candidate in
  if Qltb (snd best) score then (Some candidate, score) else best.

Definition bestMatch (keys : list string) (payee : string)
  : option string * Q :=
  foldl (bestStep payee) (None, 0%Q) keys.

(** Pass 2, the body of the loop over the rows.  [bestKey] is a key of
    [knownMap], so [knownMap.get(bestKey)!] finds its entry. *)
Definition fuzzyRow (knownMap : KnownMap) (row : TransactionRow)
  : TransactionRow :=
  if Qle_bool 0.7 (confidenceScore row) || negb (truthy (payeeNormalized row))
  then row
  else
    let '(bestKey, bestScore) :=
      bestMatch (knownKeys knownMap) (payeeNormalized row) in
    match bestKey with
    | Some key =>
        if truthy key && Qle_bool 0.88 bestScore then
          match knownGet knownMap key with
          | Some mtch =>
              set_classification (known_category mtch) (known_group mtch)
                (known_isBill mtch)
                (Qmin 0.85 (Qmax 0.7 bestScore))
                "fuzzy_payee" ("fuzzy:" +:+ key) row
          | None => row
          end
        else row
    | None => row
    end.

(** Pass 2, on the batch as pass 1 left it. *)
Definition pass2 (rows : list TransactionRow) : list TransactionRow :=
  let knownMap := buildKnownMap rows in
  if Nat.ltb 0 (length knownMap) then map (fuzzyRow knownMap) rows
  else rows.

Definition categorize (rules : list Rule) (rows : list TransactionRow)
  : Result (list TransactionRow) :=
  match pass1 rules rows with
  | Err msg => Err msg
  | Ok rows => Ok (pass2 rows)
  end.

Definition set_override (cat : string) (r : TransactionRow) :=
  set_classification cat (categoryGroup r) (isBillRule r) 1%Q
    "user_override" "payee_override" r.

Definition applyPayeeOverrides (rows : list TransactionRow)
    (overrides : gmap string string) : list TransactionRow :=
  map (λ row,
         match overrides !! payeeNormalized row with
         | Some override =>
             if truthy override then set_override override row else row
         | None => row
         end) rows.

End Categorizer.

(** ** [pipeline.ts] *)

Module Pipeline.
Import JS Categorizer.

(** [config/exclusion_rules.json] as [loadExclusionRules] returns it; a
    key the file leaves out is [None]. *)
Record ExclusionRules := {
  internal_transfer_types : option (list string);
  internal_transfer_name_patterns : option (list string);
  exclude_zero_amount : option bool;
}.

Definition DIRECT_DEBIT_TYPES : gset string :=
  {[ "Direct Debit"; "Faster payment"; "Bacs (Direct Credit)" ]}.

(** A record of the CSV file, by column header. *)
Record RawCsvRow := {
  raw_TransactionID : option string;
  raw_Date : option string;
  raw_Name : option string;
  raw_Type : option string;
  raw_Amount : option string;
  raw_Category : option string;
  raw_Notes : option string;
}.

(** An uploaded file.  [records] is what csv-parse's [parse] makes of
    its content: the records, or the error it throws. *)
Record CsvFile := {
  records : Result (list RawCsvRow);
  fileName : string;
}.

Definition parseDateDDMMYYYY (dateStr : string) : option Z :=
  match split "/" dateStr with
  | [dd; mm; yyyy] =>
      newDate (parseInt yyyy) ((λ m, m - 1)%Z <$> parseInt mm) (parseInt dd)
  | _ => None
  end.

Definition monthKeyOf (date : Z) : string :=
  pretty (getFullYear date) +:+ "-" +:+
  padStart2 (pretty (getMonth date + 1)%Z).

(** The body of the loop over the records of one file.  [genId k] is
    the text [Date.now()] and [Math.random()] give for the identifier
    generated for the row pushed at index [k]. *)
Definition parseRow (genId : nat → string) (accountLabel file : string)
    (allRows : list TransactionRow) (raw : RawCsvRow)
  : list TransactionRow :=
  match parseDateDDMMYYYY (orElse (raw_Date raw) "") with
  | None => allRows
  | Some date =>
      let amount :=
        match parseFloat (orElse (raw_Amount raw) "0") with
        | Some q => if Qeq_bool q 0 then 0%Q else q
        | None => 0%Q
        end in
      let txId :=
        orElse (raw_TransactionID raw)
               ("gen_" +:+ genId (length allRows)) in
      allRows ++
      [ {| id := txId;
           name := orElse (raw_Name raw) "";
           monzoCategory := orElse (raw_Category raw) "";
           payeeNormalized := "";
           categoryFinal := "";
           categoryGroup := "";
           isBillRule := false;
           confidenceScore := 0%Q;
           confidenceReason := "";
           ruleIdApplied := "";
           date := date;
           monthKey := monthKeyOf date;
           day := getDate date;
           type := orElse (raw_Type raw) "";
           amount := amount;
           amountAbs := Math_abs amount;
           direction := if Qltb amount 0 then "outflow" else "inflow";
           notes := orElse (raw_Notes raw) "";
           accountLabel := accountLabel;
           sourceFile := file;
           isSpend := false;
           isInternalTransfer := false;
           isBillCandidate := false;
           billStatus := "not_bill";
           requiredAmountExact := 0%Q;
           typicalDay := None |} ]
  end.

(** The loop over the files, from index [idx] on. *)
Fixpoint parseFiles (genId : nat → string) (idx : nat)
    (files : list CsvFile) (allRows : list TransactionRow)
  : Result (list TransactionRow) :=
  match files with
  | [] => Ok allRows
  | f :: rest =>
      let accountLabel :=
        if Nat.eqb idx 0 then "Personal" else "Joint" in
      match records f with
      | Err msg => Err msg
      | Ok rows =>
          parseFiles genId (S idx) rest
            (foldl (parseRow genId accountLabel (fileName f)) allRows rows)
      end
  end.

(** Returns [(rows, rawCount)]. *)
Definition parseMonzoCsvContents (genId : nat → string)
    (csvContents : list CsvFile) : Result (list TransactionRow * nat) :=
  if Nat.eqb (length csvContents) 0 then Err "No CSV files provided"
  else
    match parseFiles genId 0 csvContents [] with
    | Err msg => Err msg
    | Ok allRows => Ok (allRows, length allRows)
    end.

(** *** [applyExclusions] *)

Definition set_exclusion (internal spend : bool) (r : TransactionRow) :=
  {| id := id r; name := name r; monzoCategory := monzoCategory r;
     payeeNormalized := payeeNormalized r;
     categoryFinal := categoryFinal r; categoryGroup := categoryGroup r;
     isBillRule := isBillRule r; confidenceScore := confidenceScore r;
     confidenceReason := confidenceReason r;
     ruleIdApplied := ruleIdApplied r;
     date := date r; monthKey := monthKey r; day := day r; type := type r;
     amount := amount r; amountAbs := amountAbs r;
     direction := direction r; notes := notes r;
     accountLabel := accountLabel r; sourceFile := sourceFile r;
     isSpend := spend; isInternalTransfer := internal;
     isBillCandidate := isBillCandidate r; billStatus := billStatus r;
     requiredAmountExact := requiredAmountExact r;
     typicalDay := typicalDay r |}.

(** The loop over the name patterns, left at the first hit. *)
Fixpoint matchesPattern (nameLower : string) (patterns : list string)
  : bool :=
  match patterns with
  | [] => false
  | pattern :: rest =>
      if includes nameLower pattern then true
      else matchesPattern nameLower rest
  end.

Definition excludeRow (transferTypes : gset string)
    (patterns : list string) (row : TransactionRow) : TransactionRow :=
  let isInternal := bool_decide (type row ∈ transferTypes) in
  let isInternal :=
    if negb isInternal then
      matchesPattern (toLowerCase (name row)) patterns
    else isInternal in
  set_exclusion isInternal (Qltb (amount row) 0 && negb isInternal) row.

Definition applyExclusions (exclusionRules : ExclusionRules)
    (rows : list TransactionRow) : list TransactionRow :=
  let patterns :=
    map toLowerCase
        (default [] (internal_transfer_name_patterns exclusionRules)) in
  let transferTypes : gset string :=
    list_to_set (default [] (internal_transfer_types exclusionRules)) in
  let excludeZero :=
    match exclude_zero_amount exclusionRules with
    | Some false => false
    | _ => true
    end in
  let result :=
    if excludeZero then
      filter (λ r, negb (Qeq_bool (amount r) 0) = true) rows
    else rows in
  map (excludeRow transferTypes patterns) result.

(** *** [applyBillStatus] *)

Definition set_bill (cand : bool) (status : string) (req : Q)
    (tday : option Z) (r : TransactionRow) :=
  {| id := id r; name := name r; monzoCategory := monzoCategory r;
     payeeNormalized := payeeNormalized r;
     categoryFinal := categoryFinal r; categoryGroup := categoryGroup r;
     isBillRule := isBillRule r; confidenceScore := confidenceScore r;
     confidenceReason := confidenceReason r;
     ruleIdApplied := ruleIdApplied r;
     date := date r; monthKey := monthKey r; day := day r; type := type r;
     amount := amount r; amountAbs := amountAbs r;
     direction := direction r; notes := notes r;
     accountLabel := accountLabel r; sourceFile := sourceFile r;
     isSpend := isSpend r; isInternalTransfer := isInternalTransfer r;
     isBillCandidate := cand; billStatus := status;
     requiredAmountExact := req;
     typicalDay := tday |}.

Definition set_isBillCandidate (v : bool) (r : TransactionRow) :=
  set_bill v (billStatus r) (requiredAmountExact r) (typicalDay r) r.
Definition set_billStatus (v : string) (r : TransactionRow) :=
  set_bill (isBillCandidate r) v (requiredAmountExact r) (typicalDay r) r.
Definition set_requiredAmountExact (v : Q) (r : TransactionRow) :=
  set_bill (isBillCandidate r) (billStatus r) v (typicalDay r) r.
Definition set_typicalDay (v : option Z) (r : TransactionRow) :=
  set_bill (isBillCandidate r) (billStatus r) (requiredAmountExact r) v r.

(** [[...new Set(keys)].sort()] and its last element, [undefined]
    ([None]) for no keys.  The keys are distinct, so their sorted list is
    the same for every sorting algorithm. *)
Definition sortedMonths (keys : list string) : list string :=
  merge_sort String.le (elements (list_to_set keys : gset string)).

Definition latestOf (keys : list string) : option string :=
  last (sortedMonths keys).

(** [payeeStats]: per payee, [(monthsSeen, txCount)]. *)
Definition addStats (stats : gmap string (gset string * nat))
    (row : TransactionRow) : gmap string (gset string * nat) :=
  let payee := payeeNormalized row in
  let '(monthsSeen, txCount) := default (∅, 0%nat) (stats !! payee) in
  <[payee := ({[ monthKey row ]} ∪ monthsSeen, S txCount)]> stats.

Definition buildPayeeStats (spendRows : list TransactionRow)
  : gmap string (gset string * nat) :=
  foldl addStats ∅ spendRows.

Definition markCandidate (payeeStats : gmap string (gset string * nat))
    (row : TransactionRow) : TransactionRow :=
  let '(monthsSeen, txCount) :=
    default (∅, 0%nat) (payeeStats !! payeeNormalized row) in
  let recurringLike := Nat.leb 2 (size monthsSeen) && Nat.leb 2 txCount in
  let isCandidate :=
    isBillRule row
    || (bool_decide (type row ∈ DIRECT_DEBIT_TYPES) && recurringLike) in
  set_isBillCandidate isCandidate row.

Definition assignStatus (presentLatest seenBefore : gset string)
    (row : TransactionRow) : TransactionRow :=
  if negb (isBillCandidate row) then set_billStatus "not_bill" row
  else
    let payee := payeeNormalized row in
    let status :=
      if bool_decide (payee ∈ presentLatest) then "active"
      else "inactive_candidate" in
    let status :=
      if String.eqb status "inactive_candidate"
         && negb (bool_decide (payee ∈ seenBefore))
      then "not_bill" else status in
    set_billStatus status row.

(** [x || 0] on a number read from a map. *)
Definition orZero (o : option Q) : Q :=
  match o with
  | Some q => if Qeq_bool q 0 then 0%Q else q
  | None => 0%Q
  end.

(** The loop over [activeSpend]: [(latestTotals, allTotals)], the
    second holding [(sum, count)]. *)
Definition addTotals (latestMonth : option string)
    (acc : gmap string Q * gmap string (Q * nat)) (row : TransactionRow)
  : gmap string Q * gmap string (Q * nat) :=
  let '(latestTotals, allTotals) := acc in
  let payee := payeeNormalized row in
  let latestTotals :=
    if bool_decide (Some (monthKey row) = latestMonth) then
      <[payee := (orZero (latestTotals !! payee) + amountAbs row)%Q]>
        latestTotals
    else latestTotals in
  let '(sum, count) := default (0%Q, 0%nat) (allTotals !! payee) in
  (latestTotals, <[payee := ((sum + amountAbs row)%Q, S count)]> allTotals).

Definition assignRequired (latestTotals : gmap string Q)
    (allTotals : gmap string (Q * nat)) (row : TransactionRow)
  : TransactionRow :=
  if negb (String.eqb (billStatus row) "active") then
    set_requiredAmountExact 0%Q row
  else
    let payee := payeeNormalized row in
    set_requiredAmountExact
      match latestTotals !! payee with
      | Some latest => latest
      | None =>
          match allTotals !! payee with
          | Some (sum, count) => (sum / inject_Z (Z.of_nat count))%Q
          | None => 0%Q
          end
      end row.

Definition applyBillStatus (rows : list TransactionRow)
  : list TransactionRow :=
  let spendRows := filter (λ r, isSpend r = true) rows in
  if Nat.eqb (length spendRows) 0 then
    map (λ r, set_bill false "not_bill" 0%Q (typicalDay r) r) rows
  else
    let latestMonth := latestOf (map monthKey spendRows) in
    let payeeStats := buildPayeeStats spendRows in
    let rows := map (markCandidate payeeStats) rows in
    let candidateSpend :=
      filter (λ r, isBillCandidate r && isSpend r = true) rows in
    let presentLatest : gset string :=
      list_to_set
        (map payeeNormalized
           (filter (λ r, Some (monthKey r) = latestMonth) candidateSpend)) in
    let seenBefore : gset string :=
      list_to_set
        (map payeeNormalized
           (filter (λ r, Some (monthKey r) ≠ latestMonth) candidateSpend)) in
    let rows := map (assignStatus presentLatest seenBefore) rows in
    let activeSpend :=
      filter (λ r, String.eqb (billStatus r) "active" && isSpend r = true)
             rows in
    let '(latestTotals, allTotals) :=
      foldl (addTotals latestMonth) (∅, ∅) activeSpend in
    map (assignRequired latestTotals allTotals) rows.

(** *** [runPipelineShared] and [runFullPipelineFromContent] *)

Record PipelineOutput := {
  transactions : list TransactionRow;
  rawCount : nat;
  spendCount : nat;
  latestMonth : string;
}.

(** The median of the days of one payee, a list that is never empty
    (an index out of range reads as 0).  [days.sort((a, b) => a - b)]
    sorts integers, of which equal ones cannot be told apart. *)
Definition medianDay (days : list Z) : Z :=
  let days := merge_sort Z.le days in
  let mid := (length days / 2)%nat in
  if Nat.eqb (length days mod 2) 0 then
    Math_round
      (inject_Z (default 0%Z (days !! (mid - 1)%nat)
                 + default 0%Z (days !! mid)) / 2)%Q
  else default 0%Z (days !! mid).

Definition addDay (m : gmap string (list Z)) (row : TransactionRow)
  : gmap string (list Z) :=
  if String.eqb (billStatus row) "active" && isSpend row then
    let payee := payeeNormalized row in
    <[payee := default [] (m !! payee) ++ [day row]]> m
  else m.

Definition runPipelineShared (rules : list Rule)
    (exclusionRules : ExclusionRules) (rows : list TransactionRow)
    (rawCount : nat) (payeeOverrides : gmap string string)
  : Result PipelineOutput :=
  let excluded := applyExclusions exclusionRules rows in
  match categorize rules excluded with
  | Err msg => Err msg
  | Ok categorized =>
      let withOverrides := applyPayeeOverrides categorized payeeOverrides in
      let withBills := applyBillStatus withOverrides in
      let billPayeeDays := foldl addDay ∅ withBills in
      let typicalDayMap : gmap string Z := medianDay <$> billPayeeDays in
      let withBills :=
        map (λ row,
               if String.eqb (billStatus row) "active" then
                 set_typicalDay (typicalDayMap !! payeeNormalized row) row
               else row) withBills in
      let spendCount := length (filter (λ r, isSpend r = true) withBills) in
      let latestMonth := orElse (latestOf (map monthKey withBills)) "" in
      Ok {| transactions := withBills;
            rawCount := rawCount;
            spendCount := spendCount;
            latestMonth := latestMonth |}
  end.

Definition runFullPipelineFromContent (genId : nat → string)
    (rules : list Rule) (exclusionRules : ExclusionRules)
    (csvContents : list CsvFile) (payeeOverrides : gmap string string)
  : Result PipelineOutput :=
  match parseMonzoCsvContents genId csvContents with
  | Err msg => Err msg
  | Ok (rows, rawCount) =>
      runPipelineShared rules exclusionRules rows rawCount payeeOverrides
  end.

End Pipeline.

(** ** [planner.ts] *)

Module Planner.
Import JS Categorizer Pipeline.

Record VariableCategory := {
  vc_category : string;
  vc_avgMonthly : Q;
  vc_avgWeekly : Q;
  vc_txCount : nat;
  vc_thisMonthActual : Q;
  vc_target : Q;
}.

Inductive Timeframe := this_month | last_3 | all.

Record BillSummary := {
  bs_payee : string;
  bs_payeeNormalized : string;
  bs_category : string;
  bs_typicalDay : Z;
  bs_requiredExact : Q;
  bs_avgMonthly : Q;
  bs_minMonthly : Q;
  bs_maxMonthly : Q;
  bs_txCount : nat;
  bs_billStatus : string;
}.

(** [Math.min(...xs)] and [Math.max(...xs)] of amounts, the list not
    empty. *)
Definition minOfQ (xs : list Q) : Q :=
  match xs with [] => 0%Q | x :: rest => foldl Qmin x rest end.
Definition maxOfQ (xs : list Q) : Q :=
  match xs with [] => 0%Q | x :: rest => foldl Qmax x rest end.

(** [payeeGroups]: the rows of each payee, in input order. *)
Definition addPayeeGroup (groups : list (string * list TransactionRow))
    (t : TransactionRow) : list (string * list TransactionRow) :=
  mapSet groups (payeeNormalized t)
    (default [] (mapGet groups (payeeNormalized t)) ++ [t]).

(** [monthlyTotals] of one payee. *)
Definition addMonthlyTotal (totals : list (string * Q)) (t : TransactionRow)
  : list (string * Q) :=
  mapSet totals (monthKey t)
    (orZero (mapGet totals (monthKey t)) + amountAbs t)%Q.

(** [nameCounts] and [catCounts]. *)
Definition addCount (counts : list (string * nat)) (key : string)
  : list (string * nat) :=
  mapSet counts key (default 0%nat (mapGet counts key) + 1)%nat.

(** [[...counts.entries()].sort((a, b) => b[1] - a[1])[0][0]]; the
    counts are of a list that is not empty. *)
Definition mostCommon (keys : list string) : string :=
  let counts := foldl addCount [] keys in
  match sortStable (λ a b, Nat.ltb b.2 a.2) counts with
  | (key, _) :: _ => key
  | [] => ""
  end.

(** The comparator of the final sort, as [compare(a, b) < 0]: by typical
    day, then by amount descending. *)
Definition billBefore (a b : BillSummary) : bool :=
  if negb (Z.eqb (bs_typicalDay a) (bs_typicalDay b)) then
    Z.ltb (bs_typicalDay a) (bs_typicalDay b)
  else Qltb (bs_requiredExact b) (bs_requiredExact a).

Definition billSummaryOf (latestMonth : option string) (payeeNorm : string)
    (txs : list TransactionRow) : BillSummary :=
  let monthlyTotals := foldl addMonthlyTotal [] txs in
  let monthAmounts := map snd monthlyTotals in
  let avg :=
    (foldl Qplus 0 monthAmounts
       / inject_Z (Z.of_nat (length monthAmounts)))%Q in
  let min := minOfQ monthAmounts in
  let max := maxOfQ monthAmounts in
  let latestAmount :=
    match latestMonth ≫= mapGet monthlyTotals with
    | Some total => total
    | None => avg
    end in
  let typicalDay := medianDay (map day txs) in
  let payeeName := mostCommon (map name txs) in
  let category := mostCommon (map categoryFinal txs) in
  {| bs_payee := payeeName;
     bs_payeeNormalized := payeeNorm;
     bs_category := category;
     bs_typicalDay := typicalDay;
     bs_requiredExact := round2 latestAmount;
     bs_avgMonthly := round2 avg;
     bs_minMonthly := round2 min;
     bs_maxMonthly := round2 max;
     bs_txCount := length txs;
     bs_billStatus := "active" |}.

Definition buildBillsSummary (transactions : list TransactionRow)
  : list BillSummary :=
  let spend :=
    filter (λ t, isSpend t && String.eqb (billStatus t) "active" = true)
           transactions in
  if Nat.eqb (length spend) 0 then []
  else
    let allMonths := sortedMonths (map monthKey spend) in
    let latestMonth := last allMonths in
    let payeeGroups := foldl addPayeeGroup [] spend in
    let results :=
      map (λ '(payeeNorm, txs), billSummaryOf latestMonth payeeNorm txs)
          payeeGroups in
    sortStable billBefore results.

(** [catGroups], in insertion order: category, [(totalSpend, txCount)]. *)
Fixpoint addGroup (groups : list (string * (Q * nat))) (cat : string)
    (amt : Q) : list (string * (Q * nat)) :=
  match groups with
  | [] => [(cat, ((0 + amt)%Q, 1%nat))]
  | (k, (total, count)) :: rest =>
      if String.eqb k cat then (k, ((total + amt)%Q, S count)) :: rest
      else (k, (total, count)) :: addGroup rest cat amt
  end.

Definition addThisMonth (totals : gmap string Q) (t : TransactionRow)
  : gmap string Q :=
  <[categoryFinal t := (orZero (totals !! categoryFinal t) + amountAbs t)%Q]>
    totals.

(** [Math.min(...xs)] and [Math.max(...xs)] of a list that is not empty. *)
Definition minOf (xs : list Z) : Z :=
  match xs with [] => 0%Z | x :: rest => foldl Z.min x rest end.
Definition maxOf (xs : list Z) : Z :=
  match xs with [] => 0%Z | x :: rest => foldl Z.max x rest end.

(** The comparator of the final sort, [(a, b) => b.avgMonthly -
    a.avgMonthly], as [compare(a, b) < 0]. *)
Definition avgMonthlyBefore (a b : VariableCategory) : bool :=
  Qltb (vc_avgMonthly b) (vc_avgMonthly a).

Definition buildVariableSummary (transactions : list TransactionRow)
    (timeframe : Timeframe) : list VariableCategory :=
  let base :=
    filter (λ t, isSpend t && negb (String.eqb (billStatus t) "active")
                 && negb (isInternalTransfer t) = true) transactions in
  if Nat.eqb (length base) 0 then []
  else
    let allMonths := sortedMonths (map monthKey base) in
    let latestMonth := last allMonths in
    let base :=
      match timeframe with
      | this_month => filter (λ t, Some (monthKey t) = latestMonth) base
      | last_3 =>
          let keep : gset string :=
            list_to_set (drop (length allMonths - 3) allMonths) in
          filter (λ t, monthKey t ∈ keep) base
      | all => base
      end in
    if Nat.eqb (length base) 0 then []
    else
      let filteredMonths : gset string := list_to_set (map monthKey base) in
      let monthCount := Nat.max 1 (size filteredMonths) in
      let dates := map date base in
      let minDate := minOf dates in
      let maxDate := maxOf dates in
      let daySpan :=
        Qmax 1 (inject_Z (maxDate - minDate) / inject_Z msPerDay + 1)%Q in
      let weekCount := Qmax 1 (daySpan / 7)%Q in
      let catGroups :=
        foldl (λ g t, addGroup g (categoryFinal t) (amountAbs t)) [] base in
      let thisMonthTotals :=
        foldl addThisMonth ∅
              (filter (λ t, Some (monthKey t) = latestMonth) base) in
      let results :=
        map (λ '(category, (totalSpend, txCount)),
               let avgMonthly :=
                 (totalSpend / inject_Z (Z.of_nat monthCount))%Q in
               let avgWeekly := (totalSpend / weekCount)%Q in
               {| vc_category := category;
                  vc_avgMonthly := round2 avgMonthly;
                  vc_avgWeekly := round2 avgWeekly;
                  vc_txCount := txCount;
                  vc_thisMonthActual :=
                    round2 (orZero (thisMonthTotals !! category));
                  vc_target := round2 avgWeekly |})
            catGroups in
      sortStable avgMonthlyBefore results.

End Planner.


(** * Vocabulary of the properties *)

Import JS Categorizer Pipeline Planner.

#[local] Set Warnings "-clear-no-such-hyp".

(** ** Sample data for the concrete instances *)

Definition sampleRow (payee month type : string) (amountAbs : Q)
    (spend billRule : bool) : TransactionRow :=
  {| id := "tx"; name := payee; monzoCategory := "";
     payeeNormalized := payee;
     categoryFinal := "Unmapped - Needs Review"; categoryGroup := "variable";
     isBillRule := billRule; confidenceScore := 0%Q;
     confidenceReason := "none"; ruleIdApplied := "";
     date := 0%Z; monthKey := month; day := 1%Z; type := type;
     amount := (- amountAbs)%Q; amountAbs := amountAbs;
     direction := "outflow"; notes := "";
     accountLabel := "Personal"; sourceFile := "a.csv";
     isSpend := spend; isInternalTransfer := false;
     isBillCandidate := false; billStatus := "not_bill";
     requiredAmountExact := 0%Q; typicalDay := None |}.

(** ** The batch [categorize] returns

    Pass 1 throws on a row that no rule matches and whose provider
    category names a property of [Object.prototype].  The definitions
    below follow the rows through the passes apart from that error. *)

Definition throwsOn (rules : list Rule) (row : TransactionRow) : Prop :=
  matchRule rules (normalizePayee (name row)) = None
  ∧ monzoCategory row ∈ OBJECT_PROTOTYPE_KEYS.

(** The row as the body of pass 1 leaves it: as [categorizeRow] returns
    it or, where that throws, as it stands at the throw. *)
Definition classified (rules : list Rule) (row : TransactionRow)
  : TransactionRow :=
  match categorizeRow rules row with
  | Ok row => row
  | Err _ =>
      set_classification "Unmapped - Needs Review" "variable" false 0%Q
        "none" "" (set_payeeNormalized (normalizePayee (name row)) row)
  end.

(** The batch after pass 1, and after both passes, when pass 1 does not
    throw. *)
Definition pass1Rows (rules : list Rule) (rows : list TransactionRow)
  : list TransactionRow :=
  map (classified rules) rows.

Definition categorized (rules : list Rule) (rows : list TransactionRow)
  : list TransactionRow :=
  pass2 (pass1Rows rules rows).

(** ** Rule matching *)

(** The rule's pattern rejects the key. *)
Definition noMatch (key : string) (r : Rule) : Prop :=
  rule_pattern r key = false.

(** ** Spend eligibility *)

Definition spendInvariant (r : TransactionRow) : Prop :=
  isSpend r = true ↔ (amount r < 0)%Q ∧ isInternalTransfer r = false.

(** The fields the invariant reads. *)
Definition spendFields (r : TransactionRow) : bool * Q * bool :=
  (isSpend r, amount r, isInternalTransfer r).

(** ** Longest common subsequences *)

Definition chars (s : string) : list ascii := list_ascii_of_string s.

(** The length of a longest common subsequence, by the textbook
    recursion on the two lists. *)
Fixpoint lcs (a b : list ascii) {struct a} : nat :=
  match a with
  | [] => 0
  | x :: a' =>
      (fix lcs_row (b : list ascii) : nat :=
         match b with
         | [] => 0
         | y :: b' =>
             if decide (x = y) then S (lcs a' b')
             else Nat.max (lcs a' b) (lcs_row b')
         end) b
  end.

(** [L] is the greatest length of a list that is a subsequence of both. *)
Definition isLcsLength (a b : list ascii) (L : nat) : Prop :=
  (∃ s, s `sublist_of` a ∧ s `sublist_of` b ∧ length s = L)
  ∧ ∀ s, s `sublist_of` a → s `sublist_of` b → length s ≤ L.

(** The cell the table holds at [(i, j)]: the prefixes of lengths [i]
    and [j]. *)
Definition prefixLcs (s l : list ascii) (i j : nat) : nat :=
  lcs (reverse (take i s)) (reverse (take j l)).

(** The table has its [m + 1] rows of [n + 1] cells, and the cells up to
    [(i, j)] in row-major order, row 0 and column 0 hold their values. *)
Definition tableUpTo (s l : list ascii) (i j : nat) (dp : list (list nat))
  : Prop :=
  length dp = S (length s)
  ∧ Forall (λ row, length row = S (length l)) dp
  ∧ ∀ i' j', i' ≤ length s → j' ≤ length l →
      i' < i ∨ (i' = i ∧ j' ≤ j) ∨ i' = 0 ∨ j' = 0 →
      dpGet dp i' j' = prefixLcs s l i' j'.

(** ** Fuzzy resolution *)

(** [k] is a known key of the batch after pass 1: the key of a row whose
    confidence is at least 0.90. *)
Definition knownKey (p1 : list TransactionRow) (k : string) : Prop :=
  ∃ r, r ∈ p1 ∧ payeeNormalized r = k ∧ (0.9 <= confidenceScore r)%Q.

(** The row is one the fuzzy pass rewrites: confidence below 0.70, a key
    that is not empty, and a known key at similarity 0.88 or more (so the
    best score is 0.88 or more). *)
Definition fuzzyEligible (p1 : list TransactionRow) (r : TransactionRow)
  : Prop :=
  (confidenceScore r < 0.7)%Q ∧ payeeNormalized r ≠ ""
  ∧ ∃ k, knownKey p1 k
         ∧ (0.88 <= sequenceMatcherRatio (payeeNormalized r) k)%Q.

(** [k] is a known key whose similarity to [payee] no known key exceeds. *)
Definition bestKnownKey (p1 : list TransactionRow) (payee k : string)
  : Prop :=
  knownKey p1 k
  ∧ ∀ k', knownKey p1 k' →
      (sequenceMatcherRatio payee k' <= sequenceMatcherRatio payee k)%Q.

Definition clamp (x lo hi : Q) : Q :=
  if Qltb x lo then lo else if Qltb hi x then hi else x.

(** What the search holds after the keys [seen]. *)
Definition bestSoFar (payee : string) (seen : list string)
    (best : option string * Q) : Prop :=
  (∀ k, k ∈ seen → (sequenceMatcherRatio payee k <= best.2)%Q)
  ∧ match best.1 with
    | None => best.2 = 0%Q
    | Some k => k ∈ seen ∧ best.2 = sequenceMatcherRatio payee k
                ∧ (0 < best.2)%Q
    end.

(** What [knownMap] holds after the rows [seen]. *)
Definition knownSoFar (seen : list TransactionRow) (m : KnownMap) : Prop :=
  (∀ k v, knownGet m k = Some v →
     k ≠ "" ∧ ∃ r, r ∈ seen ∧ payeeNormalized r = k
                   ∧ (0.9 <= confidenceScore r)%Q
                   ∧ v = {| known_category := categoryFinal r;
                            known_group := categoryGroup r;
                            known_isBill := isBillRule r |})
  ∧ (∀ r, r ∈ seen → (0.9 <= confidenceScore r)%Q →
       payeeNormalized r ≠ "" → is_Some (knownGet m (payeeNormalized r))).

(** ** Bill candidacy and status *)

(** The month keys of the spend rows of a batch. *)
Definition spendMonths (rows : list TransactionRow) : list string :=
  map monthKey (filter (λ r, isSpend r = true) rows).

(** [latest] is the most recent month key among the spend rows: one of
    their keys, and none of their keys sorts after it. *)
Definition isLatestMonth (rows : list TransactionRow) (latest : string)
  : Prop :=
  latest ∈ spendMonths rows ∧ ∀ m, m ∈ spendMonths rows → String.le m latest.

(** The spend rows of a payee. *)
Definition payeeSpend (rows : list TransactionRow) (p : string)
  : list TransactionRow :=
  filter (λ r, isSpend r = true ∧ payeeNormalized r = p) rows.

(** The payee's spend rows span two distinct months or more and are two
    or more. *)
Definition recurringLike (rows : list TransactionRow) (p : string) : Prop :=
  2 ≤ length (remove_dups (map monthKey (payeeSpend rows p)))
  ∧ 2 ≤ length (payeeSpend rows p).

(** The payee has, among [out], a spend row that is a bill candidate and
    whose month key satisfies [P]. *)
Definition candidateSpendIn (out : list TransactionRow) (p : string)
    (P : string → Prop) : Prop :=
  ∃ c, c ∈ out ∧ payeeNormalized c = p ∧ isBillCandidate c = true
       ∧ isSpend c = true ∧ P (monthKey c).

(** [m] is a month key strictly before [latest]. *)
Definition earlierThan (latest m : string) : Prop :=
  m ≠ latest ∧ String.le m latest.

Definition sumQ (l : list Q) : Q := foldr Qplus 0%Q l.

(** The rows of [out] that are active spend rows of the payee in the
    month. *)
Definition activeSpendIn (out : list TransactionRow) (p latest : string)
  : list TransactionRow :=
  filter (λ c, billStatus c = "active" ∧ isSpend c = true
               ∧ payeeNormalized c = p ∧ monthKey c = latest) out.

(** All the spend rows of the payee in the month. *)
Definition spendIn (out : list TransactionRow) (p latest : string)
  : list TransactionRow :=
  filter (λ c, isSpend c = true ∧ payeeNormalized c = p
               ∧ monthKey c = latest) out.

(** What [payeeStats] holds for a payee after the rows [seen]. *)
Definition statsOf (seen : list TransactionRow) (p : string)
  : gset string * nat :=
  (list_to_set (map monthKey (filter (λ r, payeeNormalized r = p) seen)),
   length (filter (λ r, payeeNormalized r = p) seen)).

(** A batch in which one payee has two direct debits and a card payment. *)
Definition gymBatch : list TransactionRow :=
  [ sampleRow "gym" "2024-01" "Direct Debit" 10 true false;
    sampleRow "gym" "2024-02" "Direct Debit" 10 true false;
    sampleRow "gym" "2024-02" "Card payment" 5 true false ].

(** The values [applyBillStatus] computes on a batch that has a spend
    row, by the names the code gives them. *)
Definition payeeStatsOf (rows : list TransactionRow)
  : gmap string (gset string * nat) :=
  buildPayeeStats (filter (λ r, isSpend r = true) rows).

Definition candidateSpendOf (rows : list TransactionRow)
  : list TransactionRow :=
  filter (λ r, isBillCandidate r && isSpend r = true)
         (map (markCandidate (payeeStatsOf rows)) rows).

Definition presentLatestOf (rows : list TransactionRow) : gset string :=
  list_to_set
    (map payeeNormalized
       (filter (λ r, Some (monthKey r) = latestOf (spendMonths rows))
               (candidateSpendOf rows))).

Definition seenBeforeOf (rows : list TransactionRow) : gset string :=
  list_to_set
    (map payeeNormalized
       (filter (λ r, Some (monthKey r) ≠ latestOf (spendMonths rows))
               (candidateSpendOf rows))).

(** A row after the candidate and status loops. *)
Definition statusRow (rows : list TransactionRow) (r : TransactionRow)
  : TransactionRow :=
  assignStatus (presentLatestOf rows) (seenBeforeOf rows)
    (markCandidate (payeeStatsOf rows) r).

Definition activeSpendOf (rows : list TransactionRow)
  : list TransactionRow :=
  filter (λ r, String.eqb (billStatus r) "active" && isSpend r = true)
         (map (statusRow rows) rows).

Definition totalsOf (rows : list TransactionRow)
  : gmap string Q * gmap string (Q * nat) :=
  foldl (addTotals (latestOf (spendMonths rows))) (∅, ∅) (activeSpendOf rows).

(** A row as [applyBillStatus] returns it. *)
Definition billRow (rows : list TransactionRow) (r : TransactionRow)
  : TransactionRow :=
  assignRequired (totalsOf rows).1 (totalsOf rows).2 (statusRow rows r).

(** What [latestTotals] holds after the rows [seen]: for each payee the
    sum over its rows of the month, and no entry when it has none. *)
Definition latestTotalsSoFar (latest : string) (seen : list TransactionRow)
    (latestTotals : gmap string Q) : Prop :=
  ∀ p,
    let mine :=
      filter (λ c, payeeNormalized c = p ∧ monthKey c = latest) seen in
    match latestTotals !! p with
    | Some q => mine ≠ [] ∧ (q == sumQ (map amountAbs mine))%Q
    | None => mine = []
    end.

(** The fields the three loops leave alone. *)
Definition keyFields (r : TransactionRow)
  : string * string * bool * bool * string * Q :=
  (payeeNormalized r, monthKey r, isSpend r, isBillRule r, type r,
   amountAbs r).

(** ** The variable summary *)

(** [catGroups.get(cat)]. *)
Fixpoint groupGet (groups : list (string * (Q * nat))) (cat : string)
  : option (Q * nat) :=
  match groups with
  | [] => None
  | (k, v) :: rest => if String.eqb k cat then Some v else groupGet rest cat
  end.

(** [thisMonthTotals] holds, for every category of [catGroups], a total
    equal to the group's, and nothing else. *)
Definition totalsAgree (groups : list (string * (Q * nat)))
    (totals : gmap string Q) : Prop :=
  ∀ cat,
    match groupGet groups cat with
    | Some (total, _) => ∃ q, totals !! cat = Some q ∧ (q == total)%Q
    | None => totals !! cat = None
    end.

(** ** Input errors *)

(** The date column of the record parses. *)
Definition dated (raw : RawCsvRow) : Prop :=
  is_Some (parseDateDDMMYYYY (orElse (raw_Date raw) "")).

(** The records of a file, none for a file csv-parse rejects. *)
Definition recordsOf (f : CsvFile) : list RawCsvRow :=
  match records f with Ok recs => recs | Err _ => [] end.

(** The records that enter the pipeline: those whose date parses, file
    after file. *)
Fixpoint datedRecords (files : list CsvFile) : list RawCsvRow :=
  match files with
  | [] => []
  | f :: rest => filter dated (recordsOf f) ++ datedRecords rest
  end.

(** The file without the records whose date does not parse. *)
Definition dropUndated (f : CsvFile) : CsvFile :=
  {| records :=
       match records f with
       | Ok recs => Ok (filter dated recs)
       | Err msg => Err msg
       end;
     fileName := fileName f |}.

Definition emptyOutput : PipelineOutput :=
  {| transactions := []; rawCount := 0; spendCount := 0; latestMonth := "" |}.

Definition rawRecord (date amount : string) : RawCsvRow :=
  {| raw_TransactionID := Some "tx_1"; raw_Date := Some date;
     raw_Name := Some "Tesco"; raw_Type := Some "Card payment";
     raw_Amount := Some amount; raw_Category := Some "Groceries";
     raw_Notes := None |}.

(** One file whose two records have no date that parses. *)
Definition undatedFiles : list CsvFile :=
  [ {| records := Ok [rawRecord "2024-01-15" "-5.00"; rawRecord "" "-7.50"];
       fileName := "export.csv" |} ].

(** One file whose record has a date that parses and the provider
    category [constructor]. *)
Definition constructorFiles : list CsvFile :=
  [ {| records :=
         Ok [ {| raw_TransactionID := Some "tx_1";
                 raw_Date := Some "15/01/2024"; raw_Name := Some "Tesco";
                 raw_Type := Some "Card payment";
                 raw_Amount := Some "-5.00";
                 raw_Category := Some "constructor"; raw_Notes := None |} ];
       fileName := "export.csv" |} ].

Definition tescoRule : Rule :=
  {| rule_id := "groceries_tesco";
     rule_pattern := λ s, includes (toLowerCase s) "tesco";
     rule_category := "Groceries"; rule_group := "variable";
     rule_isBill := false; rule_confidence := 0.95%Q |}.

Definition noExclusions : ExclusionRules :=
  {| internal_transfer_types := None;
     internal_transfer_name_patterns := None;
     exclude_zero_amount := None |}.

(** ** A batch for the scenario of the specification

    One rule, [netflix], and three direct debits of 9.99 on the 15th of
    three consecutive months. *)

Definition netflixRule : Rule :=
  {| rule_id := "streaming_netflix";
     rule_pattern := λ s, includes (toLowerCase s) "netflix";
     rule_category := "Streaming"; rule_group := "required_bill";
     rule_isBill := true; rule_confidence := 0.95%Q |}.

Definition netflixRecord (date : string) : RawCsvRow :=
  {| raw_TransactionID := Some ("tx_" +:+ date); raw_Date := Some date;
     raw_Name := Some "NETFLIX.COM"; raw_Type := Some "Direct Debit";
     raw_Amount := Some "-9.99"; raw_Category := Some "Entertainment";
     raw_Notes := None |}.

Definition netflixFiles : list CsvFile :=
  [ {| records :=
         Ok [netflixRecord "15/01/2024"; netflixRecord "15/02/2024";
             netflixRecord "15/03/2024"];
       fileName := "export.csv" |} ].


(** ** Payee keys *)

(** [trimStart] on the characters of a string. *)
Fixpoint ltrim (l : list ascii) : list ascii :=
  match l with
  | [] => []
  | c :: l' => if isWhiteSpace c then ltrim l' else l
  end.

(** No two adjacent characters are both white space. *)
Fixpoint noAdjacentSpace (l : list ascii) : Prop :=
  match l with
  | [] => True
  | a :: t =>
      match t with
      | [] => True
      | b :: _ => ¬ (isWhiteSpace a = true ∧ isWhiteSpace b = true)
      end ∧ noAdjacentSpace t
  end.

(** The head of the list is not white space. *)
Definition startsClean (l : list ascii) : Prop :=
  match l with
  | [] => True
  | c :: _ => isWhiteSpace c = false
  end.

(** A key as [normalizePayee] makes them: characters of [a-z0-9+& ] only,
    no white space at either end, no two of them in a row. *)
Definition keyShape (l : list ascii) : Prop :=
  Forall (λ c, payeeClass c = true) l
  ∧ startsClean l ∧ startsClean (reverse l) ∧ noAdjacentSpace l.


(** ** Classification *)

(** The fields no stage of the pipeline writes. *)
Definition rawFields (r : TransactionRow)
  : string * string * string * Z * string * Z * string * Q * Q * string
    * string * string * string :=
  (id r, name r, monzoCategory r, date r, monthKey r, day r, type r,
   amount r, amountAbs r, direction r, notes r, accountLabel r, sourceFile r).

(** The fields [categorize] and [applyPayeeOverrides] write. *)
Definition classFields (r : TransactionRow)
  : string * string * string * bool * Q * string * string :=
  (payeeNormalized r, categoryFinal r, categoryGroup r, isBillRule r,
   confidenceScore r, confidenceReason r, ruleIdApplied r).

(** The fields [applyBillStatus] and the typical-day loop write. *)
Definition billFields (r : TransactionRow) : bool * string * Q * option Z :=
  (isBillCandidate r, billStatus r, requiredAmountExact r, typicalDay r).

(** A row the rule [netflixRule] matches and one nothing matches. *)
Definition netflixRow : TransactionRow :=
  sampleRow "NETFLIX.COM" "2024-03" "Direct Debit" 9.99 true false.


(** ** The stages of the pipeline *)

(** The rows [applyExclusions] keeps: all of them when
    [exclude_zero_amount] is [false], otherwise those whose amount is not
    zero. *)
Definition keptRows (exclusionRules : ExclusionRules)
    (rows : list TransactionRow) : list TransactionRow :=
  match exclude_zero_amount exclusionRules with
  | Some false => rows
  | _ => filter (λ r, Qeq_bool (amount r) 0 = false) rows
  end.

(** The name of the row contains one of the configured patterns, case
    apart. *)
Definition matchesTransferName (exclusionRules : ExclusionRules)
    (r : TransactionRow) : Prop :=
  ∃ pattern,
    pattern ∈ default [] (internal_transfer_name_patterns exclusionRules)
    ∧ includes (toLowerCase (name r)) (toLowerCase pattern) = true.

(** The type of the row is one of the configured transfer types. *)
Definition hasTransferType (exclusionRules : ExclusionRules)
    (r : TransactionRow) : Prop :=
  type r ∈ default [] (internal_transfer_types exclusionRules).

(** What the parser establishes of a row. *)
Definition parsedRow (r : TransactionRow) : Prop :=
  amountAbs r = Math_abs (amount r)
  ∧ direction r = (if Qltb (amount r) 0 then "outflow" else "inflow")
  ∧ monthKey r = monthKeyOf (date r)
  ∧ day r = getDate (date r)
  ∧ (accountLabel r = "Personal" ∨ accountLabel r = "Joint").


(** The batch as it reaches the typical-day loop of [runPipelineShared]. *)
Definition withBillsOf (rules : list Rule) (exclusionRules : ExclusionRules)
    (rows : list TransactionRow) (overrides : gmap string string)
  : list TransactionRow :=
  applyBillStatus
    (applyPayeeOverrides (categorized rules (applyExclusions exclusionRules rows))
       overrides).

(** The days of the month of the active spend rows of a payee, in the
    order of the batch: what [billPayeeDays] holds for the payee. *)
Definition daysOf (rows : list TransactionRow) (p : string) : list Z :=
  map day
      (filter (λ r, billStatus r = "active" ∧ isSpend r = true
                    ∧ payeeNormalized r = p) rows).

(** What [runPipelineShared] returns when [categorize] does not throw. *)
Definition runOutput (rules : list Rule) (exclusionRules : ExclusionRules)
    (rows : list TransactionRow) (rawCount : nat)
    (payeeOverrides : gmap string string) : PipelineOutput :=
  let withBills := withBillsOf rules exclusionRules rows payeeOverrides in
  let typicalDayMap : gmap string Z :=
    medianDay <$> foldl addDay ∅ withBills in
  let withBills :=
    map (λ row,
           if String.eqb (billStatus row) "active" then
             set_typicalDay (typicalDayMap !! payeeNormalized row) row
           else row) withBills in
  {| transactions := withBills;
     rawCount := rawCount;
     spendCount := length (filter (λ r, isSpend r = true) withBills);
     latestMonth := orElse (latestOf (map monthKey withBills)) "" |}.


(** What [latestTotals] and [allTotals] give for a payee. *)
Definition requiredOf (rows : list TransactionRow) (p : string) : Q :=
  match (totalsOf rows).1 !! p with
  | Some latest => latest
  | None =>
      match (totalsOf rows).2 !! p with
      | Some (sum, count) => (sum / inject_Z (Z.of_nat count))%Q
      | None => 0%Q
      end
  end.

(** ** The bills summary *)

(** The active spend rows of a payee, in the order of the batch: the
    payee's entry of [payeeGroups]. *)
Definition billRowsOf (rows : list TransactionRow) (p : string)
  : list TransactionRow :=
  filter (λ r, billStatus r = "active" ∧ isSpend r = true
               ∧ payeeNormalized r = p) rows.

(** The latest month among the active spend rows. *)
Definition latestBillMonth (rows : list TransactionRow) : option string :=
  last (sortedMonths
          (map monthKey
               (filter (λ t, isSpend t && String.eqb (billStatus t) "active"
                             = true) rows))).

(** [payeeGroups] after the rows [seen]. *)
Definition groupsSoFar (seen : list TransactionRow)
    (groups : list (string * list TransactionRow)) : Prop :=
  NoDup (map fst groups)
  ∧ ∀ p,
      let mine := filter (λ t, payeeNormalized t = p) seen in
      mapGet groups p = if decide (mine = []) then None else Some mine.

(** The order of the summary: by typical day, and within a day by
    required amount, largest first. *)
Definition billOrder (a b : BillSummary) : Prop :=
  (bs_typicalDay a < bs_typicalDay b)%Z
  ∨ (bs_typicalDay a = bs_typicalDay b
     ∧ (bs_requiredExact b <= bs_requiredExact a)%Q).

(** How often a key occurs in a list. *)
Definition occurrences (k : string) (l : list string) : nat :=
  length (filter (λ x, x = k) l).

(** [nameCounts] after the keys [seen]. *)
Definition countsSoFar (seen : list string) (counts : list (string * nat))
  : Prop :=
  NoDup (map fst counts)
  ∧ ∀ k, mapGet counts k =
         if decide (occurrences k seen = 0) then None
         else Some (occurrences k seen).

(** The fields of a row the amounts of the bills summary are computed
    from. *)
Definition billKey (r : TransactionRow) : string * bool * string * string * Q :=
  (billStatus r, isSpend r, payeeNormalized r, monthKey r, amountAbs r).

(** [monthlyTotals] after the rows [seen]: for each month the sum over
    its rows, and no entry when it has none. *)
Definition monthlyTotalsSoFar (seen : list TransactionRow)
    (totals : list (string * Q)) : Prop :=
  ∀ m,
    let mine := filter (λ t, monthKey t = m) seen in
    match mapGet totals m with
    | Some q => mine ≠ [] ∧ (q == sumQ (map amountAbs mine))%Q
    | None => mine = []
    end.

(** ** The groups of the variable summary *)

(** The rows the variable summary is built from: the spend rows that are
    neither of an active bill nor internal transfers, within the
    timeframe. *)
Definition variableRows (transactions : list TransactionRow)
    (timeframe : Timeframe) : list TransactionRow :=
  let base :=
    filter (λ t, isSpend t && negb (String.eqb (billStatus t) "active")
                 && negb (isInternalTransfer t) = true) transactions in
  let allMonths := sortedMonths (map monthKey base) in
  match timeframe with
  | this_month => filter (λ t, Some (monthKey t) = last allMonths) base
  | last_3 =>
      filter (λ t, monthKey t
                   ∈ (list_to_set (drop (length allMonths - 3) allMonths)
                      : gset string)) base
  | all => base
  end.


(** The order of the variable summary: largest monthly average first. *)
Definition avgMonthlyOrder (a b : VariableCategory) : Prop :=
  (vc_avgMonthly b <= vc_avgMonthly a)%Q.

(** ** The calendar *)

Definition isLeapYear (y : Z) : bool :=
  (y mod 4 =? 0)%Z && (negb (y mod 100 =? 0)%Z || (y mod 400 =? 0)%Z).

Definition daysInMonth (y m : Z) : Z :=
  if (m =? 2)%Z then (if isLeapYear y then 29 else 28)%Z
  else if (m =? 4)%Z || (m =? 6)%Z || (m =? 9)%Z || (m =? 11)%Z then 30%Z
  else 31%Z.

(** * Properties *)

(** ** The error of pass 1 *)

Lemma own_keys_not_inherited key :
  (String.eqb key "Groceries" || String.eqb key "Entertainment"
   || String.eqb key "Transport" || String.eqb key "Shopping"
   || String.eqb key "Finances" || String.eqb key "General") = true →
  key ∉ OBJECT_PROTOTYPE_KEYS.
Proof.
  rewrite !orb_true_iff, !String.eqb_eq.
  unfold OBJECT_PROTOTYPE_KEYS.
  intros [[[[[->| ->]| ->]| ->]| ->]| ->] H;
    repeat (apply elem_of_cons in H as [H|H]; [discriminate|]);
    by apply elem_of_nil in H.
Qed.

Lemma FALLBACK_CATEGORY_MAP_Inherited key :
  FALLBACK_CATEGORY_MAP key = Inherited ↔ key ∈ OBJECT_PROTOTYPE_KEYS.
Proof.
  assert (existsb (String.eqb key) OBJECT_PROTOTYPE_KEYS = true
          ↔ key ∈ OBJECT_PROTOTYPE_KEYS) as Hex.
  { rewrite existsb_exists. split.
    - intros (k & Hk & ->%String.eqb_eq). by apply list_elem_of_In.
    - intros Hk. exists key. split; [by apply list_elem_of_In|].
      apply String.eqb_refl. }
  pose proof (own_keys_not_inherited key) as Hown.
  unfold FALLBACK_CATEGORY_MAP.
  repeat (destruct (String.eqb key _);
          [split; [done|]; intros Hk; exfalso; by apply Hown|]).
  simpl in Hown. clear Hown.
  destruct (existsb _ _); [|split; [done|]; intros Hk; by apply Hex in Hk].
  split; [|done]. intros _. by apply Hex.
Qed.

Lemma categorizeRow_cases rules row :
  (throwsOn rules row ∧ categorizeRow rules row = Err NOT_ITERABLE)
  ∨ (¬ throwsOn rules row
     ∧ categorizeRow rules row = Ok (classified rules row)).
Proof.
  unfold throwsOn, classified, categorizeRow. simpl.
  destruct (matchRule rules (normalizePayee (name row))) as [rule|].
  { right. split; [by intros [? _]|done]. }
  rewrite <- FALLBACK_CATEGORY_MAP_Inherited.
  destruct (FALLBACK_CATEGORY_MAP (monzoCategory row)) as [[[[??]?]?]| |].
  - right. split; [by intros [_ ?]|done].
  - by left.
  - right. split; [by intros [_ ?]|done].
Qed.

Lemma pass1_cases rules rows :
  (Exists (throwsOn rules) rows ∧ pass1 rules rows = Err NOT_ITERABLE)
  ∨ (Forall (λ row, ¬ throwsOn rules row) rows
     ∧ pass1 rules rows = Ok (pass1Rows rules rows)).
Proof.
  induction rows as [|row rows IH]; simpl.
  { right. by split. }
  destruct (categorizeRow_cases rules row) as [[Ht ->]|[Hn ->]].
  { left. split; [by left|done]. }
  destruct IH as [[Ht ->]|[Hn' ->]].
  - left. split; [by right|done].
  - right. split; [by constructor|done].
Qed.

(** [categorize] throws exactly when pass 1 throws on a row, and returns
    the batch of both passes otherwise. *)
Lemma categorize_cases rules rows :
  (Exists (throwsOn rules) rows ∧ categorize rules rows = Err NOT_ITERABLE)
  ∨ (Forall (λ row, ¬ throwsOn rules row) rows
     ∧ categorize rules rows = Ok (categorized rules rows)).
Proof.
  unfold categorize, categorized.
  destruct (pass1_cases rules rows) as [[Ht ->]|[Hn ->]]; [by left|by right].
Qed.

Lemma categorize_Ok rules rows out :
  categorize rules rows = Ok out → out = categorized rules rows.
Proof.
  destruct (categorize_cases rules rows) as [[_ ->]|[_ ->]]; [done|].
  by intros [= <-].
Qed.

Lemma runPipelineShared_cases rules cfg rows n overrides :
  (Exists (throwsOn rules) (applyExclusions cfg rows)
   ∧ runPipelineShared rules cfg rows n overrides = Err NOT_ITERABLE)
  ∨ (Forall (λ row, ¬ throwsOn rules row) (applyExclusions cfg rows)
     ∧ runPipelineShared rules cfg rows n overrides
       = Ok (runOutput rules cfg rows n overrides)).
Proof.
  unfold runPipelineShared.
  destruct (categorize_cases rules (applyExclusions cfg rows))
    as [[Ht ->]|[Hn ->]]; [by left|by right].
Qed.

Lemma runPipelineShared_Ok rules cfg rows n overrides out :
  runPipelineShared rules cfg rows n overrides = Ok out →
  out = runOutput rules cfg rows n overrides.
Proof.
  destruct (runPipelineShared_cases rules cfg rows n overrides)
    as [[_ ->]|[_ ->]]; [done|].
  by intros [= <-].
Qed.

(** ** Stable sorting *)

Lemma insertSorted_Permutation {A} (before : A → A → bool) x l :
  insertSorted before x l ≡ₚ x :: l.
Proof.
  induction l as [|y l IH]; simpl; [done|].
  destruct (before y x); [|done].
  rewrite IH. apply Permutation_swap.
Qed.

Lemma sortStable_Permutation {A} (before : A → A → bool) l :
  sortStable before l ≡ₚ l.
Proof.
  induction l as [|x l IH]; simpl; [done|].
  by rewrite insertSorted_Permutation, IH.
Qed.

Lemma insertSorted_Sorted {A} (before : A → A → bool) x l :
  (∀ a b, before a b = true → before b a = false) →
  Sorted (λ a b, before b a = false) l →
  Sorted (λ a b, before b a = false) (insertSorted before x l).
Proof.
  intros Hasym. induction 1 as [|y l Hl IH Hhd]; simpl.
  - repeat constructor.
  - destruct (before y x) eqn:E.
    + constructor; [done|].
      destruct Hhd as [|z l Hz]; simpl.
      * constructor. by apply Hasym.
      * destruct (before z x); constructor; [done|by apply Hasym].
    + constructor; [by constructor|]. by constructor.
Qed.

Lemma sortStable_Sorted {A} (before : A → A → bool) l :
  (∀ a b, before a b = true → before b a = false) →
  Sorted (λ a b, before b a = false) (sortStable before l).
Proof.
  intros Hasym. induction l as [|x l IH]; simpl; [constructor|].
  by apply insertSorted_Sorted.
Qed.

(** ** Rule matching *)

Lemma matchRule_Some rules key rule :
  matchRule rules key = Some rule ↔
  ∃ before after,
    rules = before ++ rule :: after ∧ Forall (noMatch key) before
    ∧ rule_pattern rule key = true.
Proof.
  induction rules as [|r rest IH]; simpl.
  - split; [discriminate|]. intros (before & after & E & _).
    by destruct before.
  - destruct (rule_pattern r key) eqn:Hr.
    + split.
      * intros [= <-]. exists [], rest. by repeat split.
      * intros (before & after & E & Hb & Hm).
        destruct before as [|b before]; simpl in E.
        -- by injection E as -> _.
        -- injection E as -> _. apply Forall_cons in Hb as [Hb _].
           unfold noMatch in Hb. congruence.
    + rewrite IH. split.
      * intros (before & after & -> & Hb & Hm).
        exists (r :: before), after. repeat split; [|done].
        by apply Forall_cons.
      * intros (before & after & E & Hb & Hm).
        destruct before as [|b before]; simpl in E.
        -- injection E as -> _. congruence.
        -- injection E as -> ->. apply Forall_cons in Hb as [_ Hb]. eauto.
Qed.

Lemma matchRule_None rules key :
  matchRule rules key = None ↔ Forall (noMatch key) rules.
Proof.
  induction rules as [|r rest IH]; simpl.
  - split; [constructor|done].
  - unfold noMatch at 1. rewrite Forall_cons.
    destruct (rule_pattern r key); [|rewrite IH]; naive_solver.
Qed.

(** C8.  [matchRule] returns the first rule, in the order supplied, whose
    pattern accepts the key: the rule it returns is preceded only by rules
    that reject the key, and it returns none exactly when every rule
    rejects the key.  So of two rules that both accept the key the earlier
    one is returned. *)
Theorem matchRule_first_match (rules : list Rule) (key : string) :
  match matchRule rules key with
  | Some rule =>
      rule_pattern rule key = true ∧
      ∃ before after,
        rules = before ++ rule :: after ∧ Forall (noMatch key) before
  | None => Forall (noMatch key) rules
  end
  ∧ (∀ before r1 between r2 after,
       rules = before ++ r1 :: between ++ r2 :: after →
       rule_pattern r1 key = true → rule_pattern r2 key = true →
       ∃ rule, matchRule rules key = Some rule ∧ rule ∈ before ++ [r1]).
Proof.
  split.
  - destruct (matchRule rules key) as [rule|] eqn:E.
    + apply matchRule_Some in E as (before & after & -> & Hb & Hm). eauto.
    + by apply matchRule_None.
  - intros before r1 between r2 after -> H1 H2.
    induction before as [|b before IH]; simpl.
    + rewrite H1. exists r1. split; [done|]. set_solver.
    + destruct (rule_pattern b key).
      * exists b. split; [done|]. set_solver.
      * destruct IH as (rule & -> & Hin). exists rule. split; [done|].
        set_solver.
Qed.

(** ** Payee overrides *)

Lemma map_lookup_Some {A B} (f : A → B) (l : list A) i x :
  l !! i = Some x → map f l !! i = Some (f x).
Proof.
  change (map f l) with (f <$> l). rewrite list_lookup_fmap.
  by intros ->.
Qed.

Lemma truthy_true s : truthy s = true ↔ s ≠ "".
Proof. by destruct s. Qed.

(** C6, as the code has it.  A row whose key maps to a category that is
    not the empty string gets that category, confidence 1, reason
    [user_override] and rule id [payee_override], whatever it held before,
    and keeps its other fields; a row whose key is absent from the map, or
    maps to the empty string, is left as it is. *)
Theorem applyPayeeOverrides_spec (rows : list TransactionRow)
    (overrides : gmap string string) :
  length (applyPayeeOverrides rows overrides) = length rows ∧
  ∀ i row, rows !! i = Some row →
    ∃ row', applyPayeeOverrides rows overrides !! i = Some row' ∧
      match overrides !! payeeNormalized row with
      | Some cat =>
          if decide (cat = "") then row' = row
          else categoryFinal row' = cat ∧ confidenceScore row' = 1%Q
               ∧ confidenceReason row' = "user_override"
               ∧ ruleIdApplied row' = "payee_override"
               ∧ row' = set_override cat row
      | None => row' = row
      end.
Proof.
  unfold applyPayeeOverrides. split; [apply length_map|].
  intros i row Hi. eexists. split; [by apply map_lookup_Some|].
  destruct (overrides !! payeeNormalized row) as [cat|]; [|done].
  destruct (decide (cat = "")) as [->|Hne]; [done|].
  apply truthy_true in Hne. by rewrite Hne.
Qed.

(** C6, counterexample to the claim as worded: the key [tesco] is in the
    override map, with the empty string as its category, and the row is
    not overwritten. *)
Lemma applyPayeeOverrides_empty_category_kept :
  let row := sampleRow "tesco" "2024-01" "Card payment" 5 true false in
  let overrides : gmap string string := {[ "tesco" := "" ]} in
  overrides !! payeeNormalized row = Some ""
  ∧ applyPayeeOverrides [row] overrides = [row]
  ∧ confidenceReason row ≠ "user_override"
  ∧ ¬ (confidenceScore row == 1)%Q.
Proof. by vm_compute. Qed.

(** ** The spend-eligibility invariant *)

Lemma spendInvariant_fields r r' :
  spendFields r' = spendFields r → spendInvariant r → spendInvariant r'.
Proof. unfold spendFields, spendInvariant. by intros [= -> -> ->]. Qed.

Lemma Forall_map_fields (f : TransactionRow → TransactionRow) rows :
  (∀ r, spendFields (f r) = spendFields r) →
  Forall spendInvariant rows → Forall spendInvariant (map f rows).
Proof.
  intros Hf H. rewrite Forall_map. eapply Forall_impl; [exact H|].
  intros r. apply spendInvariant_fields, Hf.
Qed.

Lemma Qltb_lt x y : Qltb x y = true ↔ (x < y)%Q.
Proof.
  unfold Qltb. rewrite negb_true_iff, <- not_true_iff_false, Qle_bool_iff.
  split; [apply Qnot_le_lt | apply Qlt_not_le].
Qed.

Lemma excludeRow_invariant types patterns row :
  spendInvariant (excludeRow types patterns row).
Proof.
  unfold spendInvariant, excludeRow; simpl.
  rewrite andb_true_iff, Qltb_lt, negb_true_iff. done.
Qed.

Lemma applyExclusions_invariant cfg rows :
  Forall spendInvariant (applyExclusions cfg rows).
Proof.
  unfold applyExclusions. rewrite Forall_map. apply Forall_forall.
  intros r _. apply excludeRow_invariant.
Qed.

Lemma categorizeRow_fields rules r :
  spendFields (classified rules r) = spendFields r.
Proof.
  unfold classified, categorizeRow. simpl.
  destruct (matchRule _ _); [done|].
  by destruct (FALLBACK_CATEGORY_MAP _) as [[[[??]?]?]| |].
Qed.

Lemma fuzzyRow_fields known r : spendFields (fuzzyRow known r) = spendFields r.
Proof.
  unfold fuzzyRow. destruct (_ || _); [done|].
  destruct (bestMatch _ _) as [[key|] score]; [|done].
  destruct (_ && _); [|done]. by destruct (knownGet _ _).
Qed.

Lemma categorize_invariant rules rows :
  Forall spendInvariant rows → Forall spendInvariant (categorized rules rows).
Proof.
  intros H. unfold categorized, pass2, pass1Rows.
  assert (Forall spendInvariant (map (classified rules) rows)) as H1
    by (apply Forall_map_fields; [apply categorizeRow_fields|done]).
  destruct (Nat.ltb _ _); [|done].
  apply Forall_map_fields; [apply fuzzyRow_fields|done].
Qed.

Lemma applyPayeeOverrides_invariant rows overrides :
  Forall spendInvariant rows →
  Forall spendInvariant (applyPayeeOverrides rows overrides).
Proof.
  apply Forall_map_fields. intros r.
  destruct (overrides !! _) as [cat|]; [|done]. by destruct (truthy cat).
Qed.

Lemma applyBillStatus_invariant rows :
  Forall spendInvariant rows → Forall spendInvariant (applyBillStatus rows).
Proof.
  intros H. unfold applyBillStatus.
  destruct (Nat.eqb _ _); [by apply Forall_map_fields|].
  destruct (foldl _ _ _) as [latestTotals allTotals].
  apply Forall_map_fields.
  { intros r. unfold assignRequired. by destruct (negb _). }
  apply Forall_map_fields.
  { intros r. unfold assignStatus. by destruct (negb _). }
  apply Forall_map_fields; [|done].
  intros r. unfold markCandidate. by destruct (default _ _).
Qed.

(** C7.  After [applyExclusions] every row is spend-eligible exactly when
    its amount is negative and it is not an internal transfer, and the
    same holds of the batch after [categorize], after
    [applyPayeeOverrides], after [applyBillStatus] and in the output of
    the pipeline.  When [categorize] throws, the pipeline throws the same
    error and there is no later batch. *)
Theorem spend_invariant_through_pipeline (exclusionRules : ExclusionRules)
    (rules : list Rule) (overrides : gmap string string)
    (rows : list TransactionRow) (rawCount : nat) :
  let excluded := applyExclusions exclusionRules rows in
  Forall spendInvariant excluded
  ∧ match categorize rules excluded with
    | Ok batch =>
        let withOverrides := applyPayeeOverrides batch overrides in
        let withBills := applyBillStatus withOverrides in
        Forall spendInvariant batch
        ∧ Forall spendInvariant withOverrides
        ∧ Forall spendInvariant withBills
        ∧ ∃ out,
            runPipelineShared rules exclusionRules rows rawCount overrides
            = Ok out
            ∧ Forall spendInvariant (transactions out)
    | Err msg =>
        runPipelineShared rules exclusionRules rows rawCount overrides
        = Err msg
    end.
Proof.
  intros excluded.
  assert (Forall spendInvariant excluded) as H1
    by apply applyExclusions_invariant.
  split; [done|]. unfold runPipelineShared. fold excluded.
  destruct (categorize_cases rules excluded) as [[_ ->]|[_ ->]]; [done|].
  cbv zeta.
  assert (Forall spendInvariant (categorized rules excluded)) as H2
    by by apply categorize_invariant.
  assert (Forall spendInvariant
            (applyPayeeOverrides (categorized rules excluded) overrides))
    as H3 by by apply applyPayeeOverrides_invariant.
  assert (Forall spendInvariant
            (applyBillStatus
               (applyPayeeOverrides (categorized rules excluded) overrides)))
    as H4 by by apply applyBillStatus_invariant.
  repeat split; try done.
  eexists. split; [done|]. cbn [transactions].
  apply Forall_map_fields; [|done].
  intros r. by destruct (String.eqb _ _).
Qed.

(** ** The similarity ratio *)

Lemma lcs_nil_r a : lcs a [] = 0.
Proof. by destruct a. Qed.

Lemma lcs_cons_cons x y a b :
  lcs (x :: a) (y :: b) =
  if decide (x = y) then S (lcs a b)
  else Nat.max (lcs a (y :: b)) (lcs (x :: a) b).
Proof. reflexivity. Qed.

Lemma lcs_exists a b :
  ∃ s, s `sublist_of` a ∧ s `sublist_of` b ∧ length s = lcs a b.
Proof.
  revert b. induction a as [|x a IHa]; intros b.
  { exists []. repeat split; apply sublist_nil_l. }
  induction b as [|y b IHb].
  { exists []. repeat split; apply sublist_nil_l. }
  rewrite lcs_cons_cons. destruct (decide (x = y)) as [<-|Hxy].
  - destruct (IHa b) as (s & Ha & Hb & Hlen).
    exists (x :: s). repeat split; [by constructor..|]. simpl. by rewrite Hlen.
  - destruct (Nat.max_spec (lcs a (y :: b)) (lcs (x :: a) b))
      as [[_ ->]|[_ ->]].
    + destruct IHb as (s & Ha & Hb & Hlen).
      exists s. repeat split; [done| by constructor | done].
    + destruct (IHa (y :: b)) as (s & Ha & Hb & Hlen).
      exists s. repeat split; [by constructor | done | done].
Qed.

Lemma lcs_upper a b s :
  s `sublist_of` a → s `sublist_of` b → length s ≤ lcs a b.
Proof.
  revert b s. induction a as [|x a IHa]; intros b s Ha Hb.
  { apply sublist_nil_r in Ha as ->. simpl. lia. }
  revert s Ha Hb. induction b as [|y b IHb]; intros s Ha Hb.
  { apply sublist_nil_r in Hb as ->. simpl. lia. }
  rewrite lcs_cons_cons.
  destruct s as [|z s]; [simpl; lia|].
  apply sublist_cons_r in Ha as [Ha|(s' & [= Hzx <-] & Ha)];
    apply sublist_cons_r in Hb as [Hb|(s'' & [= Hzy <-] & Hb)].
  - (* the head of neither list is used *)
    assert (length (z :: s) ≤ lcs a (y :: b))
      by (apply IHa; [done|by constructor]).
    destruct (decide (x = y)); [|lia].
    assert (length s ≤ lcs a b); [|simpl; lia].
    apply IHa; (etrans; [|eassumption]); by constructor.
  - (* only the head of the second list is used *)
    subst y.
    assert (length (z :: s) ≤ lcs a (z :: b))
      by (apply IHa; [done|by constructor]).
    destruct (decide (x = z)); [|lia].
    assert (length s ≤ lcs a b); [|simpl; lia].
    apply IHa; [|done]. etrans; [|exact Ha]. by constructor.
  - (* only the head of the first list is used *)
    subst x.
    assert (length (z :: s) ≤ lcs (z :: a) b)
      by (apply IHb; [by constructor|done]).
    destruct (decide (z = y)); [|lia].
    assert (length s ≤ lcs a b); [|simpl; lia].
    apply IHa; [done|]. etrans; [|exact Hb]. by constructor.
  - subst x y. rewrite decide_True by done.
    assert (length s ≤ lcs a b) by by apply IHa. simpl. lia.
Qed.

Lemma lcs_isLcsLength a b : isLcsLength a b (lcs a b).
Proof. split; [apply lcs_exists | apply lcs_upper]. Qed.

Lemma isLcsLength_unique a b L1 L2 :
  isLcsLength a b L1 → isLcsLength a b L2 → L1 = L2.
Proof.
  intros [(s1 & ? & ? & <-) U1] [(s2 & ? & ? & <-) U2].
  apply Nat.le_antisymm; auto.
Qed.

Lemma isLcsLength_sym a b L : isLcsLength a b L → isLcsLength b a L.
Proof. intros [(s & ? & ? & ?) U]. split; [by exists s|auto]. Qed.

Lemma sublist_reverse (s a : list ascii) :
  s `sublist_of` a → reverse s `sublist_of` reverse a.
Proof.
  induction 1 as [|x s a _ IH|x s a _ IH].
  - done.
  - rewrite !reverse_cons. by apply sublist_app.
  - rewrite reverse_cons. by apply sublist_inserts_r.
Qed.

Lemma isLcsLength_reverse a b L :
  isLcsLength (reverse a) (reverse b) L → isLcsLength a b L.
Proof.
  intros [(s & Ha & Hb & Hlen) U]. split.
  - exists (reverse s). rewrite length_reverse.
    apply sublist_reverse in Ha, Hb. by rewrite reverse_involutive in Ha, Hb.
  - intros t Ha' Hb'. rewrite <- (length_reverse t).
    apply U; by apply sublist_reverse.
Qed.

Lemma charAt_chars s i : charAt s i = chars s !! i.
Proof.
  unfold charAt, chars. revert i.
  induction s as [|c s IH]; intros [|i]; simpl; auto.
Qed.

Lemma length_chars s : String.length s = length (chars s).
Proof. unfold chars. induction s; simpl; auto. Qed.

Lemma chars_inj a b : chars a = chars b → a = b.
Proof.
  unfold chars. intros H.
  by rewrite <- (string_of_list_ascii_of_string a), H,
    string_of_list_ascii_of_string.
Qed.

Lemma prefixLcs_0_l s l j : prefixLcs s l 0 j = 0.
Proof. done. Qed.

Lemma prefixLcs_0_r s l i : prefixLcs s l i 0 = 0.
Proof. unfold prefixLcs. rewrite take_0. apply lcs_nil_r. Qed.

Lemma prefixLcs_step s l i j x y :
  s !! i = Some x → l !! j = Some y →
  prefixLcs s l (S i) (S j) =
  if decide (x = y) then S (prefixLcs s l i j)
  else Nat.max (prefixLcs s l i (S j)) (prefixLcs s l (S i) j).
Proof.
  intros Hx Hy. unfold prefixLcs.
  rewrite (take_S_r _ _ _ Hx), (take_S_r _ _ _ Hy), !reverse_snoc.
  apply lcs_cons_cons.
Qed.

Lemma prefixLcs_full s l :
  prefixLcs s l (length s) (length l) = lcs (reverse s) (reverse l).
Proof. unfold prefixLcs. by rewrite !firstn_all. Qed.

Lemma dpGet_dpSet dp i j v row i' j' :
  dp !! i = Some row → j < length row →
  dpGet (dpSet dp i j v) i' j' =
  if decide (i' = i ∧ j' = j) then v else dpGet dp i' j'.
Proof.
  intros Hrow Hj. unfold dpSet, dpGet. rewrite Hrow.
  assert (i < length dp) by by eapply lookup_lt_Some.
  destruct (decide (i' = i)) as [->|Hi].
  - rewrite list_lookup_insert_eq, Hrow by done.
    destruct (decide (j' = j)) as [->|Hj'].
    + rewrite decide_True by done. by rewrite list_lookup_insert_eq.
    + rewrite decide_False by naive_solver.
      by rewrite list_lookup_insert_ne.
  - rewrite decide_False by naive_solver.
    by rewrite list_lookup_insert_ne.
Qed.

Lemma dpSet_shape dp i j v (n : nat) :
  Forall (λ row, length row = n) dp →
  length (dpSet dp i j v) = length dp
  ∧ Forall (λ row : list nat, length row = n) (dpSet dp i j v).
Proof.
  intros Hrows. unfold dpSet. destruct (dp !! i) as [row|] eqn:Hrow; [|done].
  split; [apply length_insert|].
  apply Forall_insert; [done|]. rewrite length_insert.
  by eapply (Forall_lookup_1 _ _ _ _ Hrows).
Qed.

(** A loop [for (k = start + 1; k <= start + n; k++)] keeps an invariant
    indexed by the last value of [k] it has run. *)
Lemma foldl_seq_invariant {A} (I : nat → A → Prop) (f : A → nat → A)
    n start a :
  I start a →
  (∀ k a, start ≤ k < start + n → I k a → I (S k) (f a (S k))) →
  I (start + n) (foldl f a (seq (S start) n)).
Proof.
  revert start a. induction n as [|n IH]; intros start a H0 Hstep; simpl.
  { by rewrite Nat.add_0_r. }
  rewrite <- Nat.add_succ_comm. apply IH.
  - apply Hstep; [lia|done].
  - intros k a' Hk. apply Hstep. lia.
Qed.

Section table.
Variables shorter longer : string.
Let s := chars shorter.
Let l := chars longer.

Lemma lcsCell_step i k dp :
  i < length s → k < length l →
  tableUpTo s l (S i) k dp →
  tableUpTo s l (S i) (S k) (lcsCell shorter longer (S i) dp (S k)).
Proof.
  intros Hi Hk (Hlen & Hrows & Hcells).
  destruct (lookup_lt_is_Some_2 s i Hi) as [x Hx].
  destruct (lookup_lt_is_Some_2 l k Hk) as [y Hy].
  destruct (lookup_lt_is_Some_2 dp (S i)) as [row Hrow]; [lia|].
  assert (length row = S (length l)) as Hrowlen
    by by eapply (Forall_lookup_1 _ _ _ _ Hrows).
  assert (∀ v, v = prefixLcs s l (S i) (S k) →
               tableUpTo s l (S i) (S k) (dpSet dp (S i) (S k) v)) as Hset.
  { intros v ->. destruct (dpSet_shape dp (S i) (S k)
      (prefixLcs s l (S i) (S k)) _ Hrows) as [Hl' Hr'].
    split; [congruence|]. split; [done|].
    intros i' j' Hi' Hj' Hreg.
    rewrite (dpGet_dpSet _ _ _ _ row) by (done || lia).
    destruct (decide (i' = S i ∧ j' = S k)) as [[-> ->]|Hne]; [done|].
    apply Hcells; [done..|]. lia. }
  unfold lcsCell. simpl. rewrite !Nat.sub_0_r, !charAt_chars.
  fold s l. rewrite Hx, Hy.
  rewrite !Hcells by lia.
  rewrite (prefixLcs_step _ _ _ _ _ _ Hx Hy) in Hset.
  destruct (decide (Some x = Some y)) as [[= ->]|Hne].
  - apply Hset. rewrite decide_True by done. lia.
  - apply Hset. rewrite decide_False by congruence. done.
Qed.

Lemma lcsRow_step i dp :
  i < length s →
  tableUpTo s l i (length l) dp →
  tableUpTo s l (S i) (length l)
    (foldl (lcsCell shorter longer (S i)) dp (seq 1 (length l))).
Proof.
  intros Hi Hdp.
  apply (foldl_seq_invariant (tableUpTo s l (S i))
           (lcsCell shorter longer (S i)) (length l) 0).
  - destruct Hdp as (Hlen & Hrows & Hcells). repeat split; [done..|].
    intros i' j' Hi' Hj' Hreg. apply Hcells; [done..|]. lia.
  - intros k dp' Hk. apply lcsCell_step; [done|lia].
Qed.

Lemma lcsTable_correct :
  dpGet (lcsTable shorter longer) (String.length shorter)
    (String.length longer) = lcs (reverse s) (reverse l).
Proof.
  rewrite <- prefixLcs_full. unfold lcsTable.
  rewrite !length_chars. fold s l.
  assert (tableUpTo s l (length s) (length l)
            (foldl (λ dp i, foldl (lcsCell shorter longer i) dp
                              (seq 1 (length l)))
               (replicate (length s + 1) (replicate (length l + 1) 0))
               (seq 1 (length s)))) as (_ & _ & Hcells).
  { apply (foldl_seq_invariant (λ i, tableUpTo s l i (length l))
             (λ dp i, foldl (lcsCell shorter longer i) dp
                        (seq 1 (length l))) (length s) 0).
    - split; [rewrite length_replicate; lia|]. split.
      + apply Forall_replicate. rewrite length_replicate. lia.
      + intros i' j' Hi' Hj' Hreg. unfold dpGet.
        rewrite lookup_replicate_2 by lia.
        rewrite lookup_replicate_2 by lia. simpl.
        destruct Hreg as [?|[[-> _]|[-> | ->]]]; [lia|done|done|].
        by rewrite prefixLcs_0_r.
    - intros i dp Hi. apply lcsRow_step. lia. }
  apply Hcells; lia.
Qed.

Lemma lcsTable_isLcsLength :
  isLcsLength (chars shorter) (chars longer)
    (dpGet (lcsTable shorter longer) (String.length shorter)
       (String.length longer)).
Proof.
  rewrite lcsTable_correct. apply isLcsLength_reverse, lcs_isLcsLength.
Qed.
End table.

Lemma eqb_false_ne (a b : string) : a ≠ b → String.eqb a b = false.
Proof. by intros ?%String.eqb_neq. Qed.

Lemma length_pos_nonempty (a : string) : a ≠ "" → String.length a ≠ 0.
Proof. by destruct a. Qed.

(** Away from its two early returns the function is the ratio of the
    specification, on the nose. *)
Lemma sequenceMatcherRatio_general a b :
  a ≠ b → a ≠ "" → b ≠ "" →
  sequenceMatcherRatio a b =
  (2 * inject_Z (Z.of_nat (lcs (chars a) (chars b)))
     / inject_Z (Z.of_nat (String.length a + String.length b)))%Q.
Proof.
  intros Hab Ha Hb. unfold sequenceMatcherRatio.
  rewrite eqb_false_ne by done.
  apply truthy_true in Ha as Ha', Hb as Hb'. rewrite Ha', Hb'. simpl.
  destruct (Nat.ltb (String.length b) (String.length a)).
  - apply length_pos_nonempty, Nat.eqb_neq in Ha. rewrite Ha.
    rewrite (Nat.add_comm (String.length b)).
    by rewrite (isLcsLength_unique _ _ _ _
                  (isLcsLength_sym _ _ _ (lcsTable_isLcsLength b a))
                  (lcs_isLcsLength (chars a) (chars b))).
  - apply length_pos_nonempty, Nat.eqb_neq in Hb. rewrite Hb.
    by rewrite (isLcsLength_unique _ _ _ _ (lcsTable_isLcsLength a b)
                  (lcs_isLcsLength (chars a) (chars b))).
Qed.

Lemma sequenceMatcherRatio_one_empty a b :
  a ≠ b → a = "" ∨ b = "" → sequenceMatcherRatio a b = 0%Q.
Proof.
  intros Hab Hempty. unfold sequenceMatcherRatio.
  rewrite eqb_false_ne by done.
  by destruct Hempty as [-> | ->]; [|rewrite orb_true_r].
Qed.

Lemma ratio_of_self (n : nat) :
  n ≠ 0 →
  (1 == 2 * inject_Z (Z.of_nat n) / inject_Z (Z.of_nat (n + n)))%Q.
Proof.
  intros Hn. rewrite Nat2Z.inj_add, inject_Z_plus.
  field. rewrite <- inject_Z_plus. unfold Qeq; simpl. lia.
Qed.

(** C9, as the code has it.  Identical strings score 1 (two empty strings
    included); two different strings of which one is empty score 0; unless
    both strings are empty the score is [2 * L / (len a + len b)] for the
    length [L] of a longest common subsequence; and the score does not
    depend on the order of the two strings. *)
Theorem sequenceMatcherRatio_spec (a b : string) :
  (a = b → sequenceMatcherRatio a b = 1%Q)
  ∧ (a ≠ b → a = "" ∨ b = "" → sequenceMatcherRatio a b = 0%Q)
  ∧ (a ≠ "" ∨ b ≠ "" →
     ∀ L, isLcsLength (chars a) (chars b) L →
       (sequenceMatcherRatio a b ==
        2 * inject_Z (Z.of_nat L)
          / inject_Z (Z.of_nat (String.length a + String.length b)))%Q)
  ∧ sequenceMatcherRatio a b = sequenceMatcherRatio b a.
Proof.
  split; [|split; [|split]].
  - intros ->. unfold sequenceMatcherRatio. by rewrite String.eqb_refl.
  - apply sequenceMatcherRatio_one_empty.
  - intros Hne L HL. destruct (decide (a = b)) as [<-|Hab].
    + assert (a ≠ "") as Ha by by destruct Hne.
      unfold sequenceMatcherRatio. rewrite String.eqb_refl.
      assert (L = String.length a) as ->.
      { destruct HL as [(s & Hs & _ & <-) U]. apply Nat.le_antisymm.
        - rewrite length_chars. by apply sublist_length.
        - rewrite length_chars. by apply U. }
      by apply ratio_of_self, length_pos_nonempty.
    + destruct (decide (a = "")) as [Ha|Ha];
        [|destruct (decide (b = "")) as [Hb|Hb]].
      * rewrite sequenceMatcherRatio_one_empty by auto.
        assert (L = 0) as ->.
        { destruct HL as [(s & Hs & _ & <-) _]. subst a.
          by apply sublist_nil_r in Hs as ->. }
        unfold Qdiv. by rewrite Qmult_0_r, Qmult_0_l.
      * rewrite sequenceMatcherRatio_one_empty by auto.
        assert (L = 0) as ->.
        { destruct HL as [(s & _ & Hs & <-) _]. subst b.
          by apply sublist_nil_r in Hs as ->. }
        unfold Qdiv. by rewrite Qmult_0_r, Qmult_0_l.
      * rewrite sequenceMatcherRatio_general by done.
        by rewrite (isLcsLength_unique _ _ _ _ HL
                      (lcs_isLcsLength (chars a) (chars b))).
  - destruct (decide (a = b)) as [<-|Hab]; [done|].
    destruct (decide (a = "")) as [Ha|Ha];
      [|destruct (decide (b = "")) as [Hb|Hb]].
    + by rewrite !sequenceMatcherRatio_one_empty by auto.
    + by rewrite !sequenceMatcherRatio_one_empty by auto.
    + rewrite !sequenceMatcherRatio_general by done.
      rewrite (Nat.add_comm (String.length b)).
      by rewrite (isLcsLength_unique _ _ _ _
                    (isLcsLength_sym _ _ _ (lcs_isLcsLength (chars b) (chars a)))
                    (lcs_isLcsLength (chars a) (chars b))).
Qed.

(** C9, counterexample to the claim as worded: for two empty strings
    "either string is empty" holds and the longest common subsequence has
    length 0, yet the score is 1, neither 0 nor [2 * 0 / (0 + 0)]. *)
Lemma sequenceMatcherRatio_both_empty :
  sequenceMatcherRatio "" "" = 1%Q
  ∧ isLcsLength (chars "") (chars "") 0
  ∧ ¬ (sequenceMatcherRatio "" "" == 0)%Q
  ∧ ¬ (sequenceMatcherRatio "" "" ==
       2 * inject_Z (Z.of_nat 0)
         / inject_Z (Z.of_nat (String.length "" + String.length "")))%Q.
Proof.
  split; [done|]. split; [apply (lcs_isLcsLength [] [])|].
  by vm_compute.
Qed.

(** ** Fuzzy resolution *)

Lemma knownGet_app m k v key :
  knownGet (m ++ [(k, v)]) key =
  match knownGet m key with
  | Some x => Some x
  | None => if String.eqb k key then Some v else None
  end.
Proof.
  induction m as [|[k' v'] m IH]; simpl; [done|].
  by destruct (String.eqb k' key).
Qed.

Lemma knownGet_keys m key :
  key ∈ knownKeys m ↔ is_Some (knownGet m key).
Proof.
  unfold knownKeys. induction m as [|[k v] m IH]; simpl.
  - split; [by intros ?%elem_of_nil | by intros [? ?]].
  - rewrite elem_of_cons, IH.
    destruct (String.eqb k key) eqn:E.
    + apply String.eqb_eq in E as ->. naive_solver.
    + apply String.eqb_neq in E. naive_solver.
Qed.

Lemma addKnown_soFar seen m row :
  knownSoFar seen m → knownSoFar (seen ++ [row]) (addKnown m row).
Proof.
  intros [Hget Hhas]. unfold addKnown.
  destruct (Qle_bool 0.9 (confidenceScore row)) eqn:Hconf; simpl.
  2:{ split.
      - intros k v Hk. destruct (Hget k v Hk) as (? & r & ? & ?).
        split; [done|]. exists r. set_solver.
      - intros r [Hr|Hr%list_elem_of_singleton]%elem_of_app Hc Hne; [eauto|].
        subst r. apply Qle_bool_iff in Hc. congruence. }
  apply Qle_bool_iff in Hconf.
  destruct (truthy (payeeNormalized row)) eqn:Hkey; simpl.
  2:{ split.
      - intros k v Hk. destruct (Hget k v Hk) as (? & r & ? & ?).
        split; [done|]. exists r. set_solver.
      - intros r [Hr|Hr%list_elem_of_singleton]%elem_of_app Hc Hne; [eauto|].
        subst r. apply truthy_true in Hne. congruence. }
  apply truthy_true in Hkey. unfold knownHas.
  destruct (knownGet m (payeeNormalized row)) as [v0|] eqn:Hold.
  - split.
    + intros k v Hk. destruct (Hget k v Hk) as (? & r & ? & ?).
      split; [done|]. exists r. set_solver.
    + intros r [Hr|Hr%list_elem_of_singleton]%elem_of_app Hc Hne; [eauto|].
      subst r. by rewrite Hold.
  - split.
    + intros k v. rewrite knownGet_app.
      destruct (knownGet m k) as [x|] eqn:Hk.
      * intros [= <-]. destruct (Hget k x Hk) as (? & r & ? & ?).
        split; [done|]. exists r. set_solver.
      * destruct (String.eqb (payeeNormalized row) k) eqn:E; [|done].
        apply String.eqb_eq in E as <-. intros [= <-].
        split; [done|]. exists row. set_solver.
    + intros r Hr Hc Hne. rewrite knownGet_app.
      apply elem_of_app in Hr as [Hr|Hr%list_elem_of_singleton].
      * by destruct (Hhas r Hr Hc Hne) as [x ->].
      * subst r. rewrite Hold, String.eqb_refl. eauto.
Qed.

Lemma foldl_addKnown_soFar rows seen m :
  knownSoFar seen m → knownSoFar (seen ++ rows) (foldl addKnown m rows).
Proof.
  revert seen m. induction rows as [|row rows IH]; intros seen m H; simpl.
  - by rewrite app_nil_r.
  - rewrite cons_middle, app_assoc. by apply IH, addKnown_soFar.
Qed.

Lemma buildKnownMap_soFar rows : knownSoFar rows (buildKnownMap rows).
Proof.
  apply (foldl_addKnown_soFar rows [] []). split; [done|].
  by intros r ?%elem_of_nil.
Qed.

Lemma bestStep_soFar payee seen best k :
  bestSoFar payee seen best →
  bestSoFar payee (seen ++ [k]) (bestStep payee best k).
Proof.
  destruct best as [bk bs]. intros [Hmax Hbest]; simpl in *.
  assert (0 <= bs)%Q as Hpos.
  { destruct bk as [k0|]; [|by rewrite Hbest].
    apply Qlt_le_weak. tauto. }
  unfold bestStep; simpl.
  destruct (Qltb bs (sequenceMatcherRatio payee k)) eqn:Hlt; simpl.
  - apply Qltb_lt in Hlt. split; simpl.
    + intros k' [Hk'|Hk'%list_elem_of_singleton]%elem_of_app.
      * eapply Qle_trans; [by apply Hmax|]. by apply Qlt_le_weak.
      * subst k'. apply Qle_refl.
    + split; [set_solver|]. split; [done|]. by eapply Qle_lt_trans.
  - assert (sequenceMatcherRatio payee k <= bs)%Q as Hle.
    { apply Qnot_lt_le. intros ?%Qltb_lt. congruence. }
    split; simpl.
    + intros k' [Hk'|Hk'%list_elem_of_singleton]%elem_of_app; [auto|].
      by subst k'.
    + destruct bk as [k0|]; [|done].
      destruct Hbest as (? & ? & ?). split; [set_solver|done].
Qed.

Lemma foldl_bestStep_soFar payee keys seen best :
  bestSoFar payee seen best →
  bestSoFar payee (seen ++ keys) (foldl (bestStep payee) best keys).
Proof.
  revert seen best. induction keys as [|k keys IH]; intros seen best H; simpl.
  - by rewrite app_nil_r.
  - rewrite cons_middle, app_assoc. by apply IH, bestStep_soFar.
Qed.

Lemma bestMatch_soFar payee keys :
  bestSoFar payee keys (bestMatch keys payee).
Proof.
  apply (foldl_bestStep_soFar payee keys [] (None, 0%Q)).
  split; [|done]. by intros k ?%elem_of_nil.
Qed.

Lemma pass1_high_confidence rules row :
  (0.9 <= confidenceScore (classified rules row))%Q →
  ∃ rule,
    matchRule rules (payeeNormalized (classified rules row)) = Some rule
    ∧ categoryFinal (classified rules row) = rule_category rule
    ∧ categoryGroup (classified rules row) = rule_group rule
    ∧ isBillRule (classified rules row) = rule_isBill rule.
Proof.
  unfold classified, categorizeRow; simpl.
  destruct (matchRule rules (normalizePayee (name row))) as [rule|] eqn:E;
    simpl.
  { rewrite E. eauto. }
  unfold FALLBACK_CATEGORY_MAP.
  repeat (destruct (String.eqb (monzoCategory row) _); simpl;
          [by intros H; vm_compute in H|]).
  by intros H; vm_compute in H.
Qed.

Lemma pass1_reason rules row :
  confidenceReason (classified rules row) ≠ "fuzzy_payee".
Proof.
  unfold classified, categorizeRow; simpl.
  destruct (matchRule _ _); simpl; [done|].
  by destruct (FALLBACK_CATEGORY_MAP _) as [[[[??]?]?]| |].
Qed.

Lemma elem_of_pass1 rules rows r :
  r ∈ pass1Rows rules rows → ∃ row, r = classified rules row.
Proof.
  unfold pass1Rows. change (map ?f ?l) with (f <$> l).
  intros (row & -> & _)%list_elem_of_fmap. eauto.
Qed.

(** Two rows of one key that pass 1 left at confidence 0.90 or more were
    classified by the same rule. *)
Lemma known_rows_agree rules rows r r' :
  r ∈ pass1Rows rules rows → r' ∈ pass1Rows rules rows →
  payeeNormalized r = payeeNormalized r' →
  (0.9 <= confidenceScore r)%Q → (0.9 <= confidenceScore r')%Q →
  categoryFinal r = categoryFinal r' ∧ categoryGroup r = categoryGroup r'
  ∧ isBillRule r = isBillRule r'.
Proof.
  intros (row & ->)%elem_of_pass1 (row' & ->)%elem_of_pass1 Hkey Hc Hc'.
  destruct (pass1_high_confidence _ _ Hc) as (rule & Hm & -> & -> & ->).
  destruct (pass1_high_confidence _ _ Hc') as (rule' & Hm' & -> & -> & ->).
  rewrite Hkey in Hm. by simplify_eq.
Qed.

Lemma ratio_empty_key payee :
  payee ≠ "" → sequenceMatcherRatio payee "" = 0%Q.
Proof. intros H. apply sequenceMatcherRatio_one_empty; auto. Qed.

Lemma knownKey_in_map p1 k :
  knownKey p1 k → k ≠ "" → k ∈ knownKeys (buildKnownMap p1).
Proof.
  intros (r & Hr & <- & Hc) Hne. apply knownGet_keys.
  by apply (buildKnownMap_soFar p1).
Qed.

Lemma fuzzyRow_nil r : fuzzyRow [] r = r.
Proof. unfold fuzzyRow. by destruct (_ || _). Qed.

Lemma categorize_unfold rules rows :
  categorized rules rows =
  map (fuzzyRow (buildKnownMap (pass1Rows rules rows))) (pass1Rows rules rows).
Proof.
  unfold categorized, pass2.
  destruct (buildKnownMap (pass1Rows rules rows)) as [|kv m] eqn:E; [|done].
  simpl. induction (pass1Rows rules rows) as [|r l IH] in |- *; [done|].
  simpl. by rewrite fuzzyRow_nil, <- IH.
Qed.

Lemma clamp_min_max x :
  (Qmin 0.85 (Qmax 0.7 x) == clamp x 0.7 0.85)%Q.
Proof.
  unfold clamp.
  destruct (Qltb x 0.7) eqn:Hlo.
  { apply Qltb_lt in Hlo. rewrite (Q.max_l 0.7 x) by by apply Qlt_le_weak.
    by rewrite Q.min_r. }
  assert (0.7 <= x)%Q as Hlo'.
  { apply Qnot_lt_le. intros ?%Qltb_lt. congruence. }
  rewrite (Q.max_r 0.7 x) by done.
  destruct (Qltb 0.85 x) eqn:Hhi.
  { apply Qltb_lt in Hhi. by rewrite Q.min_l by by apply Qlt_le_weak. }
  apply Q.min_r, Qnot_lt_le. intros ?%Qltb_lt. congruence.
Qed.

Lemma clamp_bounds x :
  (0.7 <= Qmin 0.85 (Qmax 0.7 x) <= 0.85)%Q.
Proof.
  split; [|apply Q.le_min_l].
  apply Q.min_glb; [done|apply Q.le_max_l].
Qed.

(** The body of pass 2 on one row, against the map built from the batch
    after pass 1. *)
Lemma fuzzyRow_spec rules rows r1 :
  let p1 := pass1Rows rules rows in
  let r2 := fuzzyRow (buildKnownMap p1) r1 in
  (fuzzyEligible p1 r1
   ∧ ∃ k, bestKnownKey p1 (payeeNormalized r1) k
     ∧ (0.88 <= sequenceMatcherRatio (payeeNormalized r1) k)%Q
     ∧ confidenceScore r2
       = Qmin 0.85 (Qmax 0.7 (sequenceMatcherRatio (payeeNormalized r1) k))
     ∧ confidenceReason r2 = "fuzzy_payee"
     ∧ ruleIdApplied r2 = "fuzzy:" +:+ k
     ∧ set_classification (categoryFinal r1) (categoryGroup r1)
         (isBillRule r1) (confidenceScore r1) (confidenceReason r1)
         (ruleIdApplied r1) r2 = r1
     ∧ ∀ r0, r0 ∈ p1 → payeeNormalized r0 = k →
         (0.9 <= confidenceScore r0)%Q →
         categoryFinal r2 = categoryFinal r0
         ∧ categoryGroup r2 = categoryGroup r0
         ∧ isBillRule r2 = isBillRule r0)
  ∨ (¬ fuzzyEligible p1 r1 ∧ r2 = r1).
Proof.
  intros p1 r2. subst r2. unfold fuzzyRow.
  pose proof (buildKnownMap_soFar p1) as [Hget Hhas].
  destruct (Qle_bool 0.7 (confidenceScore r1)) eqn:Hconf; simpl.
  { right. split; [|done]. intros (Hlt & _).
    apply Qle_bool_iff in Hconf. by apply Qlt_not_le in Hlt. }
  assert (confidenceScore r1 < 0.7)%Q as Hlow.
  { apply Qnot_le_lt. intros ?%Qle_bool_iff. congruence. }
  destruct (truthy (payeeNormalized r1)) eqn:Hkey; simpl.
  2:{ right. split; [|done]. intros (_ & Hne%truthy_true & _). congruence. }
  apply truthy_true in Hkey.
  pose proof (bestMatch_soFar (payeeNormalized r1)
                (knownKeys (buildKnownMap p1))) as [Hmax Hbest].
  (* every known key scores at most the best score, when that is positive *)
  assert (∀ k', knownKey p1 k' →
            (0 <= (bestMatch (knownKeys (buildKnownMap p1))
                     (payeeNormalized r1)).2)%Q →
            (sequenceMatcherRatio (payeeNormalized r1) k'
             <= (bestMatch (knownKeys (buildKnownMap p1))
                   (payeeNormalized r1)).2)%Q) as Hall.
  { intros k' Hk' Hpos. destruct (decide (k' = "")) as [->|Hne].
    - by rewrite ratio_empty_key.
    - by apply Hmax, knownKey_in_map. }
  destruct (bestMatch (knownKeys (buildKnownMap p1)) (payeeNormalized r1))
    as [[k|] bs] eqn:Hbm; simpl in *.
  2:{ right. split; [|done]. intros (_ & _ & k' & Hk' & Hs).
      subst bs. specialize (Hall k' Hk' (Qle_refl 0)).
      pose proof (Qle_trans _ _ _ Hs Hall) as Habs. by vm_compute in Habs. }
  destruct Hbest as (Hin & Hbs & Hpos).
  apply knownGet_keys in Hin as [v Hv].
  destruct (Hget k v Hv) as (Hkne & r0 & Hr0 & Hr0k & Hr0c & ->).
  apply truthy_true in Hkne as Hkt. rewrite Hkt; simpl.
  destruct (Qle_bool 0.88 bs) eqn:H88.
  2:{ right. split; [|done]. intros (_ & _ & k' & Hk' & Hs).
      specialize (Hall k' Hk' (Qlt_le_weak _ _ Hpos)).
      pose proof (Qle_trans _ _ _ Hs Hall) as Habs.
      apply Qle_bool_iff in Habs. congruence. }
  apply Qle_bool_iff in H88. rewrite Hv. left.
  assert (knownKey p1 k) as Hknown by by exists r0.
  split.
  { split; [done|]. split; [done|]. exists k. by rewrite <- Hbs. }
  exists k. split.
  { split; [done|]. intros k' Hk'. rewrite <- Hbs.
    by apply Hall, Qlt_le_weak. }
  split; [by rewrite <- Hbs|]. simpl. rewrite Hbs.
  split; [done|]. split; [done|]. split; [done|].
  split; [by destruct r1|].
  intros r0' Hr0' Hk0' Hc0'.
  apply (known_rows_agree rules rows r0 r0'); [done|done|congruence|done..].
Qed.

Lemma categorized_fuzzy_pass (rules : list Rule)
    (rows : list TransactionRow) :
  let p1 := pass1Rows rules rows in
  let out := categorized rules rows in
  length out = length p1
  ∧ (∀ i r1 r2, p1 !! i = Some r1 → out !! i = Some r2 →
       (fuzzyEligible p1 r1
        ∧ ∃ k, bestKnownKey p1 (payeeNormalized r1) k
          ∧ (confidenceScore r2 ==
             clamp (sequenceMatcherRatio (payeeNormalized r1) k) 0.7 0.85)%Q
          ∧ confidenceReason r2 = "fuzzy_payee"
          ∧ ruleIdApplied r2 = "fuzzy:" +:+ k
          ∧ set_classification (categoryFinal r1) (categoryGroup r1)
              (isBillRule r1) (confidenceScore r1) (confidenceReason r1)
              (ruleIdApplied r1) r2 = r1
          ∧ ∀ r0, r0 ∈ p1 → payeeNormalized r0 = k →
              (0.9 <= confidenceScore r0)%Q →
              categoryFinal r2 = categoryFinal r0
              ∧ categoryGroup r2 = categoryGroup r0
              ∧ isBillRule r2 = isBillRule r0)
       ∨ (¬ fuzzyEligible p1 r1 ∧ r2 = r1))
  ∧ (∀ r, r ∈ out → confidenceReason r = "fuzzy_payee" →
       (0.7 <= confidenceScore r <= 0.85)%Q
       ∧ ¬ (confidenceScore r < 0.7)%Q ∧ ¬ (0.9 <= confidenceScore r)%Q).
Proof.
  intros p1 out. subst out p1. rewrite categorize_unfold.
  split; [apply length_map|]. split.
  - intros i r1 r2 H1 H2.
    rewrite (map_lookup_Some _ _ _ _ H1) in H2. injection H2 as <-.
    destruct (fuzzyRow_spec rules rows r1)
      as [(Hel & k & Hk & _ & Hc & Hr & Hid & Hrest & Hcls)|[Hno Heq]].
    + left. split; [done|]. exists k. split; [done|].
      split; [|done]. rewrite Hc. apply clamp_min_max.
    + by right.
  - intros r Hr Hreason.
    change (map ?f ?l) with (f <$> l) in Hr.
    apply list_elem_of_fmap in Hr as (r1 & -> & Hr1).
    destruct (fuzzyRow_spec rules rows r1)
      as [(_ & k & _ & _ & Hc & _)|[_ Heq]].
    + rewrite Hc.
      pose proof (clamp_bounds
                    (sequenceMatcherRatio (payeeNormalized r1) k)) as [Hlo Hhi].
      split; [done|]. split.
      * by apply Qle_not_lt.
      * intros H9. pose proof (Qle_trans _ _ _ H9 Hhi) as Habs.
        by vm_compute in Habs.
    + rewrite Heq in Hreason.
      apply elem_of_pass1 in Hr1 as (row & ->).
      by apply pass1_reason in Hreason.
Qed.

(** C4.  Pass 2 of [categorize] rewrites exactly the rows that pass 1 left
    with a confidence below 0.70 and a key that is not empty, and for which
    some known key (the key of a row that pass 1 left at 0.90 or more) is
    at similarity 0.88 or more.  Such a row takes the category, group and
    bill flag of the rows of a known key [k] of greatest similarity, its
    confidence is that similarity clamped to [0.70, 0.85], its reason is
    [fuzzy_payee], its rule id is [fuzzy:] followed by [k], and its other
    fields stay; every other row is left as pass 1 made it.  Hence a row
    that leaves [categorize] with reason [fuzzy_payee] has a confidence in
    [0.70, 0.85], neither below 0.70 nor 0.90 or more.  When pass 1 throws there is no
    batch: [categorize] throws the same error. *)
Theorem categorize_fuzzy_pass (rules : list Rule)
    (rows : list TransactionRow) :
  match pass1 rules rows with
  | Ok p1 =>
      ∃ out,
        categorize rules rows = Ok out
        ∧ length out = length p1
        ∧ (∀ i r1 r2, p1 !! i = Some r1 → out !! i = Some r2 →
             (fuzzyEligible p1 r1
              ∧ ∃ k, bestKnownKey p1 (payeeNormalized r1) k
                ∧ (confidenceScore r2 ==
                   clamp (sequenceMatcherRatio (payeeNormalized r1) k)
                     0.7 0.85)%Q
                ∧ confidenceReason r2 = "fuzzy_payee"
                ∧ ruleIdApplied r2 = "fuzzy:" +:+ k
                ∧ set_classification (categoryFinal r1) (categoryGroup r1)
                    (isBillRule r1) (confidenceScore r1)
                    (confidenceReason r1) (ruleIdApplied r1) r2 = r1
                ∧ ∀ r0, r0 ∈ p1 → payeeNormalized r0 = k →
                    (0.9 <= confidenceScore r0)%Q →
                    categoryFinal r2 = categoryFinal r0
                    ∧ categoryGroup r2 = categoryGroup r0
                    ∧ isBillRule r2 = isBillRule r0)
             ∨ (¬ fuzzyEligible p1 r1 ∧ r2 = r1))
        ∧ (∀ r, r ∈ out → confidenceReason r = "fuzzy_payee" →
             (0.7 <= confidenceScore r <= 0.85)%Q
             ∧ ¬ (confidenceScore r < 0.7)%Q
             ∧ ¬ (0.9 <= confidenceScore r)%Q)
  | Err msg => categorize rules rows = Err msg
  end.
Proof.
  unfold categorize.
  destruct (pass1_cases rules rows) as [[_ ->]|[_ ->]]; [done|].
  exists (categorized rules rows). split; [done|].
  apply categorized_fuzzy_pass.
Qed.

(** ** Bill candidacy and status *)

Lemma StronglySorted_last_max (l : list string) m :
  StronglySorted String.le l → last l = Some m →
  ∀ x, x ∈ l → String.le x m.
Proof.
  induction 1 as [|y l Hl IH Hy]; [done|].
  intros Hlast x Hx. destruct l as [|z l].
  { simpl in Hlast. injection Hlast as <-.
    apply list_elem_of_singleton in Hx as ->. done. }
  rewrite last_cons_cons in Hlast.
  apply elem_of_cons in Hx as [->|Hx]; [|by apply IH].
  apply (Forall_forall (String.le y) (z :: l)); [done|].
  by apply last_Some_elem_of.
Qed.

Lemma latestOf_spec keys :
  keys ≠ [] →
  ∃ m, latestOf keys = Some m ∧ m ∈ keys ∧ ∀ k, k ∈ keys → String.le k m.
Proof.
  intros Hne. unfold latestOf, sortedMonths.
  set (sorted := merge_sort String.le (elements (list_to_set keys : gset string))).
  assert (∀ k, k ∈ sorted ↔ k ∈ keys) as Hin.
  { intros k. unfold sorted. rewrite merge_sort_Permutation.
    by rewrite elem_of_elements, elem_of_list_to_set. }
  destruct (last sorted) as [m|] eqn:Hlast.
  - exists m. split; [done|]. split.
    + by apply Hin, last_Some_elem_of.
    + intros k Hk. apply (StronglySorted_last_max sorted); [|done|by apply Hin].
      apply StronglySorted_merge_sort; apply _.
  - apply last_None in Hlast. destruct keys as [|k keys]; [done|].
    assert (k ∈ sorted) as Hk by (apply Hin; set_solver).
    rewrite Hlast in Hk. by apply elem_of_nil in Hk.
Qed.

Lemma latestOf_spend rows :
  filter (λ r, isSpend r = true) rows ≠ [] →
  ∃ latest, latestOf (spendMonths rows) = Some latest
            ∧ isLatestMonth rows latest.
Proof.
  intros Hne. destruct (latestOf_spec (spendMonths rows)) as (m & ? & ? & ?).
  { unfold spendMonths. by destruct (filter _ rows). }
  by exists m.
Qed.

Lemma addStats_statsOf seen stats row :
  (∀ p, default (∅, 0) (stats !! p) = statsOf seen p) →
  ∀ p, default (∅, 0) (addStats stats row !! p) = statsOf (seen ++ [row]) p.
Proof.
  intros H p. unfold addStats. specialize (H (payeeNormalized row)) as Hrow.
  destruct (default (∅, 0) (stats !! payeeNormalized row))
    as [monthsSeen txCount].
  unfold statsOf in *. rewrite filter_app, map_app, length_app.
  destruct (decide (payeeNormalized row = p)) as [<-|Hne].
  - rewrite lookup_insert_eq; simpl.
    rewrite filter_cons_True, filter_nil by done. simpl.
    injection Hrow as -> ->. f_equal; [|lia].
    rewrite list_to_set_app_L. simpl. set_solver.
  - rewrite lookup_insert_ne by done. rewrite H.
    rewrite filter_cons_False, filter_nil by done. simpl.
    by rewrite app_nil_r, Nat.add_0_r.
Qed.

Lemma buildPayeeStats_statsOf rows p :
  default (∅, 0) (buildPayeeStats rows !! p) = statsOf rows p.
Proof.
  unfold buildPayeeStats.
  assert (∀ seen stats,
            (∀ p, default (∅, 0) (stats !! p) = statsOf seen p) →
            ∀ p, default (∅, 0) (foldl addStats stats rows !! p)
                 = statsOf (seen ++ rows) p) as Hfold.
  { induction rows as [|row rows IH]; intros seen stats H q; simpl.
    - by rewrite app_nil_r.
    - rewrite cons_middle, app_assoc. by apply IH, addStats_statsOf. }
  by apply (Hfold [] ∅).
Qed.

Lemma filter_filter_spend rows p :
  filter (λ r, payeeNormalized r = p) (filter (λ r, isSpend r = true) rows)
  = payeeSpend rows p.
Proof.
  unfold payeeSpend. induction rows as [|r rows IH]; [done|].
  rewrite !(filter_cons _ r). destruct (decide (isSpend r = true)).
  - rewrite (filter_cons _ r).
    destruct (decide (payeeNormalized r = p)).
    + rewrite decide_True by done. by rewrite IH.
    + rewrite decide_False by naive_solver. done.
  - rewrite decide_False by naive_solver. done.
Qed.

Lemma size_list_to_set_remove_dups (l : list string) :
  size (list_to_set l : gset string) = length (remove_dups l).
Proof.
  rewrite <- (size_list_to_set (C:=gset string) (remove_dups l))
    by apply NoDup_remove_dups.
  f_equal. apply set_eq. intros x.
  by rewrite !elem_of_list_to_set, elem_of_remove_dups.
Qed.

(** The flag [markCandidate] sets, from the statistics of the spend rows. *)
Lemma markCandidate_spec rows r :
  isBillCandidate
    (markCandidate (buildPayeeStats (filter (λ r, isSpend r = true) rows)) r)
  = true
  ↔ isBillRule r = true
    ∨ (type r ∈ DIRECT_DEBIT_TYPES ∧ recurringLike rows (payeeNormalized r)).
Proof.
  unfold markCandidate.
  pose proof (buildPayeeStats_statsOf (filter (λ r, isSpend r = true) rows)
                (payeeNormalized r)) as Hstats.
  destruct (default _ _) as [monthsSeen txCount].
  unfold set_isBillCandidate, set_bill. cbn [isBillCandidate].
  unfold statsOf in Hstats. rewrite filter_filter_spend in Hstats.
  injection Hstats as -> ->.
  rewrite orb_true_iff, !andb_true_iff, bool_decide_eq_true.
  rewrite !Nat.leb_le, size_list_to_set_remove_dups. done.
Qed.

Lemma applyBillStatus_no_spend rows :
  filter (λ r, isSpend r = true) rows = [] →
  applyBillStatus rows =
  map (λ r, set_bill false "not_bill" 0%Q (typicalDay r) r) rows.
Proof. intros H. unfold applyBillStatus. by rewrite H. Qed.

Lemma applyBillStatus_unfold rows :
  filter (λ r, isSpend r = true) rows ≠ [] →
  applyBillStatus rows = map (billRow rows) rows.
Proof.
  intros Hne. unfold applyBillStatus.
  destruct (filter (λ r, isSpend r = true) rows) as [|r0 spend] eqn:Hspend;
    [done|].
  cbn [length Nat.eqb]. rewrite <- Hspend.
  change (map monthKey (filter (λ r, isSpend r = true) rows))
    with (spendMonths rows).
  change (buildPayeeStats (filter (λ r, isSpend r = true) rows))
    with (payeeStatsOf rows).
  change (filter (λ r, isBillCandidate r && isSpend r = true)
            (map (markCandidate (payeeStatsOf rows)) rows))
    with (candidateSpendOf rows).
  change (list_to_set (map payeeNormalized
            (filter (λ r, Some (monthKey r) = latestOf (spendMonths rows))
               (candidateSpendOf rows))))
    with (presentLatestOf rows).
  change (list_to_set (map payeeNormalized
            (filter (λ r, Some (monthKey r) ≠ latestOf (spendMonths rows))
               (candidateSpendOf rows))))
    with (seenBeforeOf rows).
  rewrite (map_map (markCandidate (payeeStatsOf rows))).
  change (map (λ x, assignStatus (presentLatestOf rows) (seenBeforeOf rows)
                      (markCandidate (payeeStatsOf rows) x)) rows)
    with (map (statusRow rows) rows).
  change (filter (λ r, String.eqb (billStatus r) "active" && isSpend r = true)
            (map (statusRow rows) rows)) with (activeSpendOf rows).
  change (foldl (addTotals (latestOf (spendMonths rows))) (∅, ∅)
            (activeSpendOf rows)) with (totalsOf rows).
  destruct (totalsOf rows) as [latestTotals allTotals] eqn:Htot.
  rewrite map_map. unfold billRow. by rewrite Htot.
Qed.

Lemma markCandidate_keyFields stats r :
  keyFields (markCandidate stats r) = keyFields r.
Proof. unfold markCandidate. by destruct (default _ _). Qed.

Lemma assignStatus_keyFields pl sb r :
  keyFields (assignStatus pl sb r) = keyFields r
  ∧ isBillCandidate (assignStatus pl sb r) = isBillCandidate r.
Proof. unfold assignStatus. by destruct (negb _). Qed.

Lemma assignRequired_keyFields lt tot r :
  keyFields (assignRequired lt tot r) = keyFields r
  ∧ isBillCandidate (assignRequired lt tot r) = isBillCandidate r
  ∧ billStatus (assignRequired lt tot r) = billStatus r.
Proof. unfold assignRequired. by destruct (negb _). Qed.

Lemma statusRow_keyFields rows r :
  keyFields (statusRow rows r) = keyFields r.
Proof.
  unfold statusRow.
  by rewrite (proj1 (assignStatus_keyFields _ _ _)), markCandidate_keyFields.
Qed.

Lemma billRow_keyFields rows r : keyFields (billRow rows r) = keyFields r.
Proof.
  unfold billRow.
  by rewrite (proj1 (assignRequired_keyFields _ _ _)), statusRow_keyFields.
Qed.

Lemma billRow_candidate rows r :
  isBillCandidate (billRow rows r)
  = isBillCandidate (markCandidate (payeeStatsOf rows) r).
Proof.
  unfold billRow, statusRow.
  rewrite (proj1 (proj2 (assignRequired_keyFields _ _ _))).
  by rewrite (proj2 (assignStatus_keyFields _ _ _)).
Qed.

Lemma billRow_status rows r :
  billStatus (billRow rows r) = billStatus (statusRow rows r).
Proof.
  unfold billRow. by rewrite (proj2 (proj2 (assignRequired_keyFields _ _ _))).
Qed.

Lemma keyFields_inv r r' :
  keyFields r' = keyFields r →
  payeeNormalized r' = payeeNormalized r ∧ monthKey r' = monthKey r
  ∧ isSpend r' = isSpend r ∧ isBillRule r' = isBillRule r
  ∧ type r' = type r ∧ amountAbs r' = amountAbs r.
Proof. unfold keyFields. by intros [= -> -> -> -> -> ->]. Qed.

Lemma spend_nonempty rows :
  (∃ r, r ∈ rows ∧ isSpend r = true) ↔
  filter (λ r, isSpend r = true) rows ≠ [].
Proof.
  split.
  - intros (r & Hr & Hs) Hnil.
    by apply (filter_nil_not_elem_of _ _ r Hnil).
  - destruct (filter _ rows) as [|r l] eqn:E; [done|]. intros _.
    assert (r ∈ filter (λ r, isSpend r = true) rows) as Hr
      by (rewrite E; left).
    apply list_elem_of_filter in Hr as [? ?]. eauto.
Qed.

Lemma elem_of_map {A B} (f : A → B) (l : list A) y :
  y ∈ map f l ↔ ∃ x, x ∈ l ∧ y = f x.
Proof.
  change (map f l) with (f <$> l). rewrite list_elem_of_fmap. naive_solver.
Qed.

(** C3.  On a batch with a spend row, [applyBillStatus] marks a row as a
    bill candidate exactly when the row carries the bill flag of its
    classification, or its type is one of the three direct-debit types
    and the spend rows of its payee span two distinct months or more and
    are two or more. *)
Theorem applyBillStatus_candidate (rows : list TransactionRow) :
  (∃ r, r ∈ rows ∧ isSpend r = true) →
  length (applyBillStatus rows) = length rows
  ∧ ∀ i r r', rows !! i = Some r → applyBillStatus rows !! i = Some r' →
      (isBillCandidate r' = true
       ↔ isBillRule r = true
         ∨ (type r ∈ DIRECT_DEBIT_TYPES
            ∧ recurringLike rows (payeeNormalized r))).
Proof.
  intros Hspend%spend_nonempty. rewrite applyBillStatus_unfold by done.
  split; [apply length_map|].
  intros i r r' Hr Hr'. rewrite (map_lookup_Some _ _ _ _ Hr) in Hr'.
  injection Hr' as <-. rewrite billRow_candidate.
  apply markCandidate_spec.
Qed.

(** C3 on the sample batch, where the two direct debits of the payee are
    candidates and its card payment is not. *)
Lemma applyBillStatus_candidate_gym :
  (∃ r, r ∈ gymBatch ∧ isSpend r = true)
  ∧ length (applyBillStatus gymBatch) = length gymBatch
  ∧ ∀ i r r', gymBatch !! i = Some r →
      applyBillStatus gymBatch !! i = Some r' →
      (isBillCandidate r' = true
       ↔ isBillRule r = true
         ∨ (type r ∈ DIRECT_DEBIT_TYPES
            ∧ recurringLike gymBatch (payeeNormalized r))).
Proof.
  assert (∃ r, r ∈ gymBatch ∧ isSpend r = true) as H.
  { eexists. split; [apply list_elem_of_here|reflexivity]. }
  split; [exact H|]. exact (applyBillStatus_candidate gymBatch H).
Defined.

Lemma elem_of_applyBillStatus rows c :
  filter (λ r, isSpend r = true) rows ≠ [] →
  c ∈ applyBillStatus rows ↔ ∃ r, r ∈ rows ∧ c = billRow rows r.
Proof. intros H. rewrite applyBillStatus_unfold by done. apply elem_of_map. Qed.

Lemma candidateSpendOf_elem rows c :
  c ∈ candidateSpendOf rows ↔
  ∃ r, r ∈ rows ∧ c = markCandidate (payeeStatsOf rows) r
       ∧ isBillCandidate c = true ∧ isSpend r = true.
Proof.
  unfold candidateSpendOf. rewrite list_elem_of_filter, elem_of_map.
  rewrite andb_true_iff. split.
  - intros ([Hc Hs] & r & Hr & ->). exists r. repeat split; try done.
    by destruct (keyFields_inv _ _ (markCandidate_keyFields (payeeStatsOf rows) r))
      as (_ & _ & <- & _).
  - intros (r & Hr & -> & Hc & Hs). split; [|eauto]. split; [done|].
    by destruct (keyFields_inv _ _ (markCandidate_keyFields (payeeStatsOf rows) r))
      as (_ & _ & -> & _).
Qed.

Lemma candidateSpendIn_rows rows p (P : string → Prop) :
  filter (λ r, isSpend r = true) rows ≠ [] →
  candidateSpendIn (applyBillStatus rows) p P ↔
  ∃ r, r ∈ rows ∧ payeeNormalized r = p
       ∧ isBillCandidate (markCandidate (payeeStatsOf rows) r) = true
       ∧ isSpend r = true ∧ P (monthKey r).
Proof.
  intros Hne. unfold candidateSpendIn. split.
  - intros (c & (r & Hr & ->)%elem_of_applyBillStatus & Hp & Hc & Hs & Hm);
      [|done].
    rewrite billRow_candidate in Hc.
    destruct (keyFields_inv _ _ (billRow_keyFields rows r))
      as (Ep & Em & Es & _).
    exists r. by rewrite <- Ep, <- Em, <- Es.
  - intros (r & Hr & Hp & Hc & Hs & Hm). exists (billRow rows r).
    rewrite elem_of_applyBillStatus by done.
    destruct (keyFields_inv _ _ (billRow_keyFields rows r))
      as (Ep & Em & Es & _).
    rewrite billRow_candidate, Ep, Em, Es. eauto 10.
Qed.

Lemma presentLatestOf_spec rows latest p :
  latestOf (spendMonths rows) = Some latest →
  p ∈ presentLatestOf rows ↔
  ∃ r, r ∈ rows ∧ payeeNormalized r = p
       ∧ isBillCandidate (markCandidate (payeeStatsOf rows) r) = true
       ∧ isSpend r = true ∧ monthKey r = latest.
Proof.
  intros Hl. unfold presentLatestOf. rewrite Hl.
  rewrite elem_of_list_to_set, elem_of_map. split.
  - intros (c & [Hm (r & Hr & -> & Hc & Hs)%candidateSpendOf_elem]%list_elem_of_filter & ->).
    destruct (keyFields_inv _ _ (markCandidate_keyFields (payeeStatsOf rows) r))
      as (Ep & Em & _).
    exists r. rewrite <- Ep, <- Em. injection Hm as Hm. done.
  - intros (r & Hr & Hp & Hc & Hs & Hm).
    destruct (keyFields_inv _ _ (markCandidate_keyFields (payeeStatsOf rows) r))
      as (Ep & Em & _).
    exists (markCandidate (payeeStatsOf rows) r). split; [|congruence].
    apply list_elem_of_filter. split; [congruence|].
    apply candidateSpendOf_elem. eauto.
Qed.

Lemma seenBeforeOf_spec rows latest p :
  latestOf (spendMonths rows) = Some latest →
  p ∈ seenBeforeOf rows ↔
  ∃ r, r ∈ rows ∧ payeeNormalized r = p
       ∧ isBillCandidate (markCandidate (payeeStatsOf rows) r) = true
       ∧ isSpend r = true ∧ monthKey r ≠ latest.
Proof.
  intros Hl. unfold seenBeforeOf. rewrite Hl.
  rewrite elem_of_list_to_set, elem_of_map. split.
  - intros (c & [Hm (r & Hr & -> & Hc & Hs)%candidateSpendOf_elem]%list_elem_of_filter & ->).
    destruct (keyFields_inv _ _ (markCandidate_keyFields (payeeStatsOf rows) r))
      as (Ep & Em & _).
    exists r. rewrite <- Ep, <- Em. repeat split; try done. congruence.
  - intros (r & Hr & Hp & Hc & Hs & Hm).
    destruct (keyFields_inv _ _ (markCandidate_keyFields (payeeStatsOf rows) r))
      as (Ep & Em & _).
    exists (markCandidate (payeeStatsOf rows) r). split; [|congruence].
    apply list_elem_of_filter. split; [congruence|].
    apply candidateSpendOf_elem. eauto.
Qed.

(** A spend row in a month other than the latest is in an earlier one. *)
Lemma spend_month_earlier rows latest r :
  isLatestMonth rows latest → r ∈ rows → isSpend r = true →
  monthKey r ≠ latest ↔ earlierThan latest (monthKey r).
Proof.
  intros [_ Hmax] Hr Hs. unfold earlierThan. split; [|tauto].
  intros Hne. split; [done|]. apply Hmax. unfold spendMonths.
  apply elem_of_map. exists r. split; [|done].
  by apply list_elem_of_filter.
Qed.

Lemma statusRow_status rows r :
  billStatus (statusRow rows r) =
  if isBillCandidate (markCandidate (payeeStatsOf rows) r) then
    if bool_decide (payeeNormalized r ∈ presentLatestOf rows) then "active"
    else if bool_decide (payeeNormalized r ∈ seenBeforeOf rows)
         then "inactive_candidate" else "not_bill"
  else "not_bill".
Proof.
  unfold statusRow, assignStatus.
  destruct (keyFields_inv _ _ (markCandidate_keyFields (payeeStatsOf rows) r))
    as (-> & _).
  destruct (isBillCandidate _); [|done]. simpl.
  destruct (bool_decide (_ ∈ presentLatestOf rows)); [done|]. simpl.
  by destruct (bool_decide (_ ∈ seenBeforeOf rows)).
Qed.

(** C2, as the code has it.  On a batch with a spend row there is a
    latest month, the greatest month key of the spend rows, and the status
    is decided row by row: a row is [active] exactly when it is itself a
    bill candidate and its payee has a candidate spend row in the latest
    month; [inactive_candidate] exactly when it is a candidate, its payee
    has no candidate spend row in the latest month and has one in an
    earlier month; and [not_bill] in every other case, so a row that is not
    a candidate is [not_bill] whatever the other rows of its payee are.
    On a batch without a spend row every row is [not_bill]. *)
Theorem applyBillStatus_status (rows : list TransactionRow) :
  let out := applyBillStatus rows in
  ((∃ r, r ∈ rows ∧ isSpend r = true) →
   ∃ latest, isLatestMonth rows latest
     ∧ ∀ c, c ∈ out →
         let inLatest :=
           candidateSpendIn out (payeeNormalized c) (λ m, m = latest) in
         let inEarlier :=
           candidateSpendIn out (payeeNormalized c) (earlierThan latest) in
         (billStatus c = "active" ↔ isBillCandidate c = true ∧ inLatest)
         ∧ (billStatus c = "inactive_candidate"
            ↔ isBillCandidate c = true ∧ ¬ inLatest ∧ inEarlier)
         ∧ (billStatus c = "not_bill"
            ↔ ¬ (isBillCandidate c = true ∧ (inLatest ∨ inEarlier))))
  ∧ ((∀ r, r ∈ rows → isSpend r = false) →
     ∀ c, c ∈ out → billStatus c = "not_bill" ∧ isBillCandidate c = false).
Proof.
  intros out. subst out. split.
  - intros Hspend%spend_nonempty.
    destruct (latestOf_spend rows Hspend) as (latest & Hl & Hlatest).
    exists latest. split; [done|].
    intros c (r & Hr & ->)%elem_of_applyBillStatus; [|done]. cbv zeta.
    destruct (keyFields_inv _ _ (billRow_keyFields rows r)) as (-> & _).
    rewrite !candidateSpendIn_rows by done.
    rewrite billRow_status, billRow_candidate, statusRow_status.
    pose proof (presentLatestOf_spec rows latest (payeeNormalized r) Hl)
      as Hpl.
    pose proof (seenBeforeOf_spec rows latest (payeeNormalized r) Hl) as Hsb.
    assert ((∃ r0, r0 ∈ rows ∧ payeeNormalized r0 = payeeNormalized r
               ∧ isBillCandidate (markCandidate (payeeStatsOf rows) r0) = true
               ∧ isSpend r0 = true ∧ monthKey r0 ≠ latest)
            ↔ (∃ r0, r0 ∈ rows ∧ payeeNormalized r0 = payeeNormalized r
               ∧ isBillCandidate (markCandidate (payeeStatsOf rows) r0) = true
               ∧ isSpend r0 = true ∧ earlierThan latest (monthKey r0)))
      as Hearlier.
    { split; intros (r0 & Hr0 & Hp & Hc & Hs & Hm); exists r0;
        (repeat split; try done);
        by apply (spend_month_earlier rows latest r0). }
    rewrite Hearlier in Hsb. clear Hearlier.
    destruct (isBillCandidate (markCandidate (payeeStatsOf rows) r));
      [|intuition (auto; discriminate)].
    destruct (bool_decide (payeeNormalized r ∈ presentLatestOf rows)) eqn:Ep.
    { apply bool_decide_eq_true in Ep. apply Hpl in Ep.
      intuition (auto; discriminate). }
    apply bool_decide_eq_false in Ep. rewrite Hpl in Ep.
    destruct (bool_decide (payeeNormalized r ∈ seenBeforeOf rows)) eqn:Es.
    { apply bool_decide_eq_true in Es. apply Hsb in Es.
      intuition (auto; discriminate). }
    apply bool_decide_eq_false in Es. rewrite Hsb in Es.
    intuition (auto; discriminate).
  - intros Hnone c Hc.
    rewrite applyBillStatus_no_spend in Hc.
    { apply elem_of_map in Hc as (r & _ & ->). done. }
    destruct (filter _ rows) as [|r l] eqn:E; [done|].
    assert (r ∈ filter (λ r, isSpend r = true) rows) as Hr
      by (rewrite E; left).
    apply list_elem_of_filter in Hr as [Hs Hr].
    rewrite (Hnone r Hr) in Hs. done.
Qed.

(** C2, counterexample to the claim as worded: in the sample batch the
    payee has a candidate spend row in the latest month, 2024-02, yet its
    card payment, which is not a candidate, is [not_bill] and not
    [active]: the status is not one per payee. *)
Lemma applyBillStatus_status_not_per_payee :
  let out := applyBillStatus gymBatch in
  latestOf (spendMonths gymBatch) = Some "2024-02"
  ∧ map payeeNormalized out = ["gym"; "gym"; "gym"]
  ∧ map monthKey out = ["2024-01"; "2024-02"; "2024-02"]
  ∧ map isSpend out = [true; true; true]
  ∧ map isBillCandidate out = [true; true; false]
  ∧ map billStatus out = ["active"; "active"; "not_bill"].
Proof. by vm_compute. Qed.

(** ** Required amounts *)

Lemma sumQ_snoc l a : (sumQ (l ++ [a]) == sumQ l + a)%Q.
Proof.
  unfold sumQ. induction l as [|x l IH]; simpl.
  - ring.
  - eapply Qeq_trans; [apply Qplus_inj_l, IH|]. ring.
Qed.

Lemma orZero_Some q : (orZero (Some q) == q)%Q.
Proof.
  unfold orZero. destruct (Qeq_bool q 0) eqn:E; [|done].
  apply Qeq_bool_iff in E. by apply Qeq_sym.
Qed.

Lemma addTotals_soFar latest seen acc row :
  latestTotalsSoFar latest seen acc.1 →
  latestTotalsSoFar latest (seen ++ [row])
    (addTotals (Some latest) acc row).1.
Proof.
  destruct acc as [latestTotals allTotals]. simpl. intros H p.
  unfold addTotals. destruct (default _ (allTotals !! _)) as [sum count].
  cbn [fst]. specialize (H p). cbv zeta in *. rewrite filter_app.
  destruct (bool_decide (Some (monthKey row) = Some latest)) eqn:Em.
  - apply bool_decide_eq_true in Em. injection Em as Em.
    destruct (decide (payeeNormalized row = p)) as [Hp|Hp].
    + subst p. rewrite lookup_insert_eq.
      rewrite (filter_cons_True _ row) by done. rewrite filter_nil.
      split; [by destruct (filter _ seen)|].
      rewrite map_app. simpl map.
      eapply Qeq_trans; [|apply Qeq_sym, sumQ_snoc].
      apply Qplus_inj_r.
      destruct (latestTotals !! payeeNormalized row) as [q|].
      * destruct H as [_ H]. eapply Qeq_trans; [apply orZero_Some|exact H].
      * by rewrite H.
    + rewrite lookup_insert_ne by done.
      rewrite (filter_cons_False _ row) by naive_solver.
      by rewrite filter_nil, app_nil_r.
  - apply bool_decide_eq_false in Em.
    rewrite (filter_cons_False _ row) by naive_solver.
    by rewrite filter_nil, app_nil_r.
Qed.

Lemma totalsOf_soFar rows latest :
  latestOf (spendMonths rows) = Some latest →
  latestTotalsSoFar latest (activeSpendOf rows) (totalsOf rows).1.
Proof.
  intros Hl. unfold totalsOf. rewrite Hl.
  assert (∀ l seen acc,
            latestTotalsSoFar latest seen acc.1 →
            latestTotalsSoFar latest (seen ++ l)
              (foldl (addTotals (Some latest)) acc l).1) as Hfold.
  { induction l as [|row l IH]; intros seen acc H; simpl.
    - by rewrite app_nil_r.
    - rewrite cons_middle, app_assoc. by apply IH, addTotals_soFar. }
  by apply (Hfold (activeSpendOf rows) [] (∅, ∅)).
Qed.

Lemma map_filter_map_ext {A B C} (g1 g2 : A → B) (f : B → C)
    (P1 P2 : B → Prop) `{!∀ x, Decision (P1 x)} `{!∀ x, Decision (P2 x)}
    (l : list A) :
  (∀ x, P1 (g1 x) ↔ P2 (g2 x)) → (∀ x, f (g1 x) = f (g2 x)) →
  map f (filter P1 (map g1 l)) = map f (filter P2 (map g2 l)).
Proof.
  intros HP Hf. induction l as [|x l IH]; [done|]. simpl.
  rewrite !filter_cons. destruct (decide (P1 (g1 x))) as [H1|H1].
  - rewrite decide_True by by apply HP. simpl. by rewrite IH, Hf.
  - rewrite decide_False by by rewrite <- HP. done.
Qed.

(** The amounts [latestTotals] adds up for a payee are those of the
    payee's active spend rows of the latest month in the output. *)
Lemma activeSpend_amounts rows latest p :
  filter (λ r, isSpend r = true) rows ≠ [] →
  map amountAbs
    (filter (λ c, payeeNormalized c = p ∧ monthKey c = latest)
       (activeSpendOf rows))
  = map amountAbs (activeSpendIn (applyBillStatus rows) p latest).
Proof.
  intros Hne. unfold activeSpendOf, activeSpendIn.
  rewrite applyBillStatus_unfold by done.
  rewrite list_filter_filter.
  apply map_filter_map_ext.
  - intros r. rewrite billRow_status.
    destruct (keyFields_inv _ _ (billRow_keyFields rows r))
      as (-> & -> & -> & _).
    destruct (keyFields_inv _ _ (statusRow_keyFields rows r))
      as (-> & -> & -> & _).
    rewrite andb_true_iff, String.eqb_eq. tauto.
  - intros r.
    destruct (keyFields_inv _ _ (billRow_keyFields rows r))
      as (_ & _ & _ & _ & _ & ->).
    by destruct (keyFields_inv _ _ (statusRow_keyFields rows r))
      as (_ & _ & _ & _ & _ & ->).
Qed.

Lemma billRow_required rows r :
  requiredAmountExact (billRow rows r) =
  if negb (String.eqb (billStatus (statusRow rows r)) "active") then 0%Q
  else
    match (totalsOf rows).1 !! payeeNormalized r with
    | Some latest => latest
    | None =>
        match (totalsOf rows).2 !! payeeNormalized r with
        | Some (sum, count) => (sum / inject_Z (Z.of_nat count))%Q
        | None => 0%Q
        end
    end.
Proof.
  unfold billRow, assignRequired.
  destruct (keyFields_inv _ _ (statusRow_keyFields rows r)) as (-> & _).
  by destruct (negb _).
Qed.

Lemma filter_ext_elem {A} (P Q : A → Prop) `{!∀ x, Decision (P x)}
    `{!∀ x, Decision (Q x)} (l : list A) :
  (∀ x, x ∈ l → P x ↔ Q x) → filter P l = filter Q l.
Proof.
  induction l as [|x l IH]; intros Hext; [done|].
  rewrite !(filter_cons _ x l).
  assert (filter P l = filter Q l) as ->.
  { apply IH. intros y Hy. apply Hext. by right. }
  destruct (decide (P x)) as [HP|HP].
  - rewrite decide_True; [done|]. apply Hext; [left|done].
  - rewrite decide_False; [done|]. intros HQ. apply HP, Hext; [left|done].
Qed.

(** C1, as the code has it.  A row that is not [active] has required
    amount 0.  A row that is [active] has as its required amount the sum
    of the absolute amounts of its payee's spend rows of the latest month
    that are themselves [active], of which there is at least one (so the
    mean is never used); these are all the spend rows of the payee in that
    month when each of them is a bill candidate. *)
Theorem applyBillStatus_required (rows : list TransactionRow) :
  let out := applyBillStatus rows in
  Forall (λ c,
    (billStatus c ≠ "active" → requiredAmountExact c = 0%Q)
    ∧ (billStatus c = "active" →
       ∃ latest, isLatestMonth rows latest
         ∧ activeSpendIn out (payeeNormalized c) latest ≠ []
         ∧ (requiredAmountExact c ==
            sumQ (map amountAbs
                    (activeSpendIn out (payeeNormalized c) latest)))%Q
         ∧ (Forall (λ r, isBillCandidate r = true)
                   (spendIn out (payeeNormalized c) latest) →
            activeSpendIn out (payeeNormalized c) latest
            = spendIn out (payeeNormalized c) latest)))
    out.
Proof.
  intros out. subst out. apply Forall_forall. intros c Hc.
  destruct (filter (λ r, isSpend r = true) rows) as [|r0 l0] eqn:Hspend.
  { rewrite applyBillStatus_no_spend in Hc by done.
    apply elem_of_map in Hc as (r & _ & ->). done. }
  assert (filter (λ r, isSpend r = true) rows ≠ []) as Hne by by rewrite Hspend.
  clear Hspend.
  apply elem_of_applyBillStatus in Hc as (r & Hr & ->); [|done].
  rewrite billRow_status, billRow_required.
  destruct (keyFields_inv _ _ (billRow_keyFields rows r)) as (-> & _).
  split.
  { intros Hna. apply String.eqb_neq in Hna. by rewrite Hna. }
  intros Hact. rewrite Hact. simpl.
  destruct (latestOf_spend rows Hne) as (latest & Hl & Hlatest).
  exists latest. split; [done|].
  pose proof (totalsOf_soFar rows latest Hl (payeeNormalized r)) as Htot.
  cbv zeta in Htot.
  assert (activeSpendIn (applyBillStatus rows) (payeeNormalized r) latest
          ≠ []) as Hsome.
  { (* the candidate spend row that makes the payee present is active *)
    rewrite statusRow_status in Hact.
    destruct (isBillCandidate (markCandidate (payeeStatsOf rows) r));
      [|done].
    destruct (bool_decide (payeeNormalized r ∈ presentLatestOf rows)) eqn:Ep.
    2:{ by destruct (bool_decide (_ ∈ seenBeforeOf rows)). }
    apply bool_decide_eq_true in Ep as Ep'.
    apply (presentLatestOf_spec rows latest _ Hl) in Ep'
      as (r1 & Hr1 & Hp1 & Hc1 & Hs1 & Hm1).
    assert (billRow rows r1
            ∈ activeSpendIn (applyBillStatus rows) (payeeNormalized r) latest)
      as Hin.
    { unfold activeSpendIn. apply list_elem_of_filter.
      rewrite elem_of_applyBillStatus by done.
      split; [|eauto].
      destruct (keyFields_inv _ _ (billRow_keyFields rows r1))
        as (-> & -> & -> & _).
      rewrite billRow_status, statusRow_status, Hc1, Hp1, Ep. done. }
    intros Hnil. rewrite Hnil in Hin. by apply elem_of_nil in Hin. }
  split; [done|]. split.
  - rewrite <- activeSpend_amounts by done.
    destruct ((totalsOf rows).1 !! payeeNormalized r) as [q|].
    + by destruct Htot.
    + exfalso. apply Hsome. apply (f_equal (map amountAbs)) in Htot.
      rewrite activeSpend_amounts in Htot by done.
      by destruct (activeSpendIn _ _ _).
  - intros Hall. unfold activeSpendIn, spendIn in *.
    apply filter_ext_elem. intros c Hc. split; [tauto|].
    intros (Hs & Hp & Hm). split; [|done].
    assert (isBillCandidate c = true) as Hcand.
    { apply (proj1 (Forall_forall _ _) Hall). by apply list_elem_of_filter. }
    apply elem_of_applyBillStatus in Hc as (r1 & Hr1 & ->); [|done].
    destruct (keyFields_inv _ _ (billRow_keyFields rows r1)) as (Ep1 & _).
    rewrite billRow_candidate in Hcand. rewrite Ep1 in Hp.
    rewrite billRow_status, statusRow_status, Hcand, Hp.
    rewrite statusRow_status in Hact.
    destruct (isBillCandidate (markCandidate (payeeStatsOf rows) r));
      [|done].
    destruct (bool_decide (payeeNormalized r ∈ presentLatestOf rows));
      [done|].
    by destruct (bool_decide (_ ∈ seenBeforeOf rows)).
Qed.

(** C1, counterexample to the claim as worded: in the sample batch the
    spend rows of the payee in the latest month, 2024-02, amount to
    10 + 5 = 15, and the required amount of its active rows is 10, the
    card payment not being a bill candidate. *)
Lemma applyBillStatus_required_active_only :
  let out := applyBillStatus gymBatch in
  latestOf (spendMonths gymBatch) = Some "2024-02"
  ∧ map billStatus out = ["active"; "active"; "not_bill"]
  ∧ map requiredAmountExact out = [10%Q; 10%Q; 0%Q]
  ∧ map amountAbs (spendIn out "gym" "2024-02") = [10%Q; 5%Q]
  ∧ (sumQ (map amountAbs (spendIn out "gym" "2024-02")) == 15)%Q
  ∧ ¬ (10 == 15)%Q.
Proof. by vm_compute. Qed.

(** ** The variable summary *)

Lemma groupGet_addGroup groups cat amt c :
  groupGet (addGroup groups cat amt) c =
  if decide (c = cat) then
    Some match groupGet groups cat with
         | Some (total, count) => ((total + amt)%Q, S count)
         | None => ((0 + amt)%Q, 1)
         end
  else groupGet groups c.
Proof.
  induction groups as [|[k [total count]] rest IH]; simpl.
  - destruct (decide (c = cat)) as [->|Hne].
    + by rewrite String.eqb_refl.
    + apply not_eq_sym, String.eqb_neq in Hne. by rewrite Hne.
  - destruct (String.eqb k cat) eqn:Ek; simpl.
    + apply String.eqb_eq in Ek as ->.
      destruct (decide (c = cat)) as [->|Hne].
      * by rewrite String.eqb_refl.
      * apply not_eq_sym, String.eqb_neq in Hne. by rewrite Hne.
    + destruct (String.eqb k c) eqn:Ec.
      * apply String.eqb_eq in Ec as ->. apply String.eqb_neq in Ek.
        by rewrite decide_False.
      * apply IH.
Qed.

Lemma addGroup_keys groups cat amt :
  map fst (addGroup groups cat amt) =
  if decide (cat ∈ map fst groups) then map fst groups
  else map fst groups ++ [cat].
Proof.
  induction groups as [|[k [total count]] rest IH]; cbn [addGroup map fst].
  - rewrite decide_False; [done|]. by intros ?%elem_of_nil.
  - destruct (String.eqb k cat) eqn:Ek; cbn [map fst].
    + apply String.eqb_eq in Ek as ->. rewrite decide_True; [done|]. left.
    + apply String.eqb_neq in Ek. rewrite IH.
      destruct (decide (cat ∈ map fst rest)).
      * rewrite decide_True; [done|]. by right.
      * rewrite decide_False; [done|]. rewrite elem_of_cons. naive_solver.
Qed.

Lemma addGroup_NoDup groups cat amt :
  NoDup (map fst groups) → NoDup (map fst (addGroup groups cat amt)).
Proof.
  intros H. rewrite addGroup_keys. destruct (decide _); [done|].
  apply NoDup_app. split; [done|]. split; [|apply NoDup_singleton].
  intros x Hx ->%list_elem_of_singleton. done.
Qed.

Lemma groupGet_elem groups cat v :
  NoDup (map fst groups) → (cat, v) ∈ groups → groupGet groups cat = Some v.
Proof.
  induction groups as [|[k v'] rest IH]; simpl.
  - by intros _ ?%elem_of_nil.
  - intros [Hk Hnd]%NoDup_cons [[= <- <-]|Hin]%elem_of_cons.
    + by rewrite String.eqb_refl.
    + destruct (String.eqb k cat) eqn:Ek; [|by apply IH].
      apply String.eqb_eq in Ek as ->. exfalso. apply Hk.
      apply elem_of_map. by exists (cat, v).
Qed.

Lemma totalsAgree_step groups totals t :
  totalsAgree groups totals →
  totalsAgree (addGroup groups (categoryFinal t) (amountAbs t))
    (addThisMonth totals t).
Proof.
  intros H cat. rewrite groupGet_addGroup. unfold addThisMonth.
  destruct (decide (cat = categoryFinal t)) as [->|Hne].
  - rewrite lookup_insert_eq. specialize (H (categoryFinal t)).
    destruct (groupGet groups (categoryFinal t)) as [[total count]|].
    + destruct H as (q & -> & Hq). eexists. split; [done|].
      apply Qplus_inj_r. eapply Qeq_trans; [apply orZero_Some|done].
    + rewrite H. eexists. split; [done|]. simpl. reflexivity.
  - rewrite lookup_insert_ne by done. apply H.
Qed.

Lemma totalsAgree_fold (base : list TransactionRow) :
  let groups :=
    foldl (λ g t, addGroup g (categoryFinal t) (amountAbs t)) [] base in
  NoDup (map fst groups) ∧ totalsAgree groups (foldl addThisMonth ∅ base).
Proof.
  cbv zeta.
  assert (∀ groups totals,
            NoDup (map fst groups) → totalsAgree groups totals →
            NoDup (map fst (foldl (λ g t, addGroup g (categoryFinal t)
                                            (amountAbs t)) groups base))
            ∧ totalsAgree
                (foldl (λ g t, addGroup g (categoryFinal t) (amountAbs t))
                   groups base)
                (foldl addThisMonth totals base)) as Hfold.
  { induction base as [|t base IH]; intros groups totals Hnd H; simpl.
    - done.
    - apply IH; [by apply addGroup_NoDup | by apply totalsAgree_step]. }
  apply Hfold; [constructor|]. by intros cat.
Qed.

Lemma round2_comp x y : (x == y)%Q → round2 x = round2 y.
Proof.
  intros H. unfold round2, Math_round.
  assert (x * 100 + (1 # 2) == y * 100 + (1 # 2))%Q as H' by by rewrite H.
  by rewrite (Qfloor_comp _ _ H').
Qed.

Lemma filter_idemp {A} (P : A → Prop) `{!∀ x, Decision (P x)} (l : list A) :
  filter P (filter P l) = filter P l.
Proof.
  induction l as [|x l IH]; [done|]. rewrite (filter_cons _ x l).
  destruct (decide (P x)); [|done].
  by rewrite filter_cons_True, IH.
Qed.

Lemma one_month_count (base : list TransactionRow) (latest : option string) :
  Nat.max 1
    (size (list_to_set
             (map monthKey (filter (λ t, Some (monthKey t) = latest) base))
           : gset string)) = 1.
Proof.
  set (months := list_to_set _ : gset string).
  assert (∀ k, k ∈ months → Some k = latest) as Hall.
  { intros k. unfold months. rewrite elem_of_list_to_set, elem_of_map.
    by intros (t & [Ht _]%list_elem_of_filter & ->). }
  assert (size months ≤ 1); [|lia].
  destruct latest as [m|].
  - rewrite <- (size_singleton (C:=gset string) m). apply subseteq_size.
    intros k Hk. apply Hall in Hk as [= ->]. set_solver.
  - assert (size months = 0) as ->; [|lia].
    apply size_empty_iff. intros k. split; [|by intros ?%not_elem_of_empty].
    intros Hk. by apply Hall in Hk.
Qed.

(** C10.  With the timeframe [this_month] every category of the summary
    has [avgMonthly] equal to [thisMonthActual]: the rows kept are those
    of the latest month, so the number of distinct months is 1 and both
    figures round the same total. *)
Theorem buildVariableSummary_this_month (transactions : list TransactionRow) :
  Forall (λ vc, vc_avgMonthly vc = vc_thisMonthActual vc)
         (buildVariableSummary transactions this_month).
Proof.
  unfold buildVariableSummary.
  set (base0 := filter _ transactions).
  destruct (Nat.eqb (length base0) 0); [constructor|].
  set (latest := last (sortedMonths (map monthKey base0))).
  set (base := filter (λ t, Some (monthKey t) = latest) base0).
  destruct (Nat.eqb (length base) 0); [constructor|].
  subst base. rewrite one_month_count, filter_idemp.
  set (base := filter (λ t, Some (monthKey t) = latest) base0).
  destruct (totalsAgree_fold base) as [Hnd Hagree].
  apply Forall_forall. intros vc Hvc.
  rewrite sortStable_Permutation in Hvc.
  apply elem_of_map in Hvc as ([cat [total count]] & Hin & ->). simpl.
  apply round2_comp.
  specialize (Hagree cat). rewrite (groupGet_elem _ _ _ Hnd Hin) in Hagree.
  destruct Hagree as (q & -> & Hq).
  eapply Qeq_trans; [|apply Qeq_sym; eapply Qeq_trans; [apply orZero_Some|exact Hq]].
  change (inject_Z (Z.of_nat 1)) with 1%Q. field.
Qed.

(** ** Input errors *)

Lemma parseRow_undated genId label file allRows raw :
  ¬ dated raw → parseRow genId label file allRows raw = allRows.
Proof.
  unfold dated, parseRow. destruct (parseDateDDMMYYYY _); [|done].
  intros []. eauto.
Qed.

Lemma parseRow_dated genId label file allRows raw :
  dated raw →
  length (parseRow genId label file allRows raw) = S (length allRows).
Proof.
  unfold dated, parseRow. intros [d ->]. rewrite length_app. simpl. lia.
Qed.

Lemma foldl_parseRow genId label file recs allRows :
  foldl (parseRow genId label file) allRows recs
  = foldl (parseRow genId label file) allRows (filter dated recs)
  ∧ length (foldl (parseRow genId label file) allRows recs)
    = length allRows + length (filter dated recs).
Proof.
  revert allRows. induction recs as [|raw recs IH]; intros allRows.
  { simpl. split; [done|lia]. }
  rewrite (filter_cons _ raw). destruct (decide (dated raw)) as [Hd|Hd].
  - simpl. destruct (IH (parseRow genId label file allRows raw)) as [-> ->].
    split; [done|]. rewrite parseRow_dated by done. lia.
  - simpl. rewrite parseRow_undated by done. apply IH.
Qed.

Lemma parseFiles_ok genId files idx allRows :
  (∀ f, f ∈ files → ∃ recs, records f = Ok recs) →
  ∃ rows,
    parseFiles genId idx files allRows = Ok rows
    ∧ parseFiles genId idx (map dropUndated files) allRows = Ok rows
    ∧ length rows = length allRows + length (datedRecords files).
Proof.
  revert idx allRows. induction files as [|f files IH]; intros idx allRows Hok.
  { exists allRows. simpl. repeat split. lia. }
  destruct (Hok f) as [recs Hrecs]; [left|].
  simpl. unfold recordsOf. rewrite !Hrecs. simpl.
  destruct (foldl_parseRow genId (if Nat.eqb idx 0 then "Personal" else "Joint")
              (fileName f) recs allRows) as [Hfold Hlen].
  rewrite <- Hfold.
  destruct (IH (S idx) (foldl (parseRow genId
                                 (if Nat.eqb idx 0 then "Personal" else "Joint")
                                 (fileName f)) allRows recs))
    as (rows & H1 & H2 & H3).
  { intros f' Hf'. apply Hok. by right. }
  exists rows. repeat split; [done..|]. rewrite H3, Hlen, length_app. lia.
Qed.

Lemma applyExclusions_nil cfg : applyExclusions cfg [] = [].
Proof.
  unfold applyExclusions.
  by destruct (exclude_zero_amount cfg) as [[]|].
Qed.

Lemma runPipelineShared_nil rules cfg overrides :
  runOutput rules cfg [] 0 overrides = emptyOutput.
Proof.
  unfold runOutput, withBillsOf. rewrite applyExclusions_nil. by vm_compute.
Qed.

(** C5, as the code has it.  The pipeline fails when it is given no file
    at all.  Given files that csv-parse accepts, the records whose date
    does not parse are left out and the others become the rows, so the
    same input without the undated records gives the same rows.  The
    pipeline then fails, with a [TypeError], exactly when a row that
    survives the exclusions is matched by no rule and has a provider
    category that names a property of [Object.prototype]; otherwise it
    returns its output, [rawCount] counting the dated records.  When no
    record has a date that parses the result is the empty output, not a
    failure. *)
Theorem runFullPipelineFromContent_errors (genId : nat → string)
    (rules : list Rule) (exclusionRules : ExclusionRules)
    (overrides : gmap string string) :
  runFullPipelineFromContent genId rules exclusionRules [] overrides
  = Err "No CSV files provided"
  ∧ ∀ files,
      files ≠ [] → (∀ f, f ∈ files → ∃ recs, records f = Ok recs) →
      ∃ rows,
        parseMonzoCsvContents genId files
        = Ok (rows, length (datedRecords files))
        ∧ parseMonzoCsvContents genId (map dropUndated files)
          = Ok (rows, length (datedRecords files))
        ∧ length rows = length (datedRecords files)
        ∧ (Exists (throwsOn rules) (applyExclusions exclusionRules rows) →
           runFullPipelineFromContent genId rules exclusionRules files
             overrides = Err NOT_ITERABLE)
        ∧ (Forall (λ row, ¬ throwsOn rules row)
                  (applyExclusions exclusionRules rows) →
           ∃ out,
             runFullPipelineFromContent genId rules exclusionRules files
               overrides = Ok out
             ∧ runFullPipelineFromContent genId rules exclusionRules
                 (map dropUndated files) overrides = Ok out
             ∧ rawCount out = length (datedRecords files))
        ∧ (datedRecords files = [] →
           runFullPipelineFromContent genId rules exclusionRules files
             overrides = Ok emptyOutput).
Proof.
  split; [done|]. intros files Hne Hok.
  unfold runFullPipelineFromContent, parseMonzoCsvContents.
  rewrite length_map.
  destruct files as [|f files]; [done|]. cbn [length Nat.eqb].
  destruct (parseFiles_ok genId (f :: files) 0 [] Hok)
    as (rows & -> & -> & Hlen).
  cbn [length Nat.add] in Hlen. exists rows. rewrite Hlen.
  split; [done|]. split; [done|]. split; [done|].
  destruct (runPipelineShared_cases rules exclusionRules rows
              (length (datedRecords (f :: files))) overrides)
    as [[Ht ->]|[Hn ->]].
  - split; [done|]. split.
    + intros Hall. exfalso.
      apply Exists_exists in Ht as (row & Hrow & Hthrows).
      by apply (proj1 (Forall_forall _ _) Hall row).
    + intros Hnone. rewrite Hnone in Hlen. destruct rows; [|done].
      rewrite applyExclusions_nil in Ht. by apply Exists_nil in Ht.
  - split.
    + intros Ht. exfalso.
      apply Exists_exists in Ht as (row & Hrow & Hthrows).
      by apply (proj1 (Forall_forall _ _) Hn row).
    + split; [by eauto|].
      intros Hnone. rewrite Hnone in Hlen. destruct rows; [|done].
      rewrite Hnone. simpl. by rewrite runPipelineShared_nil.
Qed.

(** C5, counterexample to the claim as worded: a file whose every record
    has a date that does not parse yields no valid row, and the pipeline
    returns the empty output instead of failing. *)
Lemma runFullPipelineFromContent_no_valid_rows :
  datedRecords undatedFiles = []
  ∧ parseMonzoCsvContents (λ _, "0") undatedFiles = Ok ([], 0)
  ∧ runFullPipelineFromContent (λ _, "0") [] noExclusions undatedFiles ∅
    = Ok emptyOutput.
Proof. by vm_compute. Qed.

(** A dated row of category [constructor] that no rule matches makes the
    pipeline throw; a rule that matches its payee makes it return. *)
Example runFullPipelineFromContent_inherited_category :
  runFullPipelineFromContent (λ _, "0") [] noExclusions constructorFiles ∅
  = Err NOT_ITERABLE
  ∧ runFullPipelineFromContent (λ _, "0") [netflixRule] noExclusions
      constructorFiles ∅ = Err NOT_ITERABLE
  ∧ match runFullPipelineFromContent (λ _, "0") [tescoRule] noExclusions
            constructorFiles ∅ with
    | Ok out =>
        map (λ r, (payeeNormalized r, categoryFinal r, confidenceReason r))
            (transactions out)
        = [("tesco", "Groceries", "rule")]
    | Err _ => False
    end.
Proof. by vm_compute. Qed.

(** ** The scenario of the specification, run through the model *)

Example netflix_scenario :
  match runFullPipelineFromContent (λ _, "0") [netflixRule] noExclusions
          netflixFiles ∅ with
  | Ok out =>
      map (λ r, (payeeNormalized r, monthKey r, categoryFinal r,
                 billStatus r, requiredAmountExact r, typicalDay r))
          (transactions out)
      = [ ("netflix com", "2024-01", "Streaming", "active", 9.99%Q, Some 15%Z);
          ("netflix com", "2024-02", "Streaming", "active", 9.99%Q, Some 15%Z);
          ("netflix com", "2024-03", "Streaming", "active", 9.99%Q, Some 15%Z) ]
      ∧ latestMonth out = "2024-03" ∧ spendCount out = 3
  | Err _ => False
  end.
Proof. by vm_compute. Qed.

Example sequenceMatcherRatio_values :
  sequenceMatcherRatio "tesco stores 1234" "tesco stores 5678" = (26 # 34)%Q
  ∧ sequenceMatcherRatio "abcd" "bd" = (4 # 6)%Q
  ∧ sequenceMatcherRatio "" "x" = 0%Q
  ∧ sequenceMatcherRatio "spar" "spar" = 1%Q.
Proof. by vm_compute. Qed.


(** * Further properties *)

(** ** Payee keys *)

Lemma chars_rev_app s a :
  chars (String.rev_app s a) = rev_append (chars s) (chars a).
Proof. revert a. induction s as [|c s IH]; intros a; simpl; [done|]. apply IH. Qed.

Lemma chars_rev s : chars (String.rev s) = reverse (chars s).
Proof. apply chars_rev_app. Qed.

Lemma chars_trimStart s : chars (trimStart s) = ltrim (chars s).
Proof.
  induction s as [|c s IH]; simpl; [done|].
  by destruct (isWhiteSpace c).
Qed.

Lemma chars_trim s :
  chars (trim s) = reverse (ltrim (reverse (ltrim (chars s)))).
Proof.
  unfold trim, trimEnd.
  by rewrite chars_rev, chars_trimStart, chars_rev, chars_trimStart.
Qed.

Lemma ltrim_spec l :
  ∃ ws, l = ws ++ ltrim l ∧ Forall (λ c, isWhiteSpace c = true) ws
        ∧ startsClean (ltrim l).
Proof.
  induction l as [|c l (ws & Hl & Hws & Hc)]; simpl.
  { by exists []. }
  destruct (isWhiteSpace c) eqn:E.
  - exists (c :: ws). split; [by rewrite <- app_comm_cons, <- Hl|].
    split; [by constructor|done].
  - by exists [].
Qed.

Lemma ltrim_clean l : startsClean l → ltrim l = l.
Proof. destruct l as [|c l]; simpl; [done|]. by intros ->. Qed.

Lemma noAdjacentSpace_app l1 l2 :
  noAdjacentSpace (l1 ++ l2) → noAdjacentSpace l1 ∧ noAdjacentSpace l2.
Proof.
  induction l1 as [|a l1 IH]; simpl; [done|].
  intros [Ha Ht]. destruct (IH Ht) as [H1 H2]. split; [|done].
  split; [|done]. by destruct l1.
Qed.

Lemma noAdjacentSpace_snoc l a :
  noAdjacentSpace l →
  (∀ b, last l = Some b → ¬ (isWhiteSpace b = true ∧ isWhiteSpace a = true)) →
  noAdjacentSpace (l ++ [a]).
Proof.
  induction l as [|b l IH]; simpl; [done|].
  intros [Hb Ht] Hlast. split.
  - destruct l as [|c l]; simpl; [by apply Hlast|done].
  - apply IH; [done|]. intros b' Hb'. apply Hlast.
    destruct l; [done|]. by rewrite last_cons_cons.
Qed.

Lemma noAdjacentSpace_reverse l :
  noAdjacentSpace l → noAdjacentSpace (reverse l).
Proof.
  induction l as [|a l IH]; [done|]. simpl. intros [Ha Ht].
  rewrite reverse_cons. apply noAdjacentSpace_snoc; [by apply IH|].
  intros b. rewrite last_reverse. destruct l as [|b' l]; [done|].
  simpl. intros [= <-]. tauto.
Qed.

(** Trimming keeps what holds of every character and of adjacent
    characters, and leaves both ends clean. *)
Lemma trim_shape (P : ascii → Prop) l :
  Forall P l → noAdjacentSpace l →
  let m := reverse (ltrim (reverse (ltrim l))) in
  Forall P m ∧ startsClean m ∧ startsClean (reverse m) ∧ noAdjacentSpace m.
Proof.
  intros HP Hadj m.
  destruct (ltrim_spec l) as (ws1 & Hl & _ & Hc1).
  destruct (ltrim_spec (reverse (ltrim l))) as (ws2 & Hr & _ & Hc2).
  assert (ltrim l = m ++ reverse ws2) as Hm.
  { rewrite <- (reverse_involutive (ltrim l)), Hr, reverse_app. done. }
  assert (Forall P (ltrim l) ∧ noAdjacentSpace (ltrim l)) as [HP1 Hadj1].
  { rewrite Hl in HP, Hadj. apply Forall_app in HP as [_ HP].
    by apply noAdjacentSpace_app in Hadj as [_ Hadj]. }
  rewrite Hm in HP1, Hadj1, Hc1.
  apply Forall_app in HP1 as [HP1 _].
  apply noAdjacentSpace_app in Hadj1 as [Hadj1 _].
  repeat split; [done| |by subst m; rewrite reverse_involutive|done].
  by destruct m.
Qed.

Lemma trim_fixed s :
  startsClean (chars s) → startsClean (reverse (chars s)) → trim s = s.
Proof.
  intros H1 H2. apply chars_inj. rewrite chars_trim.
  by rewrite (ltrim_clean _ H1), (ltrim_clean _ H2), reverse_involutive.
Qed.

Lemma payeeClass_space c :
  payeeClass c = true → isWhiteSpace c = true → c = " "%char.
Proof.
  unfold payeeClass, isWhiteSpace. intros Hc Hw.
  rewrite <- (ascii_nat_embedding c).
  assert (nat_of_ascii c = 32) as ->; [|done].
  apply orb_true_iff in Hw as [Hw|Hw]; [by apply Nat.eqb_eq|].
  apply andb_true_iff in Hw as [?%Nat.leb_le ?%Nat.leb_le].
  rewrite !orb_true_iff, !andb_true_iff, !Nat.leb_le, !Nat.eqb_eq in Hc. lia.
Qed.

Lemma payeeClass_lower c : payeeClass c = true → lowerChar c = c.
Proof.
  unfold payeeClass, lowerChar. intros Hc.
  rewrite !orb_true_iff, !andb_true_iff, !Nat.leb_le, !Nat.eqb_eq in Hc.
  destruct (Nat.leb 65 _ && _) eqn:E; [|done].
  apply andb_true_iff in E as [?%Nat.leb_le ?%Nat.leb_le]. lia.
Qed.

Lemma toLowerCase_fixed s :
  Forall (λ c, payeeClass c = true) (chars s) → toLowerCase s = s.
Proof.
  induction s as [|c s IH]; simpl; [done|].
  intros [Hc Hs]%Forall_cons. by rewrite payeeClass_lower, IH.
Qed.

Lemma replaceRuns_class_fixed b s :
  Forall (λ c, payeeClass c = true) (chars s) →
  replaceRuns payeeClass b s = s.
Proof.
  revert b. induction s as [|c s IH]; intros b; simpl; [done|].
  intros [Hc Hs]%Forall_cons. by rewrite Hc, IH.
Qed.

Lemma replaceRuns_class b s :
  Forall (λ c, payeeClass c = true) (chars (replaceRuns payeeClass b s)).
Proof.
  revert b. induction s as [|c s IH]; intros b; simpl; [constructor|].
  destruct (payeeClass c) eqn:E; simpl; [by constructor|].
  destruct b; [done|]. by constructor.
Qed.

Lemma replaceRuns_space_class b s :
  Forall (λ c, payeeClass c = true) (chars s) →
  Forall (λ c, payeeClass c = true)
         (chars (replaceRuns (λ c, negb (isWhiteSpace c)) b s)).
Proof.
  revert b. induction s as [|c s IH]; intros b; simpl; [constructor|].
  intros [Hc Hs]%Forall_cons.
  destruct (isWhiteSpace c); simpl; [|by constructor; auto].
  destruct b; [auto|]. constructor; [done|auto].
Qed.

(** Collapsing leaves no two white-space characters in a row, and none
    at the head when the previous character was white space. *)
Lemma replaceRuns_space_adjacent b s :
  let o := chars (replaceRuns (λ c, negb (isWhiteSpace c)) b s) in
  noAdjacentSpace o ∧ (b = true → startsClean o).
Proof.
  revert b. induction s as [|c s IH]; intros b; simpl; [done|].
  destruct (isWhiteSpace c) eqn:E; simpl.
  - destruct b.
    + apply IH.
    + destruct (IH true) as [Hadj Hclean]. simpl. split; [|done].
      split; [|done].
      destruct (chars _) as [|d o]; [done|].
      simpl in Hclean. rewrite Hclean by done. intros [_ ?]. done.
  - destruct (IH false) as [Hadj _]. simpl. split; [|by rewrite E].
    split; [|done]. destruct (chars _); [done|]. rewrite E. intros [? _]. done.
Qed.

Lemma replaceRuns_space_fixed b s :
  Forall (λ c, payeeClass c = true) (chars s) →
  noAdjacentSpace (chars s) → (b = true → startsClean (chars s)) →
  replaceRuns (λ c, negb (isWhiteSpace c)) b s = s.
Proof.
  revert b. induction s as [|c s IH]; intros b; simpl; [done|].
  intros [Hc Hs]%Forall_cons [Ha Hadj] Hb.
  destruct (isWhiteSpace c) eqn:E; simpl.
  - destruct b; [specialize (Hb eq_refl); simpl in Hb; congruence|].
    rewrite (payeeClass_space c Hc E). f_equal. apply IH; [done..|].
    intros _. destruct (chars s) as [|d l]; [done|]. simpl.
    destruct (isWhiteSpace d) eqn:Ed; [|done]. exfalso. by apply Ha.
  - f_equal. by apply IH.
Qed.

Lemma normalizePayee_keyShape value : keyShape (chars (normalizePayee value)).
Proof.
  unfold normalizePayee, keyShape. rewrite chars_trim.
  apply trim_shape.
  - apply replaceRuns_space_class, replaceRuns_class.
  - apply (replaceRuns_space_adjacent false).
Qed.

(** X1.  A key made by [normalizePayee] holds only characters of
    [a-z0-9+& ], neither starts nor ends with a space, and has no two
    spaces in a row. *)
Theorem normalizePayee_shape (value : string) :
  let key := chars (normalizePayee value) in
  Forall (λ c, payeeClass c = true) key
  ∧ head key ≠ Some " "%char ∧ last key ≠ Some " "%char
  ∧ ∀ i, key !! i = Some " "%char → key !! S i ≠ Some " "%char.
Proof.
  intros key. destruct (normalizePayee_keyShape value) as (Hc & Hh & Hl & Ha).
  fold key in Hc, Hh, Hl, Ha. split; [done|]. split; [|split].
  - destruct key as [|c k]; [done|]. simpl in *. by intros [= ->].
  - rewrite <- head_reverse. destruct (reverse key) as [|c k]; [done|].
    simpl in *. by intros [= ->].
  - clear Hc Hh Hl. induction key as [|a k IH]; intros i; [done|].
    destruct Ha as [Ha Hk]. destruct i as [|i]; simpl.
    + intros [= ->]. destruct k as [|b k]; [done|]. simpl.
      intros [= ->]. by apply Ha.
    + by apply IH.
Qed.

(** X2.  [normalizePayee] is idempotent: a key normalizes to itself. *)
Theorem normalizePayee_idempotent (value : string) :
  normalizePayee (normalizePayee value) = normalizePayee value.
Proof.
  destruct (normalizePayee_keyShape value) as (Hc & Hh & Hl & Ha).
  set (key := normalizePayee value) in *. unfold normalizePayee at 1.
  rewrite (trim_fixed key Hh Hl), (toLowerCase_fixed key Hc).
  rewrite (replaceRuns_class_fixed false key Hc).
  rewrite (replaceRuns_space_fixed false key Hc Ha) by done.
  by apply trim_fixed.
Qed.


(** ** Classification *)

Lemma categorizeRow_reset rules r k cat grp bill conf reason rid :
  classified rules
    (set_classification cat grp bill conf reason rid (set_payeeNormalized k r))
  = classified rules r.
Proof. reflexivity. Qed.

Lemma categorizeRow_reset_class rules r cat grp bill conf reason rid :
  classified rules (set_classification cat grp bill conf reason rid r)
  = classified rules r.
Proof. reflexivity. Qed.

Lemma classified_form rules r :
  ∃ cat grp bill conf reason rid,
    classified rules r
    = set_classification cat grp bill conf reason rid
        (set_payeeNormalized (normalizePayee (name r)) r).
Proof.
  unfold classified, categorizeRow. simpl.
  destruct (matchRule _ _); [by repeat eexists|].
  destruct (FALLBACK_CATEGORY_MAP _) as [[[[??]?]?]| |]; by repeat eexists.
Qed.

Lemma categorizeRow_idempotent rules r :
  classified rules (classified rules r) = classified rules r.
Proof.
  destruct (classified_form rules r)
    as (cat & grp & bill & conf & reason & rid & H).
  rewrite H at 1. apply categorizeRow_reset.
Qed.

Lemma categorizeRow_fuzzyRow rules m r :
  classified rules (fuzzyRow m r) = classified rules r.
Proof.
  unfold fuzzyRow. destruct (_ || _); [done|].
  destruct (bestMatch _ _) as [[key|] score]; [|done].
  destruct (_ && _); [|done].
  destruct (knownGet _ _); [apply categorizeRow_reset_class|done].
Qed.

Lemma pass1_categorize rules rows :
  pass1Rows rules (categorized rules rows) = pass1Rows rules rows.
Proof.
  rewrite categorize_unfold. unfold pass1Rows. rewrite !map_map.
  apply map_ext. intros r.
  by rewrite categorizeRow_fuzzyRow, categorizeRow_idempotent.
Qed.

Lemma categorized_idempotent (rules : list Rule)
    (rows : list TransactionRow) :
  categorized rules (categorized rules rows) = categorized rules rows.
Proof.
  rewrite (categorize_unfold rules (categorized rules rows)).
  rewrite pass1_categorize. symmetry. apply categorize_unfold.
Qed.


Lemma categorizeRow_frame rules r :
  rawFields (classified rules r) = rawFields r
  ∧ billFields (classified rules r) = billFields r
  ∧ spendFields (classified rules r) = spendFields r
  ∧ payeeNormalized (classified rules r) = normalizePayee (name r).
Proof.
  unfold classified, categorizeRow. simpl.
  destruct (matchRule _ _); [done|].
  by destruct (FALLBACK_CATEGORY_MAP _) as [[[[??]?]?]| |].
Qed.

Lemma fuzzyRow_frame m r :
  rawFields (fuzzyRow m r) = rawFields r
  ∧ billFields (fuzzyRow m r) = billFields r
  ∧ payeeNormalized (fuzzyRow m r) = payeeNormalized r.
Proof.
  unfold fuzzyRow. destruct (_ || _); [done|].
  destruct (bestMatch _ _) as [[key|] score]; [|done].
  destruct (_ && _); [|done]. by destruct (knownGet _ _).
Qed.

Lemma categorize_maps rules rows :
  map rawFields (categorized rules rows) = map rawFields rows
  ∧ map billFields (categorized rules rows) = map billFields rows
  ∧ map spendFields (categorized rules rows) = map spendFields rows
  ∧ map payeeNormalized (categorized rules rows)
    = map (λ r, normalizePayee (name r)) rows.
Proof.
  rewrite categorize_unfold. unfold pass1Rows. rewrite !map_map.
  repeat split; apply map_ext; intros r;
    destruct (fuzzyRow_frame (buildKnownMap (map (classified rules) rows))
                (classified rules r)) as (H1 & H2 & H3);
    destruct (categorizeRow_frame rules r) as (H4 & H5 & H6 & H7);
    try congruence.
  rewrite fuzzyRow_fields. done.
Qed.

Lemma map_eq_elem {A B} (f : A → B) (l l' : list A) x :
  map f l = map f l' → x ∈ l → ∃ y, y ∈ l' ∧ f x = f y.
Proof.
  intros Hmap Hx.
  assert (f x ∈ map f l') as Hfx.
  { rewrite <- Hmap. apply elem_of_map. eauto. }
  apply elem_of_map in Hfx as (y & Hy & Hf). eauto.
Qed.

Lemma throwsOn_rawFields rules r r' :
  rawFields r = rawFields r' → throwsOn rules r → throwsOn rules r'.
Proof.
  unfold rawFields, throwsOn. intros H.
  assert (name r = name r' ∧ monzoCategory r = monzoCategory r') as [-> ->]
    by (split; congruence).
  done.
Qed.

Lemma categorized_throwsOn rules rows :
  Forall (λ row, ¬ throwsOn rules row) rows →
  Forall (λ row, ¬ throwsOn rules row) (categorized rules rows).
Proof.
  intros Hn. apply Forall_forall. intros r Hr Ht.
  destruct (categorize_maps rules rows) as (Hraw & _).
  destruct (map_eq_elem rawFields _ _ r Hraw Hr) as (r0 & Hr0 & Heq).
  apply (proj1 (Forall_forall _ _) Hn r0 Hr0).
  by apply (throwsOn_rawFields rules r r0).
Qed.

(** X29.  [categorize] throws a [TypeError] exactly when the batch has a
    row that no rule matches and whose provider category names a property
    of [Object.prototype], such as [constructor]: the fallback lookup then
    finds an inherited value, which is truthy and cannot be destructured.
    On every other batch it returns a batch of the same length. *)
Theorem categorize_throws (rules : list Rule) (rows : list TransactionRow) :
  (Exists (throwsOn rules) rows ∧ categorize rules rows = Err NOT_ITERABLE)
  ∨ (Forall (λ row, ¬ throwsOn rules row) rows
     ∧ ∃ out, categorize rules rows = Ok out ∧ length out = length rows).
Proof.
  destruct (categorize_cases rules rows) as [[Ht ->]|[Hn ->]];
    [by left|right].
  split; [done|]. eexists. split; [done|].
  rewrite categorize_unfold. unfold pass1Rows. by rewrite !length_map.
Qed.

(** X3.  [categorize] is idempotent: it classifies from the name and the
    provider category alone, so running it on its own output changes
    nothing. *)
Theorem categorize_idempotent (rules : list Rule)
    (rows : list TransactionRow) :
  match categorize rules rows with
  | Ok out => categorize rules out = Ok out
  | Err _ => True
  end.
Proof.
  destruct (categorize_cases rules rows) as [[_ ->]|[Hn ->]]; [done|].
  destruct (categorize_cases rules (categorized rules rows))
    as [[Ht _]|[_ ->]].
  - exfalso. apply Exists_exists in Ht as (r & Hr & Ht).
    by apply (proj1 (Forall_forall _ _) (categorized_throwsOn _ _ Hn) r).
  - by rewrite categorized_idempotent.
Qed.

(** X4.  [categorize] keeps the batch in order and writes only the
    classification of a row: the identifying, amount and bill fields of
    every row are as they were, and its key is [normalizePayee] of its
    name. *)
Theorem categorize_frame (rules : list Rule) (rows : list TransactionRow) :
  match categorize rules rows with
  | Ok out =>
      map rawFields out = map rawFields rows
      ∧ map billFields out = map billFields rows
      ∧ map spendFields out = map spendFields rows
      ∧ map payeeNormalized out = map (λ r, normalizePayee (name r)) rows
  | Err _ => True
  end.
Proof.
  destruct (categorize_cases rules rows) as [[_ ->]|[_ ->]]; [done|].
  apply categorize_maps.
Qed.

Lemma categorized_confident_rule (rules : list Rule)
    (rows : list TransactionRow) (i : nat) (r : TransactionRow)
    (rule : Rule) :
  rows !! i = Some r →
  matchRule rules (normalizePayee (name r)) = Some rule →
  (0.7 <= rule_confidence rule)%Q →
  ∃ r', categorized rules rows !! i = Some r'
        ∧ categoryFinal r' = rule_category rule
        ∧ categoryGroup r' = rule_group rule
        ∧ isBillRule r' = rule_isBill rule
        ∧ confidenceScore r' = rule_confidence rule
        ∧ confidenceReason r' = "rule"
        ∧ ruleIdApplied r' = rule_id rule.
Proof.
  intros Hr Hm Hc. rewrite categorize_unfold. unfold pass1Rows.
  eexists. split.
  { apply map_lookup_Some, map_lookup_Some, Hr. }
  assert (classified rules r
          = set_classification (rule_category rule) (rule_group rule)
              (rule_isBill rule) (rule_confidence rule) "rule" (rule_id rule)
              (set_classification "Unmapped - Needs Review" "variable" false
                 0%Q "none" ""
                 (set_payeeNormalized (normalizePayee (name r)) r))) as ->.
  { unfold classified, categorizeRow. simpl. by rewrite Hm. }
  unfold fuzzyRow. simpl.
  apply Qle_bool_iff in Hc. by rewrite Hc.
Qed.

(** X5.  A rule that matches the key of a row with a confidence of 0.70
    or more settles the row: [categorize] returns it with the category,
    group, bill flag, confidence and identifier of the first such rule and
    the reason [rule]; fuzzy resolution does not touch it. *)
Theorem categorize_confident_rule (rules : list Rule)
    (rows : list TransactionRow) (i : nat) (r : TransactionRow)
    (rule : Rule) :
  rows !! i = Some r →
  matchRule rules (normalizePayee (name r)) = Some rule →
  (0.7 <= rule_confidence rule)%Q →
  match categorize rules rows with
  | Ok out =>
      ∃ r', out !! i = Some r'
            ∧ categoryFinal r' = rule_category rule
            ∧ categoryGroup r' = rule_group rule
            ∧ isBillRule r' = rule_isBill rule
            ∧ confidenceScore r' = rule_confidence rule
            ∧ confidenceReason r' = "rule"
            ∧ ruleIdApplied r' = rule_id rule
  | Err _ => True
  end.
Proof.
  intros Hr Hm Hc.
  destruct (categorize_cases rules rows) as [[_ ->]|[_ ->]]; [done|].
  by apply (categorized_confident_rule rules rows i r rule).
Qed.

(** X5 on a batch of one row that the rule [netflixRule] matches: the
    batch is returned, and its row is the rule's. *)
Lemma categorize_confident_rule_netflix :
  match categorize [netflixRule] [netflixRow] with
  | Ok out =>
      ∃ r', out !! 0 = Some r'
            ∧ categoryFinal r' = rule_category netflixRule
            ∧ categoryGroup r' = rule_group netflixRule
            ∧ isBillRule r' = rule_isBill netflixRule
            ∧ confidenceScore r' = rule_confidence netflixRule
            ∧ confidenceReason r' = "rule"
            ∧ ruleIdApplied r' = rule_id netflixRule
  | Err _ => True
  end
  ∧ ∃ out, categorize [netflixRule] [netflixRow] = Ok out.
Proof.
  split; [|eexists; vm_compute; reflexivity].
  apply (categorize_confident_rule [netflixRule] [netflixRow] 0 netflixRow
           netflixRule); [reflexivity|reflexivity|].
  unfold Qle; simpl; lia.
Defined.

Lemma categorized_trusted_rows (rules : list Rule)
    (rows : list TransactionRow) :
  Forall (λ r,
    (0.9 <= confidenceScore r)%Q →
    confidenceReason r = "rule"
    ∧ ∃ rule, matchRule rules (payeeNormalized r) = Some rule
              ∧ categoryFinal r = rule_category rule
              ∧ categoryGroup r = rule_group rule
              ∧ isBillRule r = rule_isBill rule
              ∧ confidenceScore r = rule_confidence rule
              ∧ ruleIdApplied r = rule_id rule)
    (categorized rules rows).
Proof.
  rewrite categorize_unfold. apply Forall_forall. intros r' Hr' Hconf.
  apply elem_of_map in Hr' as (r1 & Hr1 & ->).
  destruct (fuzzyRow_spec rules rows r1)
    as [(_ & k & _ & _ & Hc & _)|[_ Heq]].
  { exfalso. rewrite Hc in Hconf.
    pose proof (clamp_bounds (sequenceMatcherRatio (payeeNormalized r1) k))
      as [_ Hhi].
    pose proof (Qle_trans _ _ _ Hconf Hhi) as Habs. by vm_compute in Habs. }
  rewrite Heq in *. clear Heq.
  apply elem_of_pass1 in Hr1 as (row & ->).
  revert Hconf. unfold classified, categorizeRow; simpl.
  destruct (matchRule rules (normalizePayee (name row))) as [rule|] eqn:E;
    simpl.
  { intros _. split; [done|]. exists rule. by rewrite E. }
  unfold FALLBACK_CATEGORY_MAP.
  repeat (destruct (String.eqb (monzoCategory row) _); simpl;
          [by intros H; vm_compute in H|]).
  by intros H; vm_compute in H.
Qed.

(** X6.  After [categorize] a confidence of 0.90 or more is the mark of a
    rule: such a row has the reason [rule] and the category of the first
    rule that matches its key.  Fallback and fuzzy classifications stay
    below 0.90, so only rule matches seed fuzzy resolution. *)
Theorem categorize_trusted_rows_are_rule_matches (rules : list Rule)
    (rows : list TransactionRow) :
  match categorize rules rows with
  | Ok out =>
      Forall (λ r,
        (0.9 <= confidenceScore r)%Q →
        confidenceReason r = "rule"
        ∧ ∃ rule, matchRule rules (payeeNormalized r) = Some rule
                  ∧ categoryFinal r = rule_category rule
                  ∧ categoryGroup r = rule_group rule
                  ∧ isBillRule r = rule_isBill rule
                  ∧ confidenceScore r = rule_confidence rule
                  ∧ ruleIdApplied r = rule_id rule) out
  | Err _ => True
  end.
Proof.
  destruct (categorize_cases rules rows) as [[_ ->]|[_ ->]]; [done|].
  apply categorized_trusted_rows.
Qed.


(** ** The stages of the pipeline *)

Lemma excludeRow_frame types patterns r :
  rawFields (excludeRow types patterns r) = rawFields r
  ∧ classFields (excludeRow types patterns r) = classFields r
  ∧ billFields (excludeRow types patterns r) = billFields r.
Proof. done. Qed.

Lemma filter_nonzero (rows : list TransactionRow) :
  filter (λ r, negb (Qeq_bool (amount r) 0) = true) rows
  = filter (λ r, Qeq_bool (amount r) 0 = false) rows.
Proof. apply list_filter_iff. intros r. by rewrite negb_true_iff. Qed.

Lemma applyExclusions_unfold cfg rows :
  applyExclusions cfg rows =
  map (excludeRow
         (list_to_set (default [] (internal_transfer_types cfg)))
         (map toLowerCase (default [] (internal_transfer_name_patterns cfg))))
      (keptRows cfg rows).
Proof.
  unfold applyExclusions, keptRows.
  destruct (exclude_zero_amount cfg) as [[]|]; by rewrite ?filter_nonzero.
Qed.

Lemma matchesPattern_spec nameLower patterns :
  matchesPattern nameLower patterns = true ↔
  ∃ p, p ∈ patterns ∧ includes nameLower p = true.
Proof.
  induction patterns as [|p patterns IH]; simpl.
  - split; [done|]. by intros (p & ?%elem_of_nil & _).
  - destruct (includes nameLower p) eqn:E.
    + split; [|done]. intros _. exists p. split; [left|done].
    + rewrite IH. split.
      * intros (q & Hq & Hm). exists q. split; [by right|done].
      * intros (q & [->|Hq]%elem_of_cons & Hm); [congruence|eauto].
Qed.

Lemma applyExclusions_maps cfg rows :
  map rawFields (applyExclusions cfg rows) = map rawFields (keptRows cfg rows)
  ∧ map classFields (applyExclusions cfg rows)
    = map classFields (keptRows cfg rows)
  ∧ map billFields (applyExclusions cfg rows)
    = map billFields (keptRows cfg rows).
Proof. rewrite applyExclusions_unfold, !map_map. by repeat split. Qed.

(** X7.  [applyExclusions] keeps the rows in order, drops those whose
    amount is zero unless [exclude_zero_amount] is [false], and writes
    nothing but the two flags: so with the option on no row of the result
    has a zero amount, and with it off no row is dropped. *)
Theorem applyExclusions_kept (exclusionRules : ExclusionRules)
    (rows : list TransactionRow) :
  let out := applyExclusions exclusionRules rows in
  map rawFields out = map rawFields (keptRows exclusionRules rows)
  ∧ map classFields out = map classFields (keptRows exclusionRules rows)
  ∧ map billFields out = map billFields (keptRows exclusionRules rows)
  ∧ (exclude_zero_amount exclusionRules ≠ Some false →
     Forall (λ r, ¬ (amount r == 0)%Q) out)
  ∧ (exclude_zero_amount exclusionRules = Some false →
     length out = length rows).
Proof.
  intros out. subst out.
  destruct (applyExclusions_maps exclusionRules rows) as (-> & -> & ->).
  split; [done|]. split; [done|]. split; [done|].
  rewrite applyExclusions_unfold. split.
  - intros Hon. unfold keptRows.
    destruct (exclude_zero_amount exclusionRules) as [[]|]; [|done|];
      rewrite Forall_map; apply Forall_forall;
      intros r [Hr _]%list_elem_of_filter; simpl;
      by intros ?%Qeq_bool_iff; congruence.
  - intros Hoff. unfold keptRows. rewrite Hoff. apply length_map.
Qed.

(** X8.  [applyExclusions] flags a row as an internal transfer exactly
    when its type is one of the configured transfer types or its name
    contains one of the configured patterns, case apart; and a row is
    spend-eligible exactly when its amount is negative and it is not so
    flagged. *)
Theorem applyExclusions_internal (exclusionRules : ExclusionRules)
    (rows : list TransactionRow) :
  Forall (λ r,
    (isInternalTransfer r = true
     ↔ hasTransferType exclusionRules r ∨ matchesTransferName exclusionRules r)
    ∧ (isSpend r = true
       ↔ (amount r < 0)%Q ∧ ¬ hasTransferType exclusionRules r
         ∧ ¬ matchesTransferName exclusionRules r))
    (applyExclusions exclusionRules rows).
Proof.
  rewrite applyExclusions_unfold, Forall_map. apply Forall_forall.
  intros r _. unfold excludeRow, hasTransferType, matchesTransferName. simpl.
  set (types := default [] (internal_transfer_types exclusionRules)).
  set (patterns := default [] (internal_transfer_name_patterns exclusionRules)).
  assert (matchesPattern (toLowerCase (name r)) (map toLowerCase patterns)
          = true
          ↔ ∃ pattern, pattern ∈ patterns
              ∧ includes (toLowerCase (name r)) (toLowerCase pattern) = true)
    as Hpat.
  { rewrite matchesPattern_spec. split.
    - intros (p & (q & Hq & ->)%elem_of_map & Hm). eauto.
    - intros (q & Hq & Hm). exists (toLowerCase q). split; [|done].
      apply elem_of_map. eauto. }
  assert ((if negb (bool_decide (type r ∈ (list_to_set types : gset string)))
           then matchesPattern (toLowerCase (name r))
                  (map toLowerCase patterns)
           else bool_decide (type r ∈ (list_to_set types : gset string)))
          = true
          ↔ type r ∈ types
            ∨ ∃ pattern, pattern ∈ patterns
                ∧ includes (toLowerCase (name r)) (toLowerCase pattern) = true)
    as Hint.
  { destruct (bool_decide (type r ∈ (list_to_set types : gset string))) eqn:E;
      simpl.
    - apply bool_decide_eq_true, elem_of_list_to_set in E. tauto.
    - apply bool_decide_eq_false in E. rewrite elem_of_list_to_set in E.
      rewrite Hpat. tauto. }
  split; [done|].
  rewrite andb_true_iff, Qltb_lt, negb_true_iff, <- not_true_iff_false, Hint.
  tauto.
Qed.

Lemma applyPayeeOverrides_frame rows overrides :
  map rawFields (applyPayeeOverrides rows overrides) = map rawFields rows
  ∧ map billFields (applyPayeeOverrides rows overrides) = map billFields rows
  ∧ map spendFields (applyPayeeOverrides rows overrides)
    = map spendFields rows
  ∧ map payeeNormalized (applyPayeeOverrides rows overrides)
    = map payeeNormalized rows.
Proof.
  unfold applyPayeeOverrides. rewrite !map_map.
  repeat split; apply map_ext; intros r;
    (destruct (overrides !! _) as [cat|]; [|done]); by destruct (truthy cat).
Qed.

Lemma markCandidate_frame stats r :
  rawFields (markCandidate stats r) = rawFields r
  ∧ classFields (markCandidate stats r) = classFields r
  ∧ spendFields (markCandidate stats r) = spendFields r
  ∧ typicalDay (markCandidate stats r) = typicalDay r.
Proof. unfold markCandidate. by destruct (default _ _). Qed.

Lemma assignStatus_frame pl sb r :
  rawFields (assignStatus pl sb r) = rawFields r
  ∧ classFields (assignStatus pl sb r) = classFields r
  ∧ spendFields (assignStatus pl sb r) = spendFields r
  ∧ typicalDay (assignStatus pl sb r) = typicalDay r.
Proof. unfold assignStatus. by destruct (negb _). Qed.

Lemma assignRequired_frame lt tot r :
  rawFields (assignRequired lt tot r) = rawFields r
  ∧ classFields (assignRequired lt tot r) = classFields r
  ∧ spendFields (assignRequired lt tot r) = spendFields r
  ∧ typicalDay (assignRequired lt tot r) = typicalDay r.
Proof. unfold assignRequired. by destruct (negb _). Qed.

Lemma billRow_frame rows r :
  rawFields (billRow rows r) = rawFields r
  ∧ classFields (billRow rows r) = classFields r
  ∧ spendFields (billRow rows r) = spendFields r
  ∧ typicalDay (billRow rows r) = typicalDay r.
Proof.
  unfold billRow, statusRow.
  destruct (assignRequired_frame (totalsOf rows).1 (totalsOf rows).2
              (assignStatus (presentLatestOf rows) (seenBeforeOf rows)
                 (markCandidate (payeeStatsOf rows) r)))
    as (-> & -> & -> & ->).
  destruct (assignStatus_frame (presentLatestOf rows) (seenBeforeOf rows)
              (markCandidate (payeeStatsOf rows) r)) as (-> & -> & -> & ->).
  apply markCandidate_frame.
Qed.

Lemma applyBillStatus_frame rows :
  map rawFields (applyBillStatus rows) = map rawFields rows
  ∧ map classFields (applyBillStatus rows) = map classFields rows
  ∧ map spendFields (applyBillStatus rows) = map spendFields rows
  ∧ map typicalDay (applyBillStatus rows) = map typicalDay rows.
Proof.
  destruct (decide (filter (λ r, isSpend r = true) rows = [])) as [He|Hne].
  - rewrite applyBillStatus_no_spend by done. rewrite !map_map.
    repeat split; by apply map_ext.
  - rewrite applyBillStatus_unfold by done. rewrite !map_map.
    repeat split; apply map_ext; intros r; apply billRow_frame.
Qed.


Lemma addDay_daysOf seen m row :
  (∀ p, m !! p = if decide (daysOf seen p = []) then None
                 else Some (daysOf seen p)) →
  ∀ p, addDay m row !! p =
       if decide (daysOf (seen ++ [row]) p = []) then None
       else Some (daysOf (seen ++ [row]) p).
Proof.
  intros H p. unfold addDay, daysOf in *. rewrite filter_app, map_app.
  destruct (String.eqb (billStatus row) "active" && isSpend row) eqn:E.
  - apply andb_true_iff in E as [Ea%String.eqb_eq Es].
    destruct (decide (payeeNormalized row = p)) as [<-|Hp].
    + rewrite lookup_insert_eq, H.
      rewrite (filter_cons_True _ row) by done. rewrite filter_nil. simpl.
      rewrite (decide_False (P := _ ++ _ = [])).
      2:{ by destruct (map day _). }
      by destruct (decide _) as [->|].
    + rewrite lookup_insert_ne, H by done.
      rewrite (filter_cons_False _ row) by naive_solver.
      by rewrite filter_nil, app_nil_r.
  - rewrite H. rewrite (filter_cons_False _ row).
    + by rewrite filter_nil, app_nil_r.
    + intros (Ha & Hs & _). rewrite Ha, Hs in E. done.
Qed.

Lemma billPayeeDays_daysOf rows p :
  foldl addDay ∅ rows !! p =
  if decide (daysOf rows p = []) then None else Some (daysOf rows p).
Proof.
  assert (∀ l seen m,
            (∀ p, m !! p = if decide (daysOf seen p = []) then None
                           else Some (daysOf seen p)) →
            ∀ p, foldl addDay m l !! p =
                 if decide (daysOf (seen ++ l) p = []) then None
                 else Some (daysOf (seen ++ l) p)) as Hfold.
  { induction l as [|row l IH]; intros seen m H q; simpl.
    - by rewrite app_nil_r.
    - rewrite cons_middle, app_assoc. by apply IH, addDay_daysOf. }
  by apply (Hfold rows [] ∅).
Qed.

(** The output of [runPipelineShared], loop by loop. *)
Lemma runPipelineShared_transactions rules cfg rows n overrides :
  transactions (runOutput rules cfg rows n overrides) =
  map (λ row,
         if String.eqb (billStatus row) "active" then
           set_typicalDay
             (medianDay
                <$> (if decide (daysOf (withBillsOf rules cfg rows overrides)
                                  (payeeNormalized row) = [])
                     then None
                     else Some (daysOf (withBillsOf rules cfg rows overrides)
                                  (payeeNormalized row)))) row
         else row)
      (withBillsOf rules cfg rows overrides).
Proof.
  unfold runOutput. simpl. fold (withBillsOf rules cfg rows overrides).
  apply map_ext. intros row. destruct (String.eqb _ _); [|done].
  by rewrite lookup_fmap, billPayeeDays_daysOf.
Qed.

Lemma withBillsOf_frame rules cfg rows overrides :
  map rawFields (withBillsOf rules cfg rows overrides)
  = map rawFields (keptRows cfg rows)
  ∧ map spendFields (withBillsOf rules cfg rows overrides)
    = map spendFields (applyExclusions cfg rows)
  ∧ map typicalDay (withBillsOf rules cfg rows overrides)
    = map typicalDay (keptRows cfg rows)
  ∧ map classFields (withBillsOf rules cfg rows overrides)
    = map classFields
        (applyPayeeOverrides (categorized rules (applyExclusions cfg rows))
           overrides).
Proof.
  unfold withBillsOf.
  destruct (applyBillStatus_frame
              (applyPayeeOverrides (categorized rules (applyExclusions cfg rows))
                 overrides)) as (-> & -> & -> & ->).
  destruct (applyPayeeOverrides_frame
              (categorized rules (applyExclusions cfg rows)) overrides)
    as (-> & Hb & -> & _).
  destruct (categorize_maps rules (applyExclusions cfg rows))
    as (-> & Hb' & -> & _).
  destruct (applyExclusions_maps cfg rows) as (-> & _ & Hb'').
  repeat split.
  assert (∀ l l' : list TransactionRow,
            map billFields l = map billFields l' →
            map typicalDay l = map typicalDay l') as Htd.
  { intros l l' H.
    apply (f_equal (map (λ x : bool * string * Q * option Z, x.2))) in H.
    by rewrite !map_map in H. }
  rewrite (Htd _ _ Hb), (Htd _ _ Hb'). by apply Htd.
Qed.

Lemma length_filter_spend (l l' : list TransactionRow) :
  map spendFields l = map spendFields l' →
  length (filter (λ r, isSpend r = true) l)
  = length (filter (λ r, isSpend r = true) l').
Proof.
  revert l'. induction l as [|r l IH]; intros [|r' l']; try done.
  simpl. intros [= Hs _ _ Hl]. rewrite !filter_cons, Hs.
  destruct (decide (isSpend r' = true)); simpl; by rewrite (IH l' Hl).
Qed.

Lemma typicalRow_frame (td : option Z) (row : TransactionRow) :
  let row' :=
    if String.eqb (billStatus row) "active" then set_typicalDay td row
    else row in
  rawFields row' = rawFields row ∧ classFields row' = classFields row
  ∧ spendFields row' = spendFields row ∧ billStatus row' = billStatus row
  ∧ isBillCandidate row' = isBillCandidate row
  ∧ requiredAmountExact row' = requiredAmountExact row
  ∧ payeeNormalized row' = payeeNormalized row.
Proof. simpl. by destruct (String.eqb _ _). Qed.

Lemma runPipelineShared_maps rules cfg rows n overrides :
  map rawFields (transactions (runOutput rules cfg rows n overrides))
  = map rawFields (keptRows cfg rows)
  ∧ map spendFields
      (transactions (runOutput rules cfg rows n overrides))
    = map spendFields (applyExclusions cfg rows).
Proof.
  destruct (withBillsOf_frame rules cfg rows overrides)
    as (Hraw & Hspend & _ & _).
  rewrite runPipelineShared_transactions, !map_map.
  rewrite <- Hraw, <- Hspend. split; apply map_ext; intros row.
  - apply (typicalRow_frame _ row).
  - apply (typicalRow_frame _ row).
Qed.

Lemma runOutput_frame (rules : list Rule)
    (exclusionRules : ExclusionRules) (rows : list TransactionRow)
    (n : nat) (overrides : gmap string string) :
  let out := runOutput rules exclusionRules rows n overrides in
  map rawFields (transactions out)
  = map rawFields (keptRows exclusionRules rows)
  ∧ map spendFields (transactions out)
    = map spendFields (applyExclusions exclusionRules rows)
  ∧ rawCount out = n
  ∧ spendCount out
    = length (filter (λ r, isSpend r = true)
                (applyExclusions exclusionRules rows)).
Proof.
  intros out.
  destruct (runPipelineShared_maps rules exclusionRules rows n overrides)
    as [H1 H2].
  split; [done|]. split; [done|]. split; [done|].
  by apply length_filter_spend.
Qed.

(** X9.  [runPipelineShared] returns the rows that [applyExclusions]
    keeps, in their order, with the identifying and amount fields of each
    as they came in; [rawCount] is the count it was given, and
    [spendCount] is the number of rows [applyExclusions] found
    spend-eligible, the later stages changing neither flag. *)
Theorem runPipelineShared_frame (rules : list Rule)
    (exclusionRules : ExclusionRules) (rows : list TransactionRow)
    (n : nat) (overrides : gmap string string) :
  match runPipelineShared rules exclusionRules rows n overrides with
  | Ok out =>
      map rawFields (transactions out)
      = map rawFields (keptRows exclusionRules rows)
      ∧ map spendFields (transactions out)
        = map spendFields (applyExclusions exclusionRules rows)
      ∧ rawCount out = n
      ∧ spendCount out
        = length (filter (λ r, isSpend r = true)
                    (applyExclusions exclusionRules rows))
  | Err _ => True
  end.
Proof.
  destruct (runPipelineShared_cases rules exclusionRules rows n overrides)
    as [[_ ->]|[_ ->]]; [done|].
  apply runOutput_frame.
Qed.

Lemma runOutput_override_wins (rules : list Rule)
    (exclusionRules : ExclusionRules) (rows : list TransactionRow)
    (n : nat) (overrides : gmap string string) :
  Forall (λ t,
    match overrides !! payeeNormalized t with
    | Some cat =>
        cat ≠ "" →
        categoryFinal t = cat ∧ confidenceScore t = 1%Q
        ∧ confidenceReason t = "user_override"
        ∧ ruleIdApplied t = "payee_override"
    | None => True
    end)
    (transactions (runOutput rules exclusionRules rows n overrides)).
Proof.
  rewrite runPipelineShared_transactions, Forall_map. apply Forall_forall.
  intros w Hw.
  destruct (typicalRow_frame
              (medianDay
                 <$> (if decide (daysOf (withBillsOf rules exclusionRules rows
                                           overrides) (payeeNormalized w) = [])
                      then None
                      else Some (daysOf (withBillsOf rules exclusionRules rows
                                           overrides) (payeeNormalized w)))) w)
    as (_ & Hc & _).
  cbv zeta in Hc. injection Hc as -> -> _ _ -> -> ->.
  destruct (withBillsOf_frame rules exclusionRules rows overrides)
    as (_ & _ & _ & Hclass).
  destruct (map_eq_elem classFields _ _ w Hclass Hw) as (o & Ho & Hwo).
  injection Hwo as -> -> _ _ -> -> ->. clear Hclass Hw.
  unfold applyPayeeOverrides in Ho.
  apply elem_of_map in Ho as (c & _ & ->).
  destruct (overrides !! payeeNormalized c) as [cat|] eqn:E.
  - destruct (truthy cat) eqn:Et; simpl; rewrite E.
    + done.
    + intros Hne%truthy_true. congruence.
  - by rewrite E.
Qed.

(** X10.  A user override wins in the output of the pipeline: every
    transaction whose key has an override that is not the empty string
    carries the override's category, confidence 1 and the reason
    [user_override], whatever rules, fallback, fuzzy resolution and bill
    detection did. *)
Theorem runPipelineShared_override_wins (rules : list Rule)
    (exclusionRules : ExclusionRules) (rows : list TransactionRow)
    (n : nat) (overrides : gmap string string) :
  match runPipelineShared rules exclusionRules rows n overrides with
  | Ok out =>
      Forall (λ t,
        match overrides !! payeeNormalized t with
        | Some cat =>
            cat ≠ "" →
            categoryFinal t = cat ∧ confidenceScore t = 1%Q
            ∧ confidenceReason t = "user_override"
            ∧ ruleIdApplied t = "payee_override"
        | None => True
        end) (transactions out)
  | Err _ => True
  end.
Proof.
  destruct (runPipelineShared_cases rules exclusionRules rows n overrides)
    as [[_ ->]|[_ ->]]; [done|].
  apply runOutput_override_wins.
Qed.


Lemma applyBillStatus_row_cases rows c :
  c ∈ applyBillStatus rows →
  (billStatus c ≠ "active" → requiredAmountExact c = 0%Q)
  ∧ (billStatus c = "active" →
     requiredAmountExact c = requiredOf rows (payeeNormalized c)
     ∧ daysOf (applyBillStatus rows) (payeeNormalized c) ≠ []).
Proof.
  intros Hc.
  destruct (decide (filter (λ r, isSpend r = true) rows = [])) as [He|Hne].
  { rewrite applyBillStatus_no_spend in Hc by done.
    apply elem_of_map in Hc as (r & _ & ->). done. }
  apply elem_of_applyBillStatus in Hc as (r & Hr & ->); [|done].
  rewrite billRow_status, billRow_required.
  destruct (keyFields_inv _ _ (billRow_keyFields rows r)) as (-> & _).
  split.
  { intros Hna. apply String.eqb_neq in Hna. by rewrite Hna. }
  intros Hact. rewrite Hact. simpl. split; [done|].
  destruct (latestOf_spend rows Hne) as (latest & Hl & _).
  rewrite statusRow_status in Hact.
  destruct (isBillCandidate (markCandidate (payeeStatsOf rows) r)); [|done].
  destruct (bool_decide (payeeNormalized r ∈ presentLatestOf rows)) eqn:Ep.
  2:{ by destruct (bool_decide (_ ∈ seenBeforeOf rows)). }
  apply bool_decide_eq_true in Ep as Ep'.
  apply (presentLatestOf_spec rows latest _ Hl) in Ep'
    as (r1 & Hr1 & Hp1 & Hc1 & Hs1 & Hm1).
  assert (day (billRow rows r1)
          ∈ daysOf (applyBillStatus rows) (payeeNormalized r)) as Hin.
  { unfold daysOf. apply elem_of_map. exists (billRow rows r1).
    split; [|done]. apply list_elem_of_filter.
    rewrite elem_of_applyBillStatus by done. split; [|eauto].
    destruct (keyFields_inv _ _ (billRow_keyFields rows r1))
      as (-> & _ & -> & _).
    rewrite billRow_status, statusRow_status, Hc1, Hp1, Ep. done. }
  intros Hnil. rewrite Hnil in Hin. by apply elem_of_nil in Hin.
Qed.

Lemma daysOf_ext (l l' : list TransactionRow) p :
  map (λ r, (billStatus r, isSpend r, payeeNormalized r, day r)) l
  = map (λ r, (billStatus r, isSpend r, payeeNormalized r, day r)) l' →
  daysOf l p = daysOf l' p.
Proof.
  unfold daysOf. revert l'. induction l as [|r l IH]; intros [|r' l']; try done.
  simpl. intros [= Hb Hs Hp Hd Hl]. rewrite !filter_cons.
  rewrite Hb, Hs, Hp. destruct (decide _); simpl; by rewrite ?Hd, (IH l' Hl).
Qed.

Lemma runPipelineShared_daysOf rules cfg rows n overrides p :
  daysOf (transactions (runOutput rules cfg rows n overrides)) p
  = daysOf (withBillsOf rules cfg rows overrides) p.
Proof.
  apply daysOf_ext. rewrite runPipelineShared_transactions, map_map.
  apply map_ext. intros row. simpl. by destruct (String.eqb _ _).
Qed.

(** What the typical-day loop leaves in a row of the output. *)
Lemma runPipelineShared_row rules cfg rows n overrides t :
  t ∈ transactions (runOutput rules cfg rows n overrides) →
  let txs := transactions (runOutput rules cfg rows n overrides) in
  ∃ w, w ∈ withBillsOf rules cfg rows overrides
    ∧ payeeNormalized t = payeeNormalized w
    ∧ billStatus t = billStatus w
    ∧ requiredAmountExact t = requiredAmountExact w
    ∧ (billStatus w ≠ "active" →
       requiredAmountExact t = 0%Q ∧ typicalDay t = typicalDay w)
    ∧ (billStatus w = "active" →
       requiredAmountExact t
       = requiredOf
           (applyPayeeOverrides (categorized rules (applyExclusions cfg rows))
              overrides) (payeeNormalized t)
       ∧ daysOf txs (payeeNormalized t) ≠ []
       ∧ typicalDay t = Some (medianDay (daysOf txs (payeeNormalized t)))).
Proof.
  intros Ht txs. subst txs. rewrite !runPipelineShared_daysOf.
  rewrite runPipelineShared_transactions in Ht.
  apply elem_of_map in Ht as (w & Hw & ->). exists w. split; [done|].
  destruct (applyBillStatus_row_cases _ w Hw) as [Hna Hact].
  destruct (String.eqb (billStatus w) "active") eqn:E.
  - apply String.eqb_eq in E. destruct (Hact E) as [Hreq Hdays].
    fold (withBillsOf rules cfg rows overrides) in Hdays.
    rewrite decide_False by done. simpl.
    repeat split; done.
  - apply String.eqb_neq in E. repeat split; auto; done.
Qed.

Lemma runOutput_payee_agreement (rules : list Rule)
    (exclusionRules : ExclusionRules) (rows : list TransactionRow)
    (n : nat) (overrides : gmap string string) :
  let txs :=
    transactions (runOutput rules exclusionRules rows n overrides) in
  Forall (λ t1,
    Forall (λ t2,
      billStatus t1 = "active" → billStatus t2 = "active" →
      payeeNormalized t1 = payeeNormalized t2 →
      requiredAmountExact t1 = requiredAmountExact t2
      ∧ typicalDay t1 = typicalDay t2) txs) txs.
Proof.
  intros txs. apply Forall_forall. intros t1 H1. apply Forall_forall.
  intros t2 H2 A1 A2 Hp.
  destruct (runPipelineShared_row rules exclusionRules rows n overrides t1 H1)
    as (w1 & _ & _ & Hs1 & _ & _ & Hact1).
  destruct (runPipelineShared_row rules exclusionRules rows n overrides t2 H2)
    as (w2 & _ & _ & Hs2 & _ & _ & Hact2).
  rewrite <- Hs1 in Hact1. rewrite <- Hs2 in Hact2.
  destruct (Hact1 A1) as (-> & _ & ->), (Hact2 A2) as (-> & _ & ->).
  by rewrite Hp.
Qed.

(** X11.  Two active transactions of one payee carry the same required
    amount and the same typical day in the output of the pipeline. *)
Theorem runPipelineShared_payee_agreement (rules : list Rule)
    (exclusionRules : ExclusionRules) (rows : list TransactionRow)
    (n : nat) (overrides : gmap string string) :
  match runPipelineShared rules exclusionRules rows n overrides with
  | Ok out =>
      let txs := transactions out in
      Forall (λ t1,
        Forall (λ t2,
          billStatus t1 = "active" → billStatus t2 = "active" →
          payeeNormalized t1 = payeeNormalized t2 →
          requiredAmountExact t1 = requiredAmountExact t2
          ∧ typicalDay t1 = typicalDay t2) txs) txs
  | Err _ => True
  end.
Proof.
  destruct (runPipelineShared_cases rules exclusionRules rows n overrides)
    as [[_ ->]|[_ ->]]; [done|].
  apply runOutput_payee_agreement.
Qed.


(** ** Parsed rows *)

Lemma parseRow_parsed genId label file allRows raw :
  label = "Personal" ∨ label = "Joint" →
  Forall (λ r, parsedRow r ∧ typicalDay r = None) allRows →
  Forall (λ r, parsedRow r ∧ typicalDay r = None)
         (parseRow genId label file allRows raw).
Proof.
  intros Hlabel Hall. unfold parseRow.
  destruct (parseDateDDMMYYYY _) as [d|]; [|done].
  apply Forall_app. split; [done|]. apply Forall_singleton.
  unfold parsedRow. simpl. by repeat split.
Qed.

Lemma parseFiles_parsed genId files idx allRows :
  Forall (λ r, parsedRow r ∧ typicalDay r = None) allRows →
  match parseFiles genId idx files allRows with
  | Ok rows => Forall (λ r, parsedRow r ∧ typicalDay r = None) rows
  | Err _ => True
  end.
Proof.
  revert idx allRows. induction files as [|f files IH]; intros idx allRows H.
  { done. }
  simpl. destruct (records f) as [recs|msg]; [|done]. apply IH.
  assert (∀ label : string, label = "Personal" ∨ label = "Joint" →
          ∀ recs allRows,
            Forall (λ r, parsedRow r ∧ typicalDay r = None) allRows →
            Forall (λ r, parsedRow r ∧ typicalDay r = None)
                   (foldl (parseRow genId label (fileName f)) allRows recs))
    as Hfold.
  { intros label Hl recs'. induction recs' as [|raw recs' IHr]; [done|].
    intros rows' Hrows'. simpl. by apply IHr, parseRow_parsed. }
  apply Hfold; [|done]. destruct (Nat.eqb idx 0); auto.
Qed.

Lemma parsedRow_rawFields r r' :
  rawFields r' = rawFields r → parsedRow r → parsedRow r'.
Proof.
  unfold rawFields, parsedRow.
  by intros [= _ _ _ -> -> -> _ -> -> -> _ -> _].
Qed.

Lemma elem_of_keptRows cfg rows r : r ∈ keptRows cfg rows → r ∈ rows.
Proof.
  unfold keptRows. destruct (exclude_zero_amount cfg) as [[]|]; [|done|];
    by intros [_ ?]%list_elem_of_filter.
Qed.

Lemma length_keptRows cfg rows : length (keptRows cfg rows) ≤ length rows.
Proof.
  unfold keptRows. destruct (exclude_zero_amount cfg) as [[]|]; [|done|];
    apply length_filter.
Qed.

(** X12.  Every transaction that the pipeline returns for uploaded files
    has the absolute value of its amount as [amountAbs], hence not
    negative, the direction [outflow] exactly for a negative amount, the
    month key and day of its date, and the account label [Personal] or
    [Joint]; and the pipeline returns no more transactions than
    [rawCount], nor counts more spend rows than it returns. *)
Theorem runFullPipelineFromContent_parsed (genId : nat → string)
    (rules : list Rule) (exclusionRules : ExclusionRules)
    (files : list CsvFile) (overrides : gmap string string) :
  match runFullPipelineFromContent genId rules exclusionRules files
          overrides with
  | Ok out =>
      Forall (λ t, parsedRow t ∧ (0 <= amountAbs t)%Q) (transactions out)
      ∧ spendCount out ≤ length (transactions out)
      ∧ length (transactions out) ≤ rawCount out
  | Err _ => True
  end.
Proof.
  unfold runFullPipelineFromContent, parseMonzoCsvContents.
  destruct (Nat.eqb _ _); [done|].
  pose proof (parseFiles_parsed genId files 0 [] (Forall_nil_2 _)) as Hparsed.
  destruct (parseFiles genId 0 files []) as [rows|msg]; [|done].
  destruct (runPipelineShared_cases rules exclusionRules rows (length rows)
              overrides) as [[_ ->]|[_ ->]]; [done|].
  destruct (runPipelineShared_maps rules exclusionRules rows (length rows)
              overrides) as (Hraw & _).
  split; [|split].
  - apply Forall_forall. intros t Ht.
    destruct (map_eq_elem rawFields _ _ t Hraw Ht) as (r & Hr & Htr).
    apply elem_of_keptRows in Hr.
    destruct (proj1 (Forall_forall _ _) Hparsed r Hr) as [Hp _].
    pose proof (parsedRow_rawFields r t Htr Hp) as Ht'. split; [done|].
    destruct Ht' as (-> & _). apply Qabs_nonneg.
  - unfold runOutput. cbn [spendCount transactions].
    apply length_filter.
  - apply (f_equal length) in Hraw. rewrite !length_map in Hraw.
    rewrite Hraw. apply length_keptRows.
Qed.

(** X13.  In what the pipeline returns for uploaded files, a transaction
    that is not [active] has required amount 0 and no typical day, and an
    [active] one has as typical day the median of the days of the active
    spend transactions of its payee, of which there is at least one. *)
Theorem runFullPipelineFromContent_bill_fields (genId : nat → string)
    (rules : list Rule) (exclusionRules : ExclusionRules)
    (files : list CsvFile) (overrides : gmap string string) :
  match runFullPipelineFromContent genId rules exclusionRules files
          overrides with
  | Ok out =>
      Forall (λ t,
        (billStatus t ≠ "active" →
         requiredAmountExact t = 0%Q ∧ typicalDay t = None)
        ∧ (billStatus t = "active" →
           daysOf (transactions out) (payeeNormalized t) ≠ []
           ∧ typicalDay t
             = Some (medianDay
                       (daysOf (transactions out) (payeeNormalized t)))))
        (transactions out)
  | Err _ => True
  end.
Proof.
  unfold runFullPipelineFromContent, parseMonzoCsvContents.
  destruct (Nat.eqb _ _); [done|].
  pose proof (parseFiles_parsed genId files 0 [] (Forall_nil_2 _)) as Hparsed.
  destruct (parseFiles genId 0 files []) as [rows|msg]; [|done].
  destruct (runPipelineShared_cases rules exclusionRules rows (length rows)
              overrides) as [[_ ->]|[_ ->]]; [done|].
  apply Forall_forall. intros t Ht.
  destruct (runPipelineShared_row rules exclusionRules rows (length rows)
              overrides t Ht)
    as (w & Hw & _ & Hs & _ & Hna & Hact).
  rewrite <- Hs in Hna, Hact. split; [|intros A; by destruct (Hact A) as (_ & ? & ?)].
  intros Hn. destruct (Hna Hn) as [-> ->]. split; [done|].
  destruct (withBillsOf_frame rules exclusionRules rows overrides)
    as (_ & _ & Htd & _).
  destruct (map_eq_elem typicalDay _ _ w Htd Hw) as (k & Hk & ->).
  apply elem_of_keptRows in Hk.
  by destruct (proj1 (Forall_forall _ _) Hparsed k Hk) as [_ ->].
Qed.


(** ** The typical day *)

Lemma Math_round_half (z : Z) :
  Math_round (inject_Z z / 2)%Q = ((z + 1) / 2)%Z.
Proof.
  unfold Math_round, Qfloor, Qdiv, Qmult, Qplus, Qinv, inject_Z. simpl.
  change (Z.pos (1 * 2 * 2)) with (2 * 2)%Z.
  change (Z.pos (1 * 2)) with 2%Z.
  replace (z * 1 * 2 + 1 * 2)%Z with ((z + 1) * 2)%Z by lia.
  by rewrite Z.div_mul_cancel_r.
Qed.

Lemma medianDay_sorted_elem (days : list Z) :
  days ≠ [] →
  let sorted := merge_sort Z.le days in
  (∃ d, d ∈ days ∧ medianDay days = d)
  ∨ (∃ a b, a ∈ days ∧ b ∈ days ∧ medianDay days = ((a + b + 1) / 2)%Z).
Proof.
  intros Hne sorted. unfold medianDay. fold sorted.
  assert (∀ d, d ∈ sorted ↔ d ∈ days) as Hin.
  { intros d. unfold sorted. by rewrite merge_sort_Permutation. }
  assert (length sorted = length days) as Hlen.
  { unfold sorted. by rewrite merge_sort_Permutation. }
  assert (0 < length sorted) as Hpos.
  { rewrite Hlen. destruct days; [done|simpl; lia]. }
  assert (length sorted / 2 < length sorted) as Hmid
    by (apply Nat.div_lt; lia).
  destruct (lookup_lt_is_Some_2 sorted _ Hmid) as [b Hb].
  destruct (Nat.eqb (length sorted mod 2) 0) eqn:Heven.
  - right. apply Nat.eqb_eq in Heven.
    assert (length sorted / 2 - 1 < length sorted) as Hmid' by lia.
    destruct (lookup_lt_is_Some_2 sorted _ Hmid') as [a Ha].
    exists a, b. rewrite Ha, Hb. simpl.
    split; [by eapply Hin, list_elem_of_lookup_2|].
    split; [by eapply Hin, list_elem_of_lookup_2|].
    apply Math_round_half.
  - left. exists b. rewrite Hb. split; [|done].
    by eapply Hin, list_elem_of_lookup_2.
Qed.

Lemma medianDay_range (days : list Z) (lo hi : Z) :
  days ≠ [] → Forall (λ d, (lo ≤ d ≤ hi)%Z) days →
  (lo ≤ medianDay days ≤ hi)%Z.
Proof.
  intros Hne Hall.
  destruct (medianDay_sorted_elem days Hne)
    as [(d & Hd & ->)|(a & b & Ha & Hb & ->)].
  - by apply (proj1 (Forall_forall _ _) Hall).
  - apply (proj1 (Forall_forall _ _) Hall) in Ha, Hb.
    split.
    + apply Z.div_le_lower_bound; lia.
    + assert ((a + b + 1) / 2 < hi + 1)%Z; [|lia].
      apply Z.div_lt_upper_bound; lia.
Qed.

(** X14.  The median day of a list of days that is not empty lies between
    bounds that hold of every day of the list. *)
Theorem medianDay_bounds (days : list Z) (lo hi : Z) :
  days ≠ [] → Forall (λ d, (lo ≤ d ≤ hi)%Z) days →
  (lo ≤ medianDay days ≤ hi)%Z.
Proof. apply medianDay_range. Qed.

(** X14 on the days 3, 28, 14 and 15, whose median is 15. *)
Lemma medianDay_bounds_sample :
  (3 ≤ medianDay [3; 28; 14; 15] ≤ 28)%Z.
Proof.
  apply (medianDay_bounds [3; 28; 14; 15] 3 28)%Z; [done|].
  repeat constructor; lia.
Defined.

(** X15.  The median day does not depend on the order of the days. *)
Theorem medianDay_permutation (days days' : list Z) :
  days ≡ₚ days' → medianDay days = medianDay days'.
Proof.
  intros Hperm. unfold medianDay.
  assert (merge_sort Z.le days = merge_sort Z.le days') as ->; [|done].
  apply (Sorted_unique Z.le).
  - apply Sorted_merge_sort, _.
  - apply Sorted_merge_sort, _.
  - by rewrite !merge_sort_Permutation.
Qed.

(** X15 on two orders of the same three days. *)
Lemma medianDay_permutation_sample :
  medianDay [28; 1; 15]%Z = medianDay [1; 15; 28]%Z.
Proof.
  apply (medianDay_permutation [28; 1; 15] [1; 15; 28])%Z.
  etrans; [apply Permutation_swap|]. apply perm_skip.
  etrans; [apply Permutation_swap|]. done.
Defined.


(** ** Recomputing the bill status *)

Lemma filter_map_comm {A} (g : A → A) (P : A → Prop)
    `{!∀ x, Decision (P x)} (l : list A) :
  (∀ x, P (g x) ↔ P x) → filter P (map g l) = map g (filter P l).
Proof.
  intros HP. induction l as [|x l IH]; [done|]. simpl.
  rewrite !filter_cons. destruct (decide (P x)) as [Hx|Hx].
  - rewrite decide_True by by apply HP. simpl. by rewrite IH.
  - rewrite decide_False by by rewrite HP. done.
Qed.

Lemma foldl_filter_map_ext {A B C} (f : C → B → C) (g1 g2 : A → B)
    (P : B → Prop) `{!∀ x, Decision (P x)} (l : list A) (acc : C) :
  (∀ x, P (g1 x) ↔ P (g2 x)) → (∀ a x, f a (g1 x) = f a (g2 x)) →
  foldl f acc (filter P (map g1 l)) = foldl f acc (filter P (map g2 l)).
Proof.
  intros HP Hf. revert acc. induction l as [|x l IH]; intros acc; [done|].
  simpl. rewrite !filter_cons. destruct (decide (P (g1 x))) as [H1|H1].
  - rewrite decide_True by by apply HP. simpl. by rewrite Hf, IH.
  - rewrite decide_False by by rewrite <- HP. apply IH.
Qed.

Section recompute.
Variable g : TransactionRow → TransactionRow.
Hypothesis g_keyFields : ∀ r, keyFields (g r) = keyFields r.

Lemma g_fields r :
  payeeNormalized (g r) = payeeNormalized r ∧ monthKey (g r) = monthKey r
  ∧ isSpend (g r) = isSpend r ∧ isBillRule (g r) = isBillRule r
  ∧ type (g r) = type r ∧ amountAbs (g r) = amountAbs r.
Proof. apply keyFields_inv, g_keyFields. Qed.

Lemma spend_map rows :
  filter (λ r, isSpend r = true) (map g rows)
  = map g (filter (λ r, isSpend r = true) rows).
Proof.
  apply filter_map_comm. intros r.
  by destruct (g_fields r) as (_ & _ & -> & _).
Qed.

Lemma payeeStatsOf_map rows : payeeStatsOf (map g rows) = payeeStatsOf rows.
Proof.
  unfold payeeStatsOf, buildPayeeStats. rewrite spend_map.
  generalize (∅ : gmap string (gset string * nat)).
  induction (filter _ rows) as [|r l IH]; intros m; [done|]. simpl.
  rewrite <- IH. f_equal. unfold addStats.
  by destruct (g_fields r) as (-> & -> & _).
Qed.

Lemma spendMonths_map rows : spendMonths (map g rows) = spendMonths rows.
Proof.
  unfold spendMonths. rewrite spend_map, map_map. apply map_ext.
  intros r. by destruct (g_fields r) as (_ & -> & _).
Qed.

Lemma markCandidate_g stats r :
  keyFields (markCandidate stats (g r)) = keyFields (markCandidate stats r)
  ∧ isBillCandidate (markCandidate stats (g r))
    = isBillCandidate (markCandidate stats r).
Proof.
  rewrite !markCandidate_keyFields. split; [done|].
  unfold markCandidate. destruct (g_fields r) as (-> & _ & _ & -> & -> & _).
  by destruct (default _ _).
Qed.

Lemma candidatePayees_map rows (P : TransactionRow → Prop)
    `{!∀ x, Decision (P x)} :
  (∀ r r', monthKey r = monthKey r' → P r ↔ P r') →
  map payeeNormalized (filter P (candidateSpendOf (map g rows)))
  = map payeeNormalized (filter P (candidateSpendOf rows)).
Proof.
  intros HP. unfold candidateSpendOf.
  rewrite payeeStatsOf_map, map_map, !list_filter_filter.
  apply (map_filter_map_ext
           (λ r, markCandidate (payeeStatsOf rows) (g r))
           (markCandidate (payeeStatsOf rows))).
  - intros r. destruct (markCandidate_g (payeeStatsOf rows) r) as [Hk Hc].
    destruct (keyFields_inv _ _ Hk) as (_ & Hm & Hs & _).
    by rewrite (HP _ _ Hm), Hc, Hs.
  - intros r. destruct (markCandidate_g (payeeStatsOf rows) r) as [Hk _].
    by destruct (keyFields_inv _ _ Hk) as (-> & _).
Qed.

Lemma presentLatestOf_map rows :
  presentLatestOf (map g rows) = presentLatestOf rows.
Proof.
  unfold presentLatestOf. rewrite spendMonths_map.
  f_equal. apply candidatePayees_map. by intros r r' ->.
Qed.

Lemma seenBeforeOf_map rows : seenBeforeOf (map g rows) = seenBeforeOf rows.
Proof.
  unfold seenBeforeOf. rewrite spendMonths_map.
  f_equal. apply candidatePayees_map. by intros r r' ->.
Qed.

Lemma statusRow_map rows x : statusRow (map g rows) x = statusRow rows x.
Proof.
  unfold statusRow.
  by rewrite presentLatestOf_map, seenBeforeOf_map, payeeStatsOf_map.
Qed.

Lemma statusRow_g rows r :
  keyFields (statusRow rows (g r)) = keyFields (statusRow rows r)
  ∧ billStatus (statusRow rows (g r)) = billStatus (statusRow rows r).
Proof.
  rewrite !statusRow_keyFields, !statusRow_status. split; [done|].
  destruct (markCandidate_g (payeeStatsOf rows) r) as [_ ->].
  by destruct (g_fields r) as (-> & _).
Qed.

Lemma totalsOf_map rows : totalsOf (map g rows) = totalsOf rows.
Proof.
  unfold totalsOf, activeSpendOf. rewrite spendMonths_map, map_map.
  rewrite (map_ext _ (λ r, statusRow rows (g r)))
    by (intros r; apply statusRow_map).
  apply foldl_filter_map_ext.
  - intros r. destruct (statusRow_g rows r) as [Hk ->].
    by destruct (keyFields_inv _ _ Hk) as (_ & _ & -> & _).
  - intros acc r. destruct (statusRow_g rows r) as [Hk _].
    destruct (keyFields_inv _ _ Hk) as (Hp & Hm & _ & _ & _ & Ha).
    unfold addTotals. by rewrite Hp, Hm, Ha.
Qed.

Lemma billRow_map rows x : billRow (map g rows) x = billRow rows x.
Proof. unfold billRow. by rewrite totalsOf_map, statusRow_map. Qed.

End recompute.

Lemma row_ext (r r' : TransactionRow) :
  rawFields r = rawFields r' → classFields r = classFields r' →
  spendFields r = spendFields r' → billFields r = billFields r' → r = r'.
Proof.
  destruct r, r'. unfold rawFields, classFields, spendFields, billFields.
  cbn. intros H1 H2 H3 H4.
  injection H1; injection H2; injection H3; injection H4.
  intros; subst; reflexivity.
Qed.

Lemma billRow_billRow rows r : billRow rows (billRow rows r) = billRow rows r.
Proof.
  pose proof (billRow_keyFields rows) as Hg.
  destruct (billRow_frame rows (billRow rows r)) as (Hraw & Hclass & Hs & Htd).
  apply row_ext; [done..|].
  unfold billFields. rewrite Htd.
  rewrite !billRow_candidate, !billRow_status, !billRow_required.
  destruct (keyFields_inv _ _ (Hg r)) as (-> & _).
  destruct (markCandidate_g _ Hg (payeeStatsOf rows) r) as [_ ->].
  by destruct (statusRow_g _ Hg rows r) as [_ ->].
Qed.

(** X16.  [applyBillStatus] is idempotent: it computes the candidate flag,
    the status and the required amount from fields it does not write, so
    applying it to its own result changes nothing. *)
Theorem applyBillStatus_idempotent (rows : list TransactionRow) :
  applyBillStatus (applyBillStatus rows) = applyBillStatus rows.
Proof.
  destruct (decide (filter (λ r, isSpend r = true) rows = [])) as [He|Hne].
  - rewrite (applyBillStatus_no_spend rows He).
    rewrite applyBillStatus_no_spend.
    + rewrite map_map. by apply map_ext.
    + rewrite filter_map_comm by done. by rewrite He.
  - rewrite (applyBillStatus_unfold rows Hne).
    rewrite applyBillStatus_unfold.
    + rewrite map_map. apply map_ext. intros r.
      rewrite (billRow_map (billRow rows) (billRow_keyFields rows)).
      apply billRow_billRow.
    + rewrite (spend_map (billRow rows) (billRow_keyFields rows)).
      by destruct (filter _ rows).
Qed.


(** ** The range of the similarity score *)

Lemma sublist_full {A} (s a : list A) :
  s `sublist_of` a → length s = length a → s = a.
Proof.
  induction 1 as [|x s a _ IH|x s a Hs _]; simpl; intros Hlen.
  - done.
  - f_equal. apply IH. lia.
  - apply sublist_length in Hs. lia.
Qed.

Lemma lcs_le a b : lcs a b ≤ length a ∧ lcs a b ≤ length b.
Proof.
  destruct (lcs_isLcsLength a b) as [(s & Ha & Hb & <-) _].
  split; by apply sublist_length.
Qed.

Lemma lcs_full a b :
  lcs a b = length a → lcs a b = length b → a = b.
Proof.
  destruct (lcs_isLcsLength a b) as [(s & Ha & Hb & <-) _].
  intros Hla Hlb.
  by rewrite <- (sublist_full _ _ Ha Hla), <- (sublist_full _ _ Hb Hlb).
Qed.

Lemma ratio_bounds (L m n : nat) :
  L ≤ m → L ≤ n → m + n ≠ 0 →
  let q := (2 * inject_Z (Z.of_nat L) / inject_Z (Z.of_nat (m + n)))%Q in
  (0 <= q)%Q ∧ (q <= 1)%Q ∧ ((q == 1)%Q → L = m ∧ L = n).
Proof.
  intros Hm Hn Hne q.
  assert (0 < inject_Z (Z.of_nat (m + n)))%Q as Hpos
    by (unfold Qlt; simpl; lia).
  split; [|split].
  - apply Qle_shift_div_l; [done|]. unfold Qle; simpl. lia.
  - apply Qle_shift_div_r; [done|]. unfold Qle; simpl. lia.
  - intros Hq.
    assert (2 * inject_Z (Z.of_nat L) == inject_Z (Z.of_nat (m + n)))%Q
      as H2.
    { assert (¬ inject_Z (Z.of_nat (m + n)) == 0)%Q as Hnz.
      { intros H0. rewrite H0 in Hpos. by apply Qlt_irrefl in Hpos. }
      eapply Qeq_trans; [apply Qeq_sym, (Qmult_div_r _ _ Hnz)|].
      eapply Qeq_trans; [|apply Qmult_1_r].
      apply Qmult_comp; [apply Qeq_refl|exact Hq]. }
    unfold Qeq in H2; simpl in H2. lia.
Qed.

(** X17.  The similarity score lies between 0 and 1, and only identical
    strings score 1. *)
Theorem sequenceMatcherRatio_range (a b : string) :
  (0 <= sequenceMatcherRatio a b)%Q
  ∧ (sequenceMatcherRatio a b <= 1)%Q
  ∧ ((sequenceMatcherRatio a b == 1)%Q ↔ a = b).
Proof.
  destruct (decide (a = b)) as [->|Hab].
  - unfold sequenceMatcherRatio. rewrite String.eqb_refl.
    split; [done|]. split; [done|]. done.
  - destruct (decide (a = "")) as [Ha|Ha].
    { rewrite sequenceMatcherRatio_one_empty by auto.
      split; [done|]. split; [done|]. split; [|done].
      intros H. by apply Qeq_sym, Q_apart_0_1 in H. }
    destruct (decide (b = "")) as [Hb|Hb].
    { rewrite sequenceMatcherRatio_one_empty by auto.
      split; [done|]. split; [done|]. split; [|done].
      intros H. by apply Qeq_sym, Q_apart_0_1 in H. }
    rewrite sequenceMatcherRatio_general by done.
    rewrite !length_chars.
    destruct (lcs_le (chars a) (chars b)) as [Hla Hlb].
    assert (length (chars a) + length (chars b) ≠ 0) as Hne.
    { apply length_pos_nonempty in Ha. rewrite length_chars in Ha. lia. }
    destruct (ratio_bounds _ _ _ Hla Hlb Hne) as (H0 & H1 & Heq).
    split; [done|]. split; [done|]. split; [|done].
    intros [E1 E2]%Heq. by apply chars_inj, lcs_full.
Qed.


(** ** Insertion-ordered maps *)

Lemma mapGet_mapSet {V} (m : list (string * V)) k v k' :
  mapGet (mapSet m k v) k' = if decide (k' = k) then Some v else mapGet m k'.
Proof.
  induction m as [|[k0 v0] m IH]; simpl.
  - destruct (decide (k' = k)) as [->|Hne].
    + by rewrite String.eqb_refl.
    + apply not_eq_sym, String.eqb_neq in Hne. by rewrite Hne.
  - destruct (String.eqb k0 k) eqn:Ek; simpl.
    + apply String.eqb_eq in Ek as ->.
      destruct (decide (k' = k)) as [->|Hne].
      * by rewrite String.eqb_refl.
      * apply not_eq_sym, String.eqb_neq in Hne. by rewrite Hne.
    + destruct (String.eqb k0 k') eqn:Ek'.
      * apply String.eqb_eq in Ek' as ->. apply String.eqb_neq in Ek.
        by rewrite decide_False.
      * apply IH.
Qed.

Lemma mapSet_keys {V} (m : list (string * V)) k v :
  map fst (mapSet m k v) =
  if decide (k ∈ map fst m) then map fst m else map fst m ++ [k].
Proof.
  induction m as [|[k0 v0] m IH]; cbn [mapSet map fst].
  - rewrite decide_False; [done|]. by intros ?%elem_of_nil.
  - destruct (String.eqb k0 k) eqn:Ek; cbn [map fst].
    + apply String.eqb_eq in Ek as ->. rewrite decide_True; [done|]. left.
    + apply String.eqb_neq in Ek. rewrite IH.
      destruct (decide (k ∈ map fst m)).
      * rewrite decide_True; [done|]. by right.
      * rewrite decide_False; [done|]. rewrite elem_of_cons.
        intros [?|?]; congruence.
Qed.

Lemma mapSet_NoDup {V} (m : list (string * V)) k v :
  NoDup (map fst m) → NoDup (map fst (mapSet m k v)).
Proof.
  intros H. rewrite mapSet_keys. destruct (decide _); [done|].
  apply NoDup_app. split; [done|]. split; [|apply NoDup_singleton].
  intros x Hx ->%list_elem_of_singleton. done.
Qed.

Lemma mapGet_Some_elem {V} (m : list (string * V)) k v :
  mapGet m k = Some v → (k, v) ∈ m.
Proof.
  induction m as [|[k0 v0] m IH]; simpl; [done|].
  destruct (String.eqb k0 k) eqn:Ek.
  - apply String.eqb_eq in Ek as ->. intros [= ->]. left.
  - intros H. right. by apply IH.
Qed.

Lemma mapGet_elem {V} (m : list (string * V)) k v :
  NoDup (map fst m) → (k, v) ∈ m → mapGet m k = Some v.
Proof.
  induction m as [|[k0 v0] m IH]; simpl.
  - by intros _ ?%elem_of_nil.
  - intros [Hk Hnd]%NoDup_cons [[= <- <-]|Hin]%elem_of_cons.
    + by rewrite String.eqb_refl.
    + destruct (String.eqb k0 k) eqn:Ek; [|by apply IH].
      apply String.eqb_eq in Ek as ->. exfalso. apply Hk.
      apply elem_of_map. by exists (k, v).
Qed.

Lemma mapGet_None {V} (m : list (string * V)) k :
  mapGet m k = None ↔ k ∉ map fst m.
Proof.
  induction m as [|[k0 v0] m IH]; simpl.
  - split; [|done]. by intros _ ?%elem_of_nil.
  - rewrite not_elem_of_cons. destruct (String.eqb k0 k) eqn:Ek.
    + apply String.eqb_eq in Ek as ->. split; [done|]. by intros [? _].
    + apply String.eqb_neq in Ek. rewrite IH. split; [|tauto].
      intros H. split; [congruence|done].
Qed.

(** ** The groups of the bills summary *)

Lemma addPayeeGroup_soFar seen groups t :
  groupsSoFar seen groups →
  groupsSoFar (seen ++ [t]) (addPayeeGroup groups t).
Proof.
  intros [Hnd Hget]. split; [by apply mapSet_NoDup|].
  intros p. cbv zeta. unfold addPayeeGroup.
  rewrite mapGet_mapSet, filter_app.
  destruct (decide (p = payeeNormalized t)) as [->|Hne].
  - rewrite (filter_cons_True _ t []) by done. rewrite filter_nil, Hget.
    cbv zeta.
    destruct (decide (filter _ seen = [])) as [->|Hs]; simpl; [done|].
    rewrite decide_False; [done|]. by intros [? _]%app_eq_nil.
  - rewrite (filter_cons_False _ t []) by congruence.
    rewrite filter_nil, app_nil_r. apply Hget.
Qed.

Lemma payeeGroups_soFar (spend : list TransactionRow) :
  groupsSoFar spend (foldl addPayeeGroup [] spend).
Proof.
  assert (∀ l seen groups,
            groupsSoFar seen groups →
            groupsSoFar (seen ++ l) (foldl addPayeeGroup groups l)) as Hfold.
  { induction l as [|t l IH]; intros seen groups H; simpl.
    - by rewrite app_nil_r.
    - rewrite cons_middle, app_assoc. by apply IH, addPayeeGroup_soFar. }
  apply (Hfold spend [] []). split; [constructor|done].
Qed.

Lemma billRowsOf_spend (rows : list TransactionRow) p :
  filter (λ t, payeeNormalized t = p)
    (filter (λ t, isSpend t && String.eqb (billStatus t) "active" = true)
            rows)
  = billRowsOf rows p.
Proof.
  unfold billRowsOf. rewrite list_filter_filter. apply list_filter_iff.
  intros t. rewrite andb_true_iff, String.eqb_eq. tauto.
Qed.

Lemma billRowsOf_payee rows p t :
  t ∈ billRowsOf rows p →
  t ∈ rows ∧ billStatus t = "active" ∧ isSpend t = true
  ∧ payeeNormalized t = p.
Proof. unfold billRowsOf. rewrite list_elem_of_filter. tauto. Qed.

(** The entries of the summary, before any property of one entry: there
    is one for each payee that has an active spend row, built from those
    rows. *)
Lemma elem_of_buildBillsSummary rows b :
  b ∈ buildBillsSummary rows ↔
  ∃ p, billRowsOf rows p ≠ []
       ∧ b = billSummaryOf (latestBillMonth rows) p (billRowsOf rows p).
Proof.
  unfold buildBillsSummary, latestBillMonth.
  set (spend := filter _ rows).
  destruct (payeeGroups_soFar spend) as [Hnd Hget].
  destruct (Nat.eqb (length spend) 0) eqn:Hlen.
  - apply Nat.eqb_eq, nil_length_inv in Hlen. split.
    + by intros ?%elem_of_nil.
    + intros (p & Hne & _). exfalso. apply Hne.
      rewrite <- billRowsOf_spend. fold spend. by rewrite Hlen.
  - rewrite sortStable_Permutation, elem_of_map. split.
    + intros ([p txs] & Hin & ->). exists p.
      apply mapGet_elem in Hin; [|done]. rewrite Hget in Hin. cbv zeta in Hin.
      unfold spend in Hin. rewrite billRowsOf_spend in Hin.
      destruct (decide (billRowsOf rows p = [])); [done|].
      by injection Hin as <-.
    + intros (p & Hne & ->). exists (p, billRowsOf rows p). split; [|done].
      apply mapGet_Some_elem. rewrite Hget. cbv zeta.
      unfold spend. rewrite billRowsOf_spend. by rewrite decide_False.
Qed.

Lemma buildBillsSummary_keys rows :
  map bs_payeeNormalized (buildBillsSummary rows)
  ≡ₚ map fst
       (foldl addPayeeGroup []
          (filter (λ t, isSpend t && String.eqb (billStatus t) "active"
                        = true) rows))
  ∨ buildBillsSummary rows = [].
Proof.
  unfold buildBillsSummary. set (spend := filter _ rows).
  destruct (Nat.eqb (length spend) 0); [by right|]. left.
  rewrite sortStable_Permutation, map_map.
  erewrite map_ext; [done|]. by intros [p txs].
Qed.

(** X18.  The bills summary has exactly one entry for each payee that has
    an active spend row.  The entry is marked active, counts those rows,
    and its typical day is the median of their days of the month. *)
Theorem buildBillsSummary_payees (transactions : list TransactionRow) :
  let out := buildBillsSummary transactions in
  NoDup (map bs_payeeNormalized out)
  ∧ (∀ p, p ∈ map bs_payeeNormalized out ↔ billRowsOf transactions p ≠ [])
  ∧ Forall (λ b,
      let txs := billRowsOf transactions (bs_payeeNormalized b) in
      bs_billStatus b = "active"
      ∧ bs_txCount b = length txs
      ∧ bs_typicalDay b = medianDay (map day txs)) out.
Proof.
  intros out. subst out. split; [|split].
  - destruct (buildBillsSummary_keys transactions) as [-> | ->].
    + apply payeeGroups_soFar.
    + constructor.
  - intros p. rewrite elem_of_map. split.
    + by intros (b & (q & Hne & ->)%elem_of_buildBillsSummary & ->).
    + intros Hne.
      exists (billSummaryOf (latestBillMonth transactions) p
                (billRowsOf transactions p)).
      split; [|done]. apply elem_of_buildBillsSummary. by exists p.
  - apply Forall_forall. intros b (p & Hne & ->)%elem_of_buildBillsSummary.
    done.
Qed.


(** ** The order of the bills summary *)

Lemma billBefore_order a b : billBefore b a = false ↔ billOrder a b.
Proof.
  unfold billBefore, billOrder, Qltb.
  destruct (Z.eqb_spec (bs_typicalDay b) (bs_typicalDay a)) as [E|E]; simpl.
  - rewrite negb_false_iff, Qle_bool_iff. split.
    + intros H. right. by split.
    + intros [H|[_ H]]; [lia|done].
  - rewrite Z.ltb_ge. split.
    + intros H. left. lia.
    + intros [H|[H _]]; [lia|congruence].
Qed.

Lemma billBefore_asym a b : billBefore a b = true → billBefore b a = false.
Proof.
  intros H. apply billBefore_order.
  destruct (billBefore b a) eqn:E; [|by apply billBefore_order].
  exfalso. revert H E. unfold billBefore, Qltb.
  destruct (Z.eqb_spec (bs_typicalDay a) (bs_typicalDay b)) as [E1|E1];
    destruct (Z.eqb_spec (bs_typicalDay b) (bs_typicalDay a)) as [E2|E2];
    simpl; try congruence.
  - rewrite !negb_true_iff, <- !not_true_iff_false, !Qle_bool_iff.
    intros H1 H2. apply H1. apply Qnot_le_lt in H2. by apply Qlt_le_weak.
  - rewrite !Z.ltb_lt. lia.
Qed.

Lemma billOrder_trans : Transitive billOrder.
Proof.
  intros a b c [H1|[H1 H1']] [H2|[H2 H2']]; unfold billOrder.
  - left. lia.
  - left. lia.
  - left. lia.
  - right. split; [congruence|]. by eapply Qle_trans.
Qed.

(** X19.  The bills summary is ordered by typical day, and entries of one
    typical day by required amount, largest first. *)
Theorem buildBillsSummary_sorted (transactions : list TransactionRow) :
  StronglySorted billOrder (buildBillsSummary transactions).
Proof.
  apply Sorted_StronglySorted; [apply billOrder_trans|].
  assert (Sorted (λ a b, billBefore b a = false)
            (buildBillsSummary transactions)) as Hs.
  { unfold buildBillsSummary. destruct (Nat.eqb _ 0); [constructor|].
    apply sortStable_Sorted, billBefore_asym. }
  induction Hs as [|b l _ IH Hhd]; constructor; [done|].
  destruct Hhd; constructor. by apply billBefore_order.
Qed.


(** ** The amounts of the bills summary *)

Lemma round2_le x y : (x <= y)%Q → (round2 x <= round2 y)%Q.
Proof.
  intros H. unfold round2, Math_round.
  apply Qmult_le_compat_r; [|done].
  rewrite <- Zle_Qle. apply Qfloor_resp_le.
  apply Qplus_le_l, Qmult_le_compat_r; done.
Qed.

Lemma foldl_Qmin_le a (l : list Q) :
  (foldl Qmin a l <= a)%Q ∧ ∀ x, x ∈ l → (foldl Qmin a l <= x)%Q.
Proof.
  revert a. induction l as [|y l IH]; intros a; simpl.
  - split; [apply Qle_refl|]. by intros x ?%elem_of_nil.
  - destruct (IH (Qmin a y)) as [H1 H2]. split.
    + eapply Qle_trans; [exact H1|apply Q.le_min_l].
    + intros x [->|Hx]%elem_of_cons; [|by apply H2].
      eapply Qle_trans; [exact H1|apply Q.le_min_r].
Qed.

Lemma foldl_Qmax_le a (l : list Q) :
  (a <= foldl Qmax a l)%Q ∧ ∀ x, x ∈ l → (x <= foldl Qmax a l)%Q.
Proof.
  revert a. induction l as [|y l IH]; intros a; simpl.
  - split; [apply Qle_refl|]. by intros x ?%elem_of_nil.
  - destruct (IH (Qmax a y)) as [H1 H2]. split.
    + eapply Qle_trans; [apply Q.le_max_l|exact H1].
    + intros x [->|Hx]%elem_of_cons; [|by apply H2].
      eapply Qle_trans; [apply Q.le_max_r|exact H1].
Qed.

Lemma minOfQ_le xs x : x ∈ xs → (minOfQ xs <= x)%Q.
Proof.
  destruct xs as [|a l]; [by intros ?%elem_of_nil|]. simpl.
  destruct (foldl_Qmin_le a l) as [H1 H2].
  intros [->|Hx]%elem_of_cons; auto.
Qed.

Lemma maxOfQ_le xs x : x ∈ xs → (x <= maxOfQ xs)%Q.
Proof.
  destruct xs as [|a l]; [by intros ?%elem_of_nil|]. simpl.
  destruct (foldl_Qmax_le a l) as [H1 H2].
  intros [->|Hx]%elem_of_cons; auto.
Qed.

Lemma monthlyTotals_nonempty (txs : list TransactionRow) :
  txs ≠ [] → foldl addMonthlyTotal [] txs ≠ [].
Proof.
  assert (∀ (m : list (string * Q)) k v, mapSet m k v ≠ []) as Hset.
  { intros [|[k0 v0] m] k v; simpl; [done|]. by destruct (String.eqb k0 k). }
  assert (∀ l m, m ≠ [] → foldl addMonthlyTotal m l ≠ []) as Hfold.
  { induction l as [|t l IH]; intros m Hm; simpl; [done|].
    apply IH, Hset. }
  destruct txs as [|t l]; [done|]. intros _. simpl. apply Hfold, Hset.
Qed.

Lemma addMonthlyTotal_soFar seen totals t :
  monthlyTotalsSoFar seen totals →
  monthlyTotalsSoFar (seen ++ [t]) (addMonthlyTotal totals t).
Proof.
  intros H m. cbv zeta. unfold addMonthlyTotal.
  rewrite mapGet_mapSet, filter_app.
  destruct (decide (m = monthKey t)) as [->|Hne].
  - rewrite (filter_cons_True _ t []) by done. rewrite filter_nil.
    split; [by destruct (filter _ seen)|].
    rewrite map_app. simpl map.
    eapply Qeq_trans; [|apply Qeq_sym, sumQ_snoc].
    apply Qplus_inj_r. specialize (H (monthKey t)). cbv zeta in H.
    destruct (mapGet totals (monthKey t)) as [q|].
    + destruct H as [_ H]. eapply Qeq_trans; [apply orZero_Some|exact H].
    + by rewrite H.
  - rewrite (filter_cons_False _ t []) by congruence.
    rewrite filter_nil, app_nil_r. apply H.
Qed.

Lemma monthlyTotals_soFar (txs : list TransactionRow) :
  monthlyTotalsSoFar txs (foldl addMonthlyTotal [] txs).
Proof.
  assert (∀ l seen totals,
            monthlyTotalsSoFar seen totals →
            monthlyTotalsSoFar (seen ++ l) (foldl addMonthlyTotal totals l))
    as Hfold.
  { induction l as [|t l IH]; intros seen totals H; simpl.
    - by rewrite app_nil_r.
    - rewrite cons_middle, app_assoc. by apply IH, addMonthlyTotal_soFar. }
  apply (Hfold txs [] []). by intros m.
Qed.

Lemma activeSpendIn_billRowsOf rows p latest :
  filter (λ t, monthKey t = latest) (billRowsOf rows p)
  = activeSpendIn rows p latest.
Proof.
  unfold billRowsOf, activeSpendIn. rewrite list_filter_filter.
  apply list_filter_iff. intros t. tauto.
Qed.

Lemma billSummaryOf_amounts latest p txs :
  txs ≠ [] →
  let b := billSummaryOf latest p txs in
  (bs_minMonthly b <= bs_maxMonthly b)%Q
  ∧ ∀ m, latest = Some m → filter (λ t, monthKey t = m) txs ≠ [] →
      (bs_minMonthly b <= bs_requiredExact b <= bs_maxMonthly b)%Q.
Proof.
  intros Hne. cbv zeta. unfold billSummaryOf.
  cbn [bs_minMonthly bs_maxMonthly bs_requiredExact].
  set (totals := foldl addMonthlyTotal [] txs).
  split.
  - pose proof (monthlyTotals_nonempty txs Hne) as H. fold totals in H.
    destruct totals as [|[m q] totals'] eqn:E; [done|].
    assert (q ∈ map snd ((m, q) :: totals')) as Hin by left.
    apply round2_le. eapply Qle_trans; [by apply minOfQ_le|by apply maxOfQ_le].
  - intros m -> Hm. cbn [mbind option_bind].
    pose proof (monthlyTotals_soFar txs m) as H. cbv zeta in H.
    fold totals in H.
    destruct (mapGet totals m) as [q|] eqn:Hq; [|done].
    assert (q ∈ map snd totals) as Hin.
    { apply mapGet_Some_elem in Hq. apply elem_of_map. by exists (m, q). }
    split; apply round2_le; [by apply minOfQ_le | by apply maxOfQ_le].
Qed.

(** X20.  In every entry of the bills summary the least monthly total is
    at most the greatest; and when the payee has an active spend row in
    the latest month of the active spend rows, the required amount, which
    is then that month's total, lies between the two. *)
Theorem buildBillsSummary_amounts (transactions : list TransactionRow) :
  Forall (λ b,
    (bs_minMonthly b <= bs_maxMonthly b)%Q
    ∧ ∀ latest,
        latestBillMonth transactions = Some latest →
        activeSpendIn transactions (bs_payeeNormalized b) latest ≠ [] →
        (bs_minMonthly b <= bs_requiredExact b <= bs_maxMonthly b)%Q)
    (buildBillsSummary transactions).
Proof.
  apply Forall_forall. intros b (p & Hne & ->)%elem_of_buildBillsSummary.
  destruct (billSummaryOf_amounts (latestBillMonth transactions) p
              (billRowsOf transactions p) Hne) as [Hmm Hreq].
  split; [done|]. intros latest Hl Hsome.
  apply (Hreq latest Hl). by rewrite activeSpendIn_billRowsOf.
Qed.


(** ** The most common name and category *)

Lemma addCount_soFar seen counts k :
  countsSoFar seen counts → countsSoFar (seen ++ [k]) (addCount counts k).
Proof.
  intros [Hnd Hget]. split; [by apply mapSet_NoDup|].
  intros k'. unfold addCount, occurrences.
  rewrite mapGet_mapSet, filter_app, length_app.
  destruct (decide (k' = k)) as [->|Hne].
  - rewrite (filter_cons_True _ k []) by done. rewrite filter_nil.
    rewrite decide_False by (simpl; lia).
    rewrite Hget. unfold occurrences.
    destruct (decide (length (filter _ seen) = 0)) as [->|]; simpl; done.
  - rewrite (filter_cons_False _ k []) by congruence.
    rewrite filter_nil. simpl. rewrite Nat.add_0_r. apply Hget.
Qed.

Lemma counts_soFar (keys : list string) :
  countsSoFar keys (foldl addCount [] keys).
Proof.
  assert (∀ l seen counts,
            countsSoFar seen counts →
            countsSoFar (seen ++ l) (foldl addCount counts l)) as Hfold.
  { induction l as [|k l IH]; intros seen counts H; simpl.
    - by rewrite app_nil_r.
    - rewrite cons_middle, app_assoc. by apply IH, addCount_soFar. }
  apply (Hfold keys [] []). split; [constructor|done].
Qed.

Lemma occurrences_pos k l : occurrences k l ≠ 0 ↔ k ∈ l.
Proof.
  unfold occurrences. split.
  - intros H. destruct (filter _ l) as [|x l'] eqn:E; [done|].
    assert (x ∈ filter (λ x, x = k) l) as Hx by (rewrite E; left).
    by apply list_elem_of_filter in Hx as [-> ?].
  - intros Hk H. apply nil_length_inv in H.
    assert (k ∈ filter (λ x, x = k) l) as Hx by by apply list_elem_of_filter.
    rewrite H in Hx. by apply elem_of_nil in Hx.
Qed.

Lemma mostCommon_spec (keys : list string) :
  keys ≠ [] →
  mostCommon keys ∈ keys
  ∧ ∀ k, occurrences k keys ≤ occurrences (mostCommon keys) keys.
Proof.
  intros Hne. unfold mostCommon.
  destruct (counts_soFar keys) as [Hnd Hget].
  set (counts := foldl addCount [] keys) in *.
  set (before := λ a b : string * nat, Nat.ltb b.2 a.2).
  assert (StronglySorted (λ a b : string * nat, b.2 ≤ a.2)
            (sortStable before counts)) as Hsorted.
  { apply Sorted_StronglySorted.
    - intros a b c. lia.
    - assert (Sorted (λ a b, before b a = false) (sortStable before counts))
        as Hs.
      { apply sortStable_Sorted. intros a b. unfold before.
        rewrite Nat.ltb_lt, Nat.ltb_ge. lia. }
      induction Hs as [|b l _ IH Hhd]; constructor; [done|].
      destruct Hhd as [|c l Hc]; constructor.
      unfold before in Hc. apply Nat.ltb_ge in Hc. done. }
  assert (∀ e, e ∈ sortStable before counts ↔ e ∈ counts) as Hperm.
  { intros e. by rewrite sortStable_Permutation. }
  assert (∀ k c, (k, c) ∈ counts ↔ c = occurrences k keys ∧ k ∈ keys)
    as Hcounts.
  { intros k c. split.
    - intros Hin. apply mapGet_elem in Hin; [|done]. rewrite Hget in Hin.
      destruct (decide (occurrences k keys = 0)) as [|Hpos]; [done|].
      injection Hin as <-. split; [done|]. by apply occurrences_pos.
    - intros [-> Hk]. apply mapGet_Some_elem. rewrite Hget.
      rewrite decide_False; [done|]. by apply occurrences_pos. }
  destruct (sortStable before counts) as [|[k0 c0] rest] eqn:Es.
  - exfalso. destruct keys as [|k l]; [done|].
    assert ((k, occurrences k (k :: l)) ∈ counts) as Hin
      by (apply Hcounts; split; [done|left]).
    apply Hperm in Hin. by apply elem_of_nil in Hin.
  - assert ((k0, c0) ∈ counts) as H0 by (apply Hperm; left).
    apply Hcounts in H0 as [-> Hk0]. split; [done|].
    intros k. destruct (decide (k ∈ keys)) as [Hk|Hk].
    + assert ((k, occurrences k keys) ∈ (k0, occurrences k0 keys) :: rest)
        as Hin by (apply Hperm, Hcounts; done).
      apply elem_of_cons in Hin as [[= -> _]|Hin]; [done|].
      apply StronglySorted_inv in Hsorted as [_ Hall].
      by apply (proj1 (Forall_forall _ _) Hall) in Hin.
    + assert (occurrences k keys = 0) as ->; [|lia].
      destruct (decide (occurrences k keys = 0)) as [|Hpos]; [done|].
      by apply occurrences_pos in Hpos.
Qed.

(** X21.  The display name and the category of an entry of the bills
    summary are a name and a category of the payee's active spend rows,
    and none occurs more often among them. *)
Theorem buildBillsSummary_most_common (transactions : list TransactionRow) :
  Forall (λ b,
    let txs := billRowsOf transactions (bs_payeeNormalized b) in
    (bs_payee b ∈ map name txs
     ∧ ∀ n, occurrences n (map name txs)
            ≤ occurrences (bs_payee b) (map name txs))
    ∧ (bs_category b ∈ map categoryFinal txs
       ∧ ∀ c, occurrences c (map categoryFinal txs)
              ≤ occurrences (bs_category b) (map categoryFinal txs)))
    (buildBillsSummary transactions).
Proof.
  apply Forall_forall. intros b (p & Hne & ->)%elem_of_buildBillsSummary.
  cbn [bs_payeeNormalized bs_payee bs_category billSummaryOf].
  split; apply mostCommon_spec; by destruct (billRowsOf transactions p).
Qed.


(** ** The bills summary of a pipeline run *)

(** The required amount of an entry whose payee has a row in the latest
    month is the total of that month, to the penny. *)
Lemma billSummaryOf_required latest p txs :
  filter (λ t, monthKey t = latest) txs ≠ [] →
  bs_requiredExact (billSummaryOf (Some latest) p txs)
  = round2 (sumQ (map amountAbs (filter (λ t, monthKey t = latest) txs))).
Proof.
  intros Hne. unfold billSummaryOf. cbn [bs_requiredExact mbind option_bind].
  pose proof (monthlyTotals_soFar txs latest) as H. cbv zeta in H.
  destruct (mapGet _ latest) as [q|]; [|done].
  apply round2_comp. by destruct H.
Qed.

Lemma filter_key {A K} (key : A → K) (P : A → Prop)
    `{!∀ x, Decision (P x)} (l l' : list A) :
  (∀ x y, key x = key y → P x ↔ P y) →
  map key l = map key l' → map key (filter P l) = map key (filter P l').
Proof.
  intros HP. revert l'.
  induction l as [|x l IH]; intros [|y l']; try done.
  simpl. intros [= Hk Hl]. rewrite !filter_cons.
  destruct (decide (P x)) as [Hx|Hx].
  - rewrite decide_True by by apply (HP x y). simpl. by rewrite Hk, (IH l').
  - rewrite decide_False by by rewrite <- (HP x y). by apply IH.
Qed.

Lemma billKey_inv r r' :
  billKey r = billKey r' →
  billStatus r = billStatus r' ∧ isSpend r = isSpend r'
  ∧ payeeNormalized r = payeeNormalized r' ∧ monthKey r = monthKey r'
  ∧ amountAbs r = amountAbs r'.
Proof. unfold billKey. by intros [= -> -> -> -> ->]. Qed.

Lemma billKey_transfer (l l' : list TransactionRow) :
  map billKey l = map billKey l' →
  latestBillMonth l = latestBillMonth l'
  ∧ ∀ p latest,
      map amountAbs (activeSpendIn l p latest)
      = map amountAbs (activeSpendIn l' p latest).
Proof.
  intros Hk. split.
  - unfold latestBillMonth. do 2 f_equal.
    rewrite <- !(map_map billKey (λ k, k.1.2)).
    f_equal. apply filter_key; [|done].
    intros x y (-> & -> & _)%billKey_inv. done.
  - intros p latest. unfold activeSpendIn.
    rewrite <- !(map_map billKey snd).
    f_equal. apply filter_key; [|done].
    intros x y (-> & -> & -> & -> & _)%billKey_inv. done.
Qed.

(** An active row of [applyBillStatus]: the latest month has active
    spend rows of the payee, and their total is the required amount. *)
Lemma applyBillStatus_active_total rows c :
  c ∈ applyBillStatus rows → billStatus c = "active" →
  ∃ latest,
    latestOf (spendMonths rows) = Some latest
    ∧ activeSpendIn (applyBillStatus rows) (payeeNormalized c) latest ≠ []
    ∧ (requiredAmountExact c ==
       sumQ (map amountAbs
               (activeSpendIn (applyBillStatus rows) (payeeNormalized c)
                  latest)))%Q.
Proof.
  intros Hc.
  destruct (decide (filter (λ r, isSpend r = true) rows = [])) as [He|Hne].
  { rewrite applyBillStatus_no_spend in Hc by done.
    apply elem_of_map in Hc as (r & _ & ->). done. }
  apply elem_of_applyBillStatus in Hc as (r & Hr & ->); [|done].
  rewrite billRow_status, billRow_required.
  destruct (keyFields_inv _ _ (billRow_keyFields rows r)) as (-> & _).
  intros Hact. rewrite Hact. simpl.
  destruct (latestOf_spend rows Hne) as (latest & Hl & Hlatest).
  exists latest. split; [done|].
  pose proof (totalsOf_soFar rows latest Hl (payeeNormalized r)) as Htot.
  cbv zeta in Htot.
  assert (activeSpendIn (applyBillStatus rows) (payeeNormalized r) latest
          ≠ []) as Hsome.
  { rewrite statusRow_status in Hact.
    destruct (isBillCandidate (markCandidate (payeeStatsOf rows) r));
      [|done].
    destruct (bool_decide (payeeNormalized r ∈ presentLatestOf rows)) eqn:Ep.
    2:{ by destruct (bool_decide (_ ∈ seenBeforeOf rows)). }
    apply bool_decide_eq_true in Ep as Ep'.
    apply (presentLatestOf_spec rows latest _ Hl) in Ep'
      as (r1 & Hr1 & Hp1 & Hc1 & Hs1 & Hm1).
    assert (billRow rows r1
            ∈ activeSpendIn (applyBillStatus rows) (payeeNormalized r) latest)
      as Hin.
    { unfold activeSpendIn. apply list_elem_of_filter.
      rewrite elem_of_applyBillStatus by done.
      split; [|eauto].
      destruct (keyFields_inv _ _ (billRow_keyFields rows r1))
        as (-> & -> & -> & _).
      rewrite billRow_status, statusRow_status, Hc1, Hp1, Ep. done. }
    intros Hnil. rewrite Hnil in Hin. by apply elem_of_nil in Hin. }
  split; [done|].
  rewrite <- activeSpend_amounts by done.
  destruct ((totalsOf rows).1 !! payeeNormalized r) as [q|].
  - by destruct Htot.
  - exfalso. apply Hsome. apply (f_equal (map amountAbs)) in Htot.
    rewrite activeSpend_amounts in Htot by done.
    by destruct (activeSpendIn _ _ _).
Qed.

(** The latest month of the active spend rows of [applyBillStatus] is
    the latest month of the spend rows, once a payee is active. *)
Lemma latestBillMonth_applyBillStatus rows p latest :
  latestOf (spendMonths rows) = Some latest →
  activeSpendIn (applyBillStatus rows) p latest ≠ [] →
  latestBillMonth (applyBillStatus rows) = Some latest.
Proof.
  intros Hl Hsome.
  destruct (decide (filter (λ r, isSpend r = true) rows = [])) as [He|Hne].
  { exfalso. apply Hsome. unfold activeSpendIn.
    rewrite applyBillStatus_no_spend by done.
    match goal with |- ?l = [] => destruct l as [|c l'] eqn:E end; [done|].
    assert (c ∈ c :: l') as Hc by left. rewrite <- E in Hc.
    by apply list_elem_of_filter in Hc as [[Ha _] (r & _ & ->)%elem_of_map]. }
  destruct (latestOf_spec (spendMonths rows)) as (m & Hm & _ & Hmax).
  { unfold spendMonths. by destruct (filter _ rows). }
  rewrite Hl in Hm. injection Hm as <-.
  unfold latestBillMonth.
  set (keys := map monthKey _).
  assert (latest ∈ keys) as Hin.
  { destruct (activeSpendIn _ p latest) as [|c l] eqn:E; [done|].
    assert (c ∈ activeSpendIn (applyBillStatus rows) p latest) as Hc
      by (rewrite E; left).
    apply list_elem_of_filter in Hc as [(Ha & Hs & _ & Hmk) Hc].
    unfold keys. apply elem_of_map. exists c. split; [|done].
    apply list_elem_of_filter. split; [|done].
    by rewrite Hs, Ha. }
  destruct (latestOf_spec keys) as (m' & Hm' & Hin' & Hmax').
  { intros Hnil. rewrite Hnil in Hin. by apply elem_of_nil in Hin. }
  unfold latestOf in Hm'. rewrite Hm'. f_equal.
  apply (anti_symm String.le); [|by apply Hmax'].
  apply Hmax. unfold keys in Hin'.
  apply elem_of_map in Hin' as (c & [Hsa Hc]%list_elem_of_filter & ->).
  apply elem_of_applyBillStatus in Hc as (r & Hr & ->); [|done].
  destruct (keyFields_inv _ _ (billRow_keyFields rows r))
    as (_ & Hmk & Hs & _).
  rewrite Hmk. rewrite Hs in Hsa.
  unfold spendMonths. apply elem_of_map. exists r. split; [|done].
  apply list_elem_of_filter. split; [|done].
  by apply andb_true_iff in Hsa as [? _].
Qed.

Lemma runPipelineShared_billKey rules cfg rows n overrides :
  map billKey (transactions (runOutput rules cfg rows n overrides))
  = map billKey (withBillsOf rules cfg rows overrides).
Proof.
  rewrite runPipelineShared_transactions, map_map.
  apply map_ext. intros row. by destruct (String.eqb _ _).
Qed.

Lemma buildBillsSummary_of_runOutput (rules : list Rule)
    (exclusionRules : ExclusionRules) (rows : list TransactionRow)
    (rawCount : nat) (payeeOverrides : gmap string string) :
  let out :=
    transactions
      (runOutput rules exclusionRules rows rawCount payeeOverrides) in
  Forall (λ t,
    billStatus t = "active" →
    ∃ b, b ∈ buildBillsSummary out
         ∧ bs_payeeNormalized b = payeeNormalized t
         ∧ bs_requiredExact b = round2 (requiredAmountExact t)
         ∧ typicalDay t = Some (bs_typicalDay b)) out.
Proof.
  intros out. apply Forall_forall. intros t Ht Hact.
  destruct (runPipelineShared_row rules exclusionRules rows rawCount
              payeeOverrides t Ht) as (w & Hw & Hp & Hs & Hreq & _ & Hactive).
  rewrite Hs in Hact. destruct (Hactive Hact) as (_ & Hdays & Htd).
  fold out in Hdays, Htd.
  destruct (applyBillStatus_active_total _ w Hw Hact)
    as (latest & Hl & Hsome & Hsum).
  fold (withBillsOf rules exclusionRules rows payeeOverrides) in Hsome, Hsum.
  pose proof (latestBillMonth_applyBillStatus _ _ _ Hl Hsome) as Hlatest.
  fold (withBillsOf rules exclusionRules rows payeeOverrides) in Hlatest.
  destruct (billKey_transfer _ _
              (runPipelineShared_billKey rules exclusionRules rows rawCount
                 payeeOverrides)) as [Hlm Hamounts].
  fold out in Hlm, Hamounts.
  exists (billSummaryOf (latestBillMonth out) (payeeNormalized t)
            (billRowsOf out (payeeNormalized t))).
  assert (billRowsOf out (payeeNormalized t) ≠ []) as Hne.
  { intros Hnil. apply Hdays. unfold daysOf.
    change (filter _ out) with (billRowsOf out (payeeNormalized t)).
    by rewrite Hnil. }
  split; [apply elem_of_buildBillsSummary; eauto|].
  split; [done|]. split; [|done].
  rewrite Hlm, Hlatest, billSummaryOf_required.
  - rewrite activeSpendIn_billRowsOf, Hamounts, Hp, Hreq.
    apply round2_comp, Qeq_sym, Hsum.
  - rewrite activeSpendIn_billRowsOf. intros Hnil.
    apply Hsome. rewrite <- Hp.
    specialize (Hamounts (payeeNormalized t) latest). rewrite Hnil in Hamounts.
    simpl in Hamounts. symmetry in Hamounts.
    by apply map_eq_nil in Hamounts.
Qed.

(** X22.  The bills summary of a pipeline run agrees with the rows it
    summarises: every active row has an entry for its payee, the entry's
    required amount is the row's rounded to the penny, and its typical day
    is the row's. *)
Theorem buildBillsSummary_of_pipeline (rules : list Rule)
    (exclusionRules : ExclusionRules) (rows : list TransactionRow)
    (rawCount : nat) (payeeOverrides : gmap string string) :
  match runPipelineShared rules exclusionRules rows rawCount
          payeeOverrides with
  | Ok run =>
      let out := transactions run in
      Forall (λ t,
        billStatus t = "active" →
        ∃ b, b ∈ buildBillsSummary out
             ∧ bs_payeeNormalized b = payeeNormalized t
             ∧ bs_requiredExact b = round2 (requiredAmountExact t)
             ∧ typicalDay t = Some (bs_typicalDay b)) out
  | Err _ => True
  end.
Proof.
  destruct (runPipelineShared_cases rules exclusionRules rows rawCount payeeOverrides)
    as [[_ ->]|[_ ->]]; [done|].
  apply buildBillsSummary_of_runOutput.
Qed.


(** ** The groups of the variable summary *)




Lemma size_months (keys : list string) :
  size (list_to_set keys : gset string) = length (remove_dups keys).
Proof.
  rewrite <- (size_list_to_set (C := gset string) (remove_dups keys))
    by apply NoDup_remove_dups.
  f_equal. apply set_eq. intros k.
  by rewrite !elem_of_list_to_set, elem_of_remove_dups.
Qed.

(** The entries of the variable summary, up to their order. *)
Lemma buildVariableSummary_entries transactions timeframe :
  let rows := variableRows transactions timeframe in
  ∃ (weekCount : Q) (thisMonthTotals : gmap string Q),
    buildVariableSummary transactions timeframe ≡ₚ
    map (λ '(category, (totalSpend, txCount)),
           {| vc_category := category;
              vc_avgMonthly :=
                round2 (totalSpend
                        / inject_Z
                            (Z.of_nat
                               (length (remove_dups (map monthKey rows)))));
              vc_avgWeekly := round2 (totalSpend / weekCount);
              vc_txCount := txCount;
              vc_thisMonthActual :=
                round2 (orZero (thisMonthTotals !! category));
              vc_target := round2 (totalSpend / weekCount) |})
        (foldl (λ g t, addGroup g (categoryFinal t) (amountAbs t)) [] rows).
Proof.
  cbv zeta. unfold buildVariableSummary, variableRows.
  set (base0 := filter _ transactions).
  destruct (Nat.eqb (length base0) 0) eqn:H0.
  { apply Nat.eqb_eq, nil_length_inv in H0. rewrite H0.
    exists 1%Q, ∅. by destruct timeframe. }
  set (rows := match timeframe with
               | this_month => _ | last_3 => _ | all => _ end).
  destruct (Nat.eqb (length rows) 0) eqn:H1.
  { apply Nat.eqb_eq, nil_length_inv in H1. rewrite H1.
    by exists 1%Q, ∅. }
  eexists _, _. rewrite sortStable_Permutation.
  rewrite size_months.
  assert (Nat.max 1 (length (remove_dups (map monthKey rows)))
          = length (remove_dups (map monthKey rows))) as ->; [|done].
  apply Nat.eqb_neq in H1.
  destruct rows as [|t rows']; [done|].
  assert (monthKey t ∈ remove_dups (map monthKey (t :: rows'))) as Hin
    by (apply elem_of_remove_dups; left).
  destruct (remove_dups _); [by apply elem_of_nil in Hin|]. simpl. lia.
Qed.

Lemma sum_list_Permutation_nat (l l' : list nat) :
  l ≡ₚ l' → sum_list l = sum_list l'.
Proof. induction 1; simpl; lia. Qed.

Lemma catGroups_count (base : list TransactionRow) groups :
  sum_list (map (λ e : string * (Q * nat), e.2.2)
              (foldl (λ g t, addGroup g (categoryFinal t) (amountAbs t))
                 groups base))
  = sum_list (map (λ e : string * (Q * nat), e.2.2) groups) + length base.
Proof.
  revert groups. induction base as [|t base IH]; intros groups; simpl.
  - lia.
  - rewrite IH. clear IH.
    assert (∀ c a, sum_list (map (λ e : string * (Q * nat), e.2.2)
                               (addGroup groups c a))
                   = S (sum_list (map (λ e : string * (Q * nat), e.2.2)
                                    groups))) as ->; [|lia].
    intros c a. induction groups as [|[k [total count]] rest IH]; simpl.
    + done.
    + destruct (String.eqb k c); simpl; [done|]. rewrite IH. lia.
Qed.


Lemma avgMonthlyOrder_trans : Transitive avgMonthlyOrder.
Proof. intros a b c H1 H2. unfold avgMonthlyOrder in *. by eapply Qle_trans. Qed.

Lemma avgMonthlyBefore_asym a b :
  avgMonthlyBefore a b = true → avgMonthlyBefore b a = false.
Proof.
  unfold avgMonthlyBefore. rewrite Qltb_lt. intros H.
  apply not_true_iff_false. rewrite Qltb_lt. by apply Qle_not_lt, Qlt_le_weak.
Qed.

(** X24.  The variable summary is ordered by monthly average, largest
    first. *)
Theorem buildVariableSummary_sorted (transactions : list TransactionRow)
    (timeframe : Timeframe) :
  StronglySorted avgMonthlyOrder (buildVariableSummary transactions timeframe).
Proof.
  apply Sorted_StronglySorted; [apply avgMonthlyOrder_trans|].
  assert (Sorted (λ a b, avgMonthlyBefore b a = false)
            (buildVariableSummary transactions timeframe)) as Hs.
  { unfold buildVariableSummary.
    destruct (Nat.eqb _ 0); [constructor|].
    destruct (Nat.eqb _ 0); [constructor|].
    apply sortStable_Sorted, avgMonthlyBefore_asym. }
  induction Hs as [|b l _ IH Hhd]; constructor; [done|].
  destruct Hhd as [|c l Hc]; constructor.
  unfold avgMonthlyOrder. apply Qnot_lt_le. intros Hlt%Qltb_lt.
  unfold avgMonthlyBefore in Hc. congruence.
Qed.


(** ** The two summaries of a pipeline run *)

Lemma addPayeeGroup_count groups t :
  sum_list (map (λ e : string * list TransactionRow, length e.2)
              (addPayeeGroup groups t))
  = S (sum_list (map (λ e : string * list TransactionRow, length e.2)
                   groups)).
Proof.
  unfold addPayeeGroup.
  induction groups as [|[k txs] rest IH]; simpl; [done|].
  destruct (String.eqb k (payeeNormalized t)); simpl.
  - rewrite length_app. simpl. lia.
  - rewrite IH. lia.
Qed.

Lemma payeeGroups_count (spend : list TransactionRow) groups :
  sum_list (map (λ e : string * list TransactionRow, length e.2)
              (foldl addPayeeGroup groups spend))
  = sum_list (map (λ e : string * list TransactionRow, length e.2) groups)
    + length spend.
Proof.
  revert groups. induction spend as [|t spend IH]; intros groups; simpl.
  - lia.
  - rewrite IH, addPayeeGroup_count. lia.
Qed.

Lemma buildBillsSummary_count (rows : list TransactionRow) :
  sum_list (map bs_txCount (buildBillsSummary rows))
  = length (filter (λ t, isSpend t && String.eqb (billStatus t) "active"
                         = true) rows).
Proof.
  unfold buildBillsSummary. set (spend := filter _ rows).
  destruct (Nat.eqb (length spend) 0) eqn:H0.
  { apply Nat.eqb_eq in H0. by rewrite H0. }
  rewrite (sum_list_Permutation_nat _ _
             (fmap_Permutation _ _ _ (sortStable_Permutation _ _))).
  rewrite map_map.
  rewrite (map_ext _ (λ e : string * list TransactionRow, length e.2))
    by by intros [? ?].
  by rewrite payeeGroups_count.
Qed.

Lemma spend_split (rows : list TransactionRow) :
  Forall spendInvariant rows →
  length (filter (λ t, isSpend t && String.eqb (billStatus t) "active"
                       = true) rows)
  + length (filter (λ t, isSpend t
                         && negb (String.eqb (billStatus t) "active")
                         && negb (isInternalTransfer t) = true) rows)
  = length (filter (λ r, isSpend r = true) rows).
Proof.
  induction 1 as [|r rows Hr _ IH]; [done|].
  assert (isSpend r = true → isInternalTransfer r = false) as Hi
    by (intros Hs; by apply Hr).
  rewrite !filter_cons.
  destruct (isSpend r), (String.eqb (billStatus r) "active"),
    (isInternalTransfer r);
    repeat case_decide; simpl in *; try done; try lia;
    by specialize (Hi eq_refl).
Qed.

Lemma runPipelineShared_invariant rules cfg rows n overrides :
  Forall spendInvariant
    (transactions (runOutput rules cfg rows n overrides)).
Proof.
  destruct (runPipelineShared_maps rules cfg rows n overrides) as [_ Hs].
  pose proof (applyExclusions_invariant cfg rows) as Hinv.
  revert Hs Hinv.
  generalize (transactions (runOutput rules cfg rows n overrides)).
  generalize (applyExclusions cfg rows).
  intros l' l. revert l'.
  induction l as [|r l IH]; intros [|r' l']; try done.
  rewrite !map_cons. intros Hs [Hr' Hl']%Forall_cons.
  assert (spendFields r = spendFields r') as Hr by congruence.
  assert (map spendFields l = map spendFields l') as Hl by congruence.
  constructor.
  - exact (spendInvariant_fields r' r Hr Hr').
  - by apply (IH l').
Qed.

Lemma summaries_count_runOutput (rules : list Rule)
    (exclusionRules : ExclusionRules) (rows : list TransactionRow)
    (rawCount : nat) (payeeOverrides : gmap string string) :
  let run :=
    runOutput rules exclusionRules rows rawCount payeeOverrides in
  sum_list (map bs_txCount (buildBillsSummary (transactions run)))
  + sum_list (map vc_txCount (buildVariableSummary (transactions run) all))
  = spendCount run.
Proof.
  intros run.
  destruct (buildVariableSummary_entries (transactions run) all)
    as (weekCount & thisMonthTotals & Hperm).
  rewrite buildBillsSummary_count.
  rewrite (sum_list_Permutation_nat _ _ (fmap_Permutation _ _ _ Hperm)).
  rewrite map_map.
  rewrite (map_ext _ (λ e : string * (Q * nat), e.2.2))
    by by intros [? [? ?]].
  rewrite catGroups_count. cbn [variableRows map sum_list].
  change (spendCount run)
    with (length (filter (λ r, isSpend r = true) (transactions run))).
  apply spend_split, runPipelineShared_invariant.
Qed.

(** X25.  Every spend row of a pipeline run is counted in exactly one of
    the two summaries: the transaction counts of the bills summary and of
    the variable summary over all months add up to the run's spend
    count. *)
Theorem summaries_count_spend (rules : list Rule)
    (exclusionRules : ExclusionRules) (rows : list TransactionRow)
    (rawCount : nat) (payeeOverrides : gmap string string) :
  match runPipelineShared rules exclusionRules rows rawCount
          payeeOverrides with
  | Ok run =>
      sum_list (map bs_txCount (buildBillsSummary (transactions run)))
      + sum_list
          (map vc_txCount (buildVariableSummary (transactions run) all))
      = spendCount run
  | Err _ => True
  end.
Proof.
  destruct (runPipelineShared_cases rules exclusionRules rows rawCount payeeOverrides)
    as [[_ ->]|[_ ->]]; [done|].
  apply summaries_count_runOutput.
Qed.


(** ** Dates *)

#[local] Open Scope Z_scope.

Ltac by_month m :=
  let Hc := fresh "Hc" in
  assert (m = 1 ∨ m = 2 ∨ m = 3 ∨ m = 4 ∨ m = 5 ∨ m = 6 ∨ m = 7 ∨ m = 8
          ∨ m = 9 ∨ m = 10 ∨ m = 11 ∨ m = 12) as Hc by lia;
  destruct Hc as [->|[->|[->|[->|[->|[->|[->|[->|[->|[->|[->| ->]]]]]]]]]]];
  simpl in *.

(** Whatever the day number, the month is one of the twelve and the day
    of the month at most 31. *)
Lemma civilFromDays_bounds z :
  1 <= (civilFromDays z).1.2 <= 12 ∧ 1 <= (civilFromDays z).2 <= 31.
Proof.
  unfold civilFromDays. cbv zeta. cbn [fst snd].
  set (doe := z + 719468 - (z + 719468) / 146097 * 146097).
  assert (0 <= doe <= 146096) as Hdoe.
  { unfold doe. Z.to_euclidean_division_equations; lia. }
  clearbody doe.
  set (yoe := (doe - doe / 1460 + doe / 36524 - doe / 146096) / 365).
  set (doy := doe - (365 * yoe + yoe / 4 - yoe / 100)).
  assert (0 <= doy <= 365) as Hdoy.
  { unfold doy, yoe. Z.to_euclidean_division_equations; lia. }
  clearbody doy. clear yoe Hdoe.
  set (mp := (5 * doy + 2) / 153).
  assert (0 <= mp <= 11) as Hmp.
  { unfold mp. Z.to_euclidean_division_equations; lia. }
  destruct (mp <? 10) eqn:E; [apply Z.ltb_lt in E|apply Z.ltb_ge in E];
    (split; [lia|]); unfold mp in *; Z.to_euclidean_division_equations; lia.
Qed.

Lemma getDate_bounds t : 1 <= getDate t <= 31.
Proof. apply civilFromDays_bounds. Qed.

(** The two conversions are inverse on the dates of the calendar. *)
Lemma civil_round_trip y m d :
  1 <= m <= 12 → 1 <= d <= daysInMonth y m →
  civilFromDays (daysFromCivil y m d) = (y, m, d).
Proof.
  intros Hm Hd. unfold daysFromCivil.
  set (y' := if m <=? 2 then y - 1 else y).
  set (era := y' / 400).
  set (yoe := y' - era * 400).
  set (mp := if 2 <? m then m - 3 else m + 9).
  set (doy := (153 * mp + 2) / 5 + d - 1).
  set (doe := yoe * 365 + yoe / 4 - yoe / 100 + doy).
  assert (0 <= yoe <= 399) as Hyoe.
  { unfold yoe, era. Z.to_euclidean_division_equations; lia. }
  assert (0 <= mp <= 11 ∧ m = (if mp <? 10 then mp + 3 else mp - 9))
    as [Hmp Hmeq].
  { unfold mp.
    destruct (2 <? m) eqn:E; [apply Z.ltb_lt in E|apply Z.ltb_ge in E].
    - split; [lia|].
      destruct (m - 3 <? 10) eqn:E2; [lia|apply Z.ltb_ge in E2; lia].
    - split; [lia|].
      destruct (m + 9 <? 10) eqn:E2; [apply Z.ltb_lt in E2; lia|lia]. }
  assert (isLeapYear y = true →
          y mod 4 = 0 ∧ (y mod 100 ≠ 0 ∨ y mod 400 = 0)) as Hleap.
  { unfold isLeapYear.
    rewrite andb_true_iff, orb_true_iff, negb_true_iff, !Z.eqb_eq, Z.eqb_neq.
    tauto. }
  assert (0 <= doy <= 365
          ∧ (doy = 365 → yoe mod 4 = 3 ∧ (yoe mod 100 ≠ 99 ∨ yoe = 399))
          ∧ d = doy - (153 * mp + 2) / 5 + 1
          ∧ (5 * doy + 2) / 153 = mp) as (Hdoy & Hlast & Hdeq & Hmpeq).
  { unfold doy. split; [|split; [|split; [lia|]]].
    - unfold daysInMonth in Hd. unfold mp.
      destruct (isLeapYear y); by_month m;
        Z.to_euclidean_division_equations; lia.
    - unfold daysInMonth in Hd. unfold mp.
      by_month m; try (Z.to_euclidean_division_equations; lia).
      destruct (isLeapYear y) eqn:El;
        [|Z.to_euclidean_division_equations; lia].
      intros _. specialize (Hleap eq_refl).
      unfold yoe, era, y'. simpl.
      Z.to_euclidean_division_equations; lia.
    - unfold daysInMonth in Hd. unfold mp.
      destruct (isLeapYear y); by_month m;
        Z.to_euclidean_division_equations; lia. }
  clearbody doy mp.
  assert (y = (if m <=? 2 then yoe + era * 400 + 1 else yoe + era * 400))
    as Hy.
  { unfold yoe, y'. destruct (m <=? 2); lia. }
  clearbody yoe era. clear y' Hd Hleap.
  unfold civilFromDays.
  replace (era * 146097 + doe - 719468 + 719468) with (doe + era * 146097)
    by lia.
  assert (0 <= doe <= 146096) as Hdoe.
  { unfold doe. Z.to_euclidean_division_equations; lia. }
  rewrite Z.div_add by lia. rewrite (Z.div_small doe), Z.add_0_l by lia.
  replace (doe + era * 146097 - era * 146097) with doe by lia.
  assert ((doe - doe / 1460 + doe / 36524 - doe / 146096) / 365 = yoe) as ->.
  { unfold doe. Z.to_euclidean_division_equations; lia. }
  replace (doe - (365 * yoe + yoe / 4 - yoe / 100)) with doy
    by (unfold doe; lia).
  by rewrite Hmpeq, <- Hmeq, <- Hdeq, <- Hy.
Qed.

Lemma daysFromCivil_day y m d :
  daysFromCivil y m 1 + d - 1 = daysFromCivil y m d.
Proof. unfold daysFromCivil. lia. Qed.

Lemma daysFromCivil_bounds y m d :
  100 <= y <= 9999 → 1 <= m <= 12 → 1 <= d <= 31 →
  Z.abs (daysFromCivil y m d * msPerDay) <= 8640000000000000.
Proof.
  intros Hy Hm Hd. unfold daysFromCivil, msPerDay.
  destruct (m <=? 2), (2 <? m); Z.to_euclidean_division_equations; lia.
Qed.

Lemma daysInMonth_le y m : daysInMonth y m <= 31.
Proof.
  unfold daysInMonth.
  destruct (m =? 2); [by destruct (isLeapYear y)|].
  by destruct (_ || _).
Qed.

(** X26.  A date written as a day, a month and a year of the calendar,
    separated by slashes, parses to that very date: its year, month and day
    are the ones written, and its month key is the year and the two-digit
    month. *)
Theorem parseDateDDMMYYYY_valid (dateStr dd mm yyyy : string) (d m y : Z) :
  split "/" dateStr = [dd; mm; yyyy] →
  parseInt dd = Some d → parseInt mm = Some m → parseInt yyyy = Some y →
  100 <= y <= 9999 → 1 <= m <= 12 → 1 <= d <= daysInMonth y m →
  ∃ t, parseDateDDMMYYYY dateStr = Some t
       ∧ getFullYear t = y ∧ getMonth t = m - 1 ∧ getDate t = d
       ∧ monthKeyOf t = (pretty y +:+ "-" +:+ padStart2 (pretty m))%string.
Proof.
  intros Hsplit Hdd Hmm Hyyyy Hy Hm Hd.
  pose proof (daysInMonth_le y m) as Hle.
  unfold parseDateDDMMYYYY. rewrite Hsplit, Hdd, Hmm, Hyyyy.
  cbn [fmap option_fmap option_map newDate].
  assert (((0 <=? y) && (y <=? 99)) = false) as ->.
  { apply andb_false_iff. right. apply Z.leb_gt. lia. }
  rewrite (Z.div_small (m - 1)), (Z.mod_small (m - 1)) by lia.
  replace (y + 0) with y by lia. replace (m - 1 + 1) with m by lia.
  rewrite daysFromCivil_day.
  assert ((Z.abs (daysFromCivil y m d * msPerDay) <=? 8640000000000000)
          = true) as ->.
  { apply Z.leb_le, daysFromCivil_bounds; lia. }
  eexists. split; [done|].
  unfold monthKeyOf, getFullYear, getMonth, getDate.
  rewrite Z.div_mul by done. rewrite civil_round_trip by done.
  cbn [fst snd]. repeat split; try done.
  by replace (m - 1 + 1) with m by lia.
Qed.

(** X26 on 29 February 2024. *)
Lemma parseDateDDMMYYYY_valid_leap_day :
  ∃ t, parseDateDDMMYYYY "29/02/2024" = Some t
       ∧ getFullYear t = 2024 ∧ getMonth t = 2 - 1 ∧ getDate t = 29
       ∧ monthKeyOf t = (pretty 2024 +:+ "-" +:+ padStart2 (pretty 2))%string.
Proof.
  apply (parseDateDDMMYYYY_valid "29/02/2024" "29" "02" "2024" 29 2 2024);
    (done || by vm_compute).
Defined.

#[local] Close Scope Z_scope.

(** X27.  In what the pipeline returns for uploaded files, the day of
    every transaction is a day of the month, from 1 to 31, and so are the
    typical day of every transaction that has one and the typical day of
    every entry of the bills summary. *)
Theorem runFullPipelineFromContent_days (genId : nat → string)
    (rules : list Rule) (exclusionRules : ExclusionRules)
    (files : list CsvFile) (overrides : gmap string string) :
  match runFullPipelineFromContent genId rules exclusionRules files
          overrides with
  | Ok out =>
      Forall (λ t,
        (1 ≤ day t ≤ 31)%Z
        ∧ ∀ d, typicalDay t = Some d → (1 ≤ d ≤ 31)%Z) (transactions out)
      ∧ Forall (λ b, (1 ≤ bs_typicalDay b ≤ 31)%Z)
               (buildBillsSummary (transactions out))
  | Err _ => True
  end.
Proof.
  unfold runFullPipelineFromContent, parseMonzoCsvContents.
  destruct (Nat.eqb _ _); [done|].
  pose proof (parseFiles_parsed genId files 0 [] (Forall_nil_2 _)) as Hparsed.
  destruct (parseFiles genId 0 files []) as [rows|msg]; [|done].
  destruct (runPipelineShared_cases rules exclusionRules rows (length rows)
              overrides) as [[_ ->]|[_ ->]]; [done|].
  set (run := runOutput rules exclusionRules rows (length rows)
                overrides).
  destruct (runPipelineShared_maps rules exclusionRules rows (length rows)
              overrides) as (Hraw & _).
  fold run in Hraw.
  assert (∀ t, t ∈ transactions run → (1 ≤ day t ≤ 31)%Z) as Hday.
  { intros t Ht.
    destruct (map_eq_elem rawFields _ _ t Hraw Ht) as (r & Hr & Htr).
    apply elem_of_keptRows in Hr.
    destruct (proj1 (Forall_forall _ _) Hparsed r Hr) as [Hp _].
    destruct (parsedRow_rawFields r t Htr Hp) as (_ & _ & _ & -> & _).
    apply getDate_bounds. }
  assert (∀ p, Forall (λ d, (1 ≤ d ≤ 31)%Z) (daysOf (transactions run) p))
    as Hdays.
  { intros p. apply Forall_forall. intros d.
    unfold daysOf.
    intros (t & [_ Ht]%list_elem_of_filter & ->)%elem_of_map.
    by apply Hday. }
  split.
  - apply Forall_forall. intros t Ht. split; [by apply Hday|].
    intros d Hd.
    destruct (runPipelineShared_row rules exclusionRules rows (length rows)
                overrides t Ht)
      as (w & Hw & _ & Hs & _ & Hna & Hact).
    fold run in Hact.
    destruct (decide (billStatus w = "active")) as [A|A].
    + destruct (Hact A) as (_ & Hne & Htd). rewrite Htd in Hd.
      injection Hd as <-. by apply medianDay_range.
    + destruct (Hna A) as [_ Htd].
      destruct (withBillsOf_frame rules exclusionRules rows overrides)
        as (_ & _ & Hf & _).
      destruct (map_eq_elem typicalDay _ _ w Hf Hw) as (k & Hk & Hwk).
      apply elem_of_keptRows in Hk.
      destruct (proj1 (Forall_forall _ _) Hparsed k Hk) as [_ Hnone].
      congruence.
  - apply Forall_forall.
    intros b (p & Hne & ->)%elem_of_buildBillsSummary.
    cbn [bs_typicalDay billSummaryOf].
    apply medianDay_range; [by destruct (billRowsOf _ p)|].
    apply (Hdays p).
Qed.


(** ** The latest month of a run *)

Lemma runOutput_latestMonth (rules : list Rule)
    (exclusionRules : ExclusionRules) (rows : list TransactionRow)
    (rawCount : nat) (payeeOverrides : gmap string string) :
  let run :=
    runOutput rules exclusionRules rows rawCount payeeOverrides in
  let months := map monthKey (transactions run) in
  (transactions run = [] → latestMonth run = "")
  ∧ (transactions run ≠ [] →
     latestMonth run ∈ months
     ∧ ∀ m, m ∈ months → String.le m (latestMonth run)).
Proof.
  intros run months.
  assert (latestMonth run = orElse (latestOf months) "") as -> by done.
  split.
  - unfold months. by intros ->.
  - intros Hne.
    destruct (latestOf_spec months) as (m & -> & Hin & Hmax).
    { unfold months. by destruct (transactions run). }
    assert (orElse (Some m) "" = m) as -> by by destruct m.
    done.
Qed.

(** X28.  The latest month a pipeline run reports is the greatest month
    key of its transactions, and the empty string when it has none. *)
Theorem runPipelineShared_latestMonth (rules : list Rule)
    (exclusionRules : ExclusionRules) (rows : list TransactionRow)
    (rawCount : nat) (payeeOverrides : gmap string string) :
  match runPipelineShared rules exclusionRules rows rawCount
          payeeOverrides with
  | Ok run =>
      let months := map monthKey (transactions run) in
      (transactions run = [] → latestMonth run = "")
      ∧ (transactions run ≠ [] →
         latestMonth run ∈ months
         ∧ ∀ m, m ∈ months → String.le m (latestMonth run))
  | Err _ => True
  end.
Proof.
  destruct (runPipelineShared_cases rules exclusionRules rows rawCount payeeOverrides)
    as [[_ ->]|[_ ->]]; [done|].
  apply runOutput_latestMonth.
Qed.
